(** * IPBlockOptimizer: network relations, preference ranking and
      requester-proposing deferred acceptance (IPAllocToSMP.py).

    The development embeds the functions of [IPAllocToSMP.py] and the parts
    of Python's [ipaddress] module they call, and proves the properties of
    the accompanying specification about them. *)

From Stdlib Require Import ZArith Lia Ascii.
From stdpp Require Import gmap strings list fin_maps sorting pretty.

Local Open Scope Z_scope.

(** ** Exceptions

    A Python call either returns a value or raises.  [Raise] carries the
    exception class, so that [try ... except ValueError] can be modelled. *)

Inductive exn := ValueError | KeyError.

Inductive result (A : Type) : Type :=
  | Ok (a : A)
  | Raise (e : exn).
Arguments Ok {A} a.
Arguments Raise {A} e.

#[global] Instance result_ret : MRet result := λ A a, Ok a.
#[global] Instance result_bind : MBind result := λ A B f m,
  match m with
  | Ok a => f a
  | Raise e => Raise e
  end.

(** [try: m except ValueError: h] *)
Definition except_ValueError {A} (m : result A) (h : result A) : result A :=
  match m with
  | Raise ValueError => h
  | _ => m
  end.

(** ** The part of [ipaddress] the program uses (IPv4 only) *)

Module Net.

Definition ALL_ONES : Z := 2 ^ 32 - 1.
Definition max_prefixlen : Z := 32.

(** The textual form [a.b.c.d/p], already split into the address as an
    integer and the prefix length. *)
Record cidr : Type := Cidr { cidr_addr : Z; cidr_prefix : Z }.

Record IPv4Network : Type :=
  Network { network_address : Z; prefixlen : Z }.

#[global] Instance cidr_eq_dec : EqDecision cidr.
Proof. solve_decision. Defined.

(** [_ip_int_from_prefix] *)
Definition ip_int_from_prefix (p : Z) : Z :=
  Z.lxor ALL_ONES (Z.shiftr ALL_ONES p).

Definition netmask (n : IPv4Network) : Z := ip_int_from_prefix (prefixlen n).
Definition hostmask (n : IPv4Network) : Z := Z.lxor (netmask n) ALL_ONES.
Definition broadcast_address (n : IPv4Network) : Z :=
  Z.lor (network_address n) (hostmask n).

(** [ipaddress.ip_network(c, strict=False)]: the address and the prefix
    length are range-checked, host bits are cleared. *)
Definition ip_network (c : cidr) : result IPv4Network :=
  if bool_decide (0 ≤ cidr_addr c ≤ ALL_ONES) then
    if bool_decide (0 ≤ cidr_prefix c ≤ max_prefixlen) then
      Ok {| network_address :=
              Z.land (cidr_addr c) (ip_int_from_prefix (cidr_prefix c));
            prefixlen := cidr_prefix c |}
    else Raise ValueError
  else Raise ValueError.

(** [a.supernet_of(b)], i.e. [_is_subnet_of(b, a)] *)
Definition supernet_of (a b : IPv4Network) : bool :=
  (network_address a <=? network_address b)
  && (broadcast_address b <=? broadcast_address a).

(** [self.supernet(new_prefix=np)] ([prefixlen_diff] keeps its default) *)
Definition supernet (self : IPv4Network) (new_prefix : Z)
  : result IPv4Network :=
  if prefixlen self =? 0 then Ok self
  else if prefixlen self <? new_prefix then Raise ValueError
  else
    let prefixlen_diff := prefixlen self - new_prefix in
    let new_prefixlen := prefixlen self - prefixlen_diff in
    if new_prefixlen <? 0 then Raise ValueError
    else Ok {| network_address :=
                 Z.land (network_address self)
                        (Z.shiftl (netmask self) prefixlen_diff);
               prefixlen := new_prefixlen |}.

(** [a == b] on networks: same address and same netmask. *)
Definition network_eqb (a b : IPv4Network) : bool :=
  (network_address a =? network_address b) && (netmask a =? netmask b).

(** A well-formed IPv4 block in CIDR notation. *)
Definition valid (c : cidr) : Prop :=
  0 ≤ cidr_addr c ≤ ALL_ONES ∧ 0 ≤ cidr_prefix c ≤ max_prefixlen.

End Net.

(** ** Network relation utilities *)

Import Net.

(** [can_aggregate(cidr1, cidr2)] *)
Definition can_aggregate (cidr1 cidr2 : cidr) : result bool :=
  network1 ← ip_network cidr1;
  network2 ← ip_network cidr2;
  if supernet_of network1 network2 || supernet_of network2 network1 then
    Ok true
  else
    except_ValueError
      (let smaller_prefix :=
         if prefixlen network2 <? prefixlen network1
         then prefixlen network2 else prefixlen network1 in
       supernet1 ← supernet network1 (smaller_prefix - 1);
       supernet2 ← supernet network2 (smaller_prefix - 1);
       if network_eqb supernet1 supernet2 then Ok true else Ok false)
      (Ok false).

(** ** Binary strings: [bin], [zfill] and the common-prefix loop *)

Local Open Scope char_scope.

(** Digits of a positive number, most significant first, in front of [acc]. *)
Fixpoint bin_pos (p : positive) (acc : list ascii) : list ascii :=
  match p with
  | xH => "1" :: acc
  | xO q => bin_pos q ("0" :: acc)
  | xI q => bin_pos q ("1" :: acc)
  end.

(** [bin(n)[2:]]: for a negative [n] Python prints [-0b...], so the slice
    starts at the letter [b]. *)
Definition bin_tail (n : Z) : list ascii :=
  match n with
  | Z0 => ["0"]
  | Zpos p => bin_pos p []
  | Zneg p => "b" :: bin_pos p []
  end.

(** [s.zfill(width)] for a string without a leading sign. *)
Definition zfill (width : Z) (s : list ascii) : list ascii :=
  replicate (Z.to_nat (width - Z.of_nat (length s))) "0" ++ s.

(** The loop of [get_common_prefix_length] over [zip(bin1, bin2)]: count
    up to the first differing position, then [break]. *)
Fixpoint count_common (bin1 bin2 : list ascii) : Z :=
  match bin1, bin2 with
  | b1 :: r1, b2 :: r2 =>
      if Ascii.eqb b1 b2 then 1 + count_common r1 r2 else 0
  | _, _ => 0
  end.

Definition get_common_prefix_length (net1 net2 : IPv4Network) : Z :=
  let bin1 := zfill max_prefixlen (bin_tail (network_address net1)) in
  let bin2 := zfill max_prefixlen (bin_tail (network_address net2)) in
  count_common bin1 bin2.

(** The [k] low bits of [a] as a string of binary digits, most significant
    first. *)
Definition bit_char (b : bool) : ascii := if b then "1" else "0".

Fixpoint bits_string (k : nat) (a : Z) : list ascii :=
  match k with
  | O => []
  | S k' => bit_char (Z.testbit a (Z.of_nat k')) :: bits_string k' a
  end.

Local Close Scope char_scope.

(** *** The score as the specification words it *)

(** Number of leading bits on which [a] and [b] agree, looking at bit
    [k-1] first and stopping at the first disagreement. *)
Fixpoint leading_bits_agree (k : nat) (a b : Z) : Z :=
  match k with
  | O => 0
  | S k' =>
      if Bool.eqb (Z.testbit a (Z.of_nat k')) (Z.testbit b (Z.of_nat k'))
      then 1 + leading_bits_agree k' a b
      else 0
  end.

(** [commonPrefixLength]: the count of identical leading bits of the two
    32-bit network addresses. *)
Definition commonPrefixLength_spec (x y : IPv4Network) : Z :=
  leading_bits_agree 32 (network_address x) (network_address y).

(** [scoreCompatibility(x, y)] *)
Definition scoreCompatibility_spec (x y : IPv4Network) : Z :=
  2 * commonPrefixLength_spec x y + (32 - Z.abs (prefixlen x - prefixlen y)).

(** ** Preference ranking *)

(** [ranking.sort(key=lambda x: x[1], reverse=True)]: Python's sort is
    stable, also with [reverse=True].  It is modelled by a stable insertion
    sort on the score component, larger scores first. *)
Fixpoint insert_desc {A} (x : A * Z) (l : list (A * Z)) : list (A * Z) :=
  match l with
  | [] => [x]
  | y :: l' => if x.2 <? y.2 then y :: insert_desc x l' else x :: y :: l'
  end.

Fixpoint sort_desc {A} (l : list (A * Z)) : list (A * Z) :=
  match l with
  | [] => []
  | x :: l' => insert_desc x (sort_desc l')
  end.

(** The score computed in the loop body of [rank_ip_blocks_for_as]. *)
Definition total_score_for_as (as_network ip_net : IPv4Network) : Z :=
  let prefix_diff := Z.abs (prefixlen as_network - prefixlen ip_net) in
  let aggregateability_score := 32 - prefix_diff in
  let lcpl := get_common_prefix_length as_network ip_net in
  lcpl * 2 + aggregateability_score.

(** The score computed in the loop body of [rank_as_for_ip_blocks]. *)
Definition total_score_for_ip (ip_net as_network : IPv4Network) : Z :=
  let prefix_diff := Z.abs (prefixlen ip_net - prefixlen as_network) in
  let aggregateability_score := 32 - prefix_diff in
  let lcpl := get_common_prefix_length ip_net as_network in
  lcpl * 2 + aggregateability_score.

(** The [for] loop that fills [ranking] in [rank_ip_blocks_for_as]. *)
Fixpoint ranking_for_as (as_network : IPv4Network) (ip_blocks : list cidr)
  : result (list (cidr * Z)) :=
  match ip_blocks with
  | [] => Ok []
  | ip :: rest =>
      ip_net ← ip_network ip;
      ranking ← ranking_for_as as_network rest;
      Ok ((ip, total_score_for_as as_network ip_net) :: ranking)
  end.

Definition rank_ip_blocks_for_as (as_cidr : cidr) (ip_blocks : list cidr)
  : result (list cidr) :=
  as_network ← ip_network as_cidr;
  ranking ← ranking_for_as as_network ip_blocks;
  Ok ((sort_desc ranking).*1).

(** The [for] loop of [rank_as_for_ip_blocks] over
    [autonomousSystems.items()]; the dictionary is given by its items in
    insertion order. *)
Fixpoint ranking_for_ip {K} (ip_net : IPv4Network)
    (autonomousSystems : list (K * cidr)) : result (list (K * Z)) :=
  match autonomousSystems with
  | [] => Ok []
  | (as_id, as_cidr) :: rest =>
      as_network ← ip_network as_cidr;
      ranking ← ranking_for_ip ip_net rest;
      Ok ((as_id, total_score_for_ip ip_net as_network) :: ranking)
  end.

Definition rank_as_for_ip_blocks {K} (ip_cidr : cidr)
    (autonomousSystems : list (K * cidr)) : result (list K) :=
  ip_net ← ip_network ip_cidr;
  ranking ← ranking_for_ip ip_net autonomousSystems;
  Ok ((sort_desc ranking).*1).


(** *** The ranking as the specification words it *)

(** [ranked] holds exactly the candidates, larger scores first, candidates
    of equal score in the order of the input. *)
Definition stably_ranked {A} (score : A → Z) (candidates ranked : list A)
  : Prop :=
  ranked ≡ₚ candidates
  ∧ StronglySorted (λ x y, score y ≤ score x) ranked
  ∧ ∀ s : Z, filter (λ x, score x = s) ranked
            = filter (λ x, score x = s) candidates.

(** The score of block [c] for the subject [subject], both in CIDR
    notation. *)
Definition score_of (subject c : cidr) : Z :=
  match ip_network subject, ip_network c with
  | Ok subject_net, Ok net => total_score_for_as subject_net net
  | _, _ => 0
  end.

(** ** Stable matching engine *)

(** [l.index(x)]: position of the first occurrence, [ValueError] if absent. *)
Fixpoint list_index `{EqDecision X} (x : X) (l : list X) : result nat :=
  match l with
  | [] => Raise ValueError
  | y :: l' => if decide (y = x) then Ok 0%nat
               else i ← list_index x l'; Ok (S i)
  end.

(** A dictionary given as a literal or built by a comprehension is the list
    of its items in insertion order, with distinct keys.  [d[k]] raises
    [KeyError] on a missing key. *)
Fixpoint dict_get `{EqDecision K} {V} (d : list (K * V)) (k : K) : result V :=
  match d with
  | [] => Raise KeyError
  | (k', v) :: d' => if decide (k' = k) then Ok v else dict_get d' k
  end.

(** [m[k]] on a dictionary built during the run. *)
Definition map_get `{Countable K} {V} (m : gmap K V) (k : K) : result V :=
  match m !! k with
  | Some v => Ok v
  | None => Raise KeyError
  end.

Section engine.
Context `{Countable AS, Countable IP}.

(** The three variables of [gale_shapley]. *)
Record state : Type := State {
  free_as : list AS;
  engagements : gmap AS IP;
  proposals : gmap IP (option AS);
}.

Variable as_prefs : list (AS * list IP).
Variable ip_prefs : list (IP * list AS).

(** [proposals = {ip: None for ip in ip_prefs}] *)
Definition initial_proposals : gmap IP (option AS) :=
  list_to_map ((λ ip, (ip, None)) <$> ip_prefs.*1).

Definition initial_state : state :=
  {| free_as := as_prefs.*1;
     engagements := ∅;
     proposals := initial_proposals |}.

(** The body of [for ip in as_prefs[as_id]], run over the remaining
    blocks [l] of the list.  [tried] is not a program variable: it
    records the blocks proposed to so far in this turn, in order. *)
Fixpoint propose (as_id : AS) (l : list IP) (st : state) (tried : list IP)
  : result (state * list IP) :=
  match l with
  | [] => Ok (st, tried)
  | ip :: l' =>
      let tried := tried ++ [ip] in
      holder ← map_get (proposals st) ip;
      match holder with
      | None =>
          Ok ({| free_as := free_as st;
                 engagements := <[as_id := ip]> (engagements st);
                 proposals := <[ip := Some as_id]> (proposals st) |},
              tried)
      | Some current_as =>
          ranks ← dict_get ip_prefs ip;
          i ← list_index as_id ranks;
          j ← list_index current_as ranks;
          if (i <? j)%nat then
            let engagements' := <[as_id := ip]> (engagements st) in
            Ok ({| free_as := free_as st ++ [current_as];
                   engagements :=
                     if decide (is_Some (engagements' !! current_as))
                     then delete current_as engagements'
                     else engagements';
                   proposals := <[ip := Some as_id]> (proposals st) |},
                tried)
          else propose as_id l' st tried
      end
  end.

(** One turn per requester taken from the queue, with the blocks it
    proposed to in that turn. *)
Definition history : Type := list (AS * list IP).

(** One iteration of [while free_as]: [pop(0)], then the [for] loop. *)
Definition turn (as_id : AS) (rest : list AS) (st : state)
  : result (state * list IP) :=
  prefs ← dict_get as_prefs as_id;
  propose as_id prefs
    {| free_as := rest;
       engagements := engagements st;
       proposals := proposals st |} [].

(** The [while] loop, with a bound on the number of iterations.  [None]
    means that the bound was reached with the queue not yet empty. *)
Fixpoint run (fuel : nat) (st : state) (h : history)
  : option (result (state * history)) :=
  match free_as st with
  | [] => Some (Ok (st, h))
  | as_id :: rest =>
      match fuel with
      | O => None
      | S fuel' =>
          match turn as_id rest st with
          | Ok (st', tried) => run fuel' st' (h ++ [(as_id, tried)])
          | Raise e => Some (Raise e)
          end
      end
  end.

(** The run of [gale_shapley] with its final state and its history. *)
Definition gale_shapley_run (fuel : nat)
  : option (result (state * history)) :=
  run fuel initial_state [].

(** [gale_shapley(as_prefs, ip_prefs)] returns [engagements]. *)
Definition gale_shapley (fuel : nat) : option (result (gmap AS IP)) :=
  match gale_shapley_run fuel with
  | Some (Ok (st, _)) => Some (Ok (engagements st))
  | Some (Raise e) => Some (Raise e)
  | None => None
  end.

(** All proposal attempts of a run, in order. *)
Definition attempts (h : history) : list (AS * IP) :=
  h ≫= (λ '(as_id, tried), (λ ip, (as_id, ip)) <$> tried).

(** A number of iterations of the [while] loop that always suffices. *)
Definition enough_fuel : nat :=
  (length as_prefs * S (length ip_prefs))%nat.

(** *** Preference maps and matchings *)

(** Both maps are dictionaries (distinct keys), every requester lists
    every block exactly once and every block lists every requester
    exactly once. *)
Definition well_formed : Prop :=
  NoDup as_prefs.*1 ∧ NoDup ip_prefs.*1
  ∧ Forall (λ e, e.2 ≡ₚ ip_prefs.*1) as_prefs
  ∧ Forall (λ e, e.2 ≡ₚ as_prefs.*1) ip_prefs.

(** [x] comes strictly before [y] in the preference list [l]. *)
Definition prefers {X} `{EqDecision X} (l : list X) (x y : X) : Prop :=
  ∃ i j, list_index x l = Ok i ∧ list_index y l = Ok j ∧ (i < j)%nat.

(** A matching pairs requesters of [as_prefs] with blocks of [ip_prefs],
    no block being given to two requesters. *)
Definition matching (M : gmap AS IP) : Prop :=
  (∀ r b, M !! r = Some b → r ∈ as_prefs.*1 ∧ b ∈ ip_prefs.*1)
  ∧ (∀ r1 r2 b, M !! r1 = Some b → M !! r2 = Some b → r1 = r2).

(** [r] would rather have [b] than what [M] gives it. *)
Definition requester_wants (M : gmap AS IP) (r : AS) (b : IP) : Prop :=
  ∃ l, dict_get as_prefs r = Ok l ∧
    match M !! r with
    | None => b ∈ l
    | Some b' => prefers l b b'
    end.

(** [b] would rather have [r] than the requester [M] gives it to. *)
Definition block_wants (M : gmap AS IP) (r : AS) (b : IP) : Prop :=
  ∃ l, dict_get ip_prefs b = Ok l ∧
    ((r ∈ l ∧ ∀ r', M !! r' ≠ Some b)
     ∨ (∃ r', M !! r' = Some b ∧ prefers l r r')).

Definition blocking_pair (M : gmap AS IP) (r : AS) (b : IP) : Prop :=
  M !! r ≠ Some b ∧ requester_wants M r b ∧ block_wants M r b.

Definition stable (M : gmap AS IP) : Prop :=
  ∀ r b, ¬ blocking_pair M r b.

(** *** What a turn does and what the loop maintains *)

(** Block [b] holds a requester that it ranks before [r]. *)
Definition rejects (st : state) (r : AS) (b : IP) : Prop :=
  ∃ h lb, proposals st !! b = Some (Some h)
    ∧ dict_get ip_prefs b = Ok lb ∧ prefers lb h r.

(** The state after block [b], held by [o] until then, has accepted [r]. *)
Definition accepted (st : state) (r : AS) (b : IP) (o : option AS) : state :=
  {| free_as := free_as st ++ option_list o;
     engagements :=
       match o with
       | Some c => delete c (<[r := b]> (engagements st))
       | None => <[r := b]> (engagements st)
       end;
     proposals := <[b := Some r]> (proposals st) |}.

(** The two ways a turn of [r] over its list [l] can end: every block
    rejected it, or the blocks before [b] rejected it and [b], free or
    holding a requester it ranks after [r], accepted it. *)
Inductive turn_outcome (st : state) (r : AS) (l : list IP)
  : state → list IP → Prop :=
  | turn_exhausted :
      Forall (rejects st r) l → turn_outcome st r l st l
  | turn_accepted l1 b l2 o :
      l = l1 ++ b :: l2 →
      Forall (rejects st r) l1 →
      proposals st !! b = Some o →
      (∀ c, o = Some c →
         ∃ lb, dict_get ip_prefs b = Ok lb ∧ prefers lb r c) →
      turn_outcome st r l (accepted st r b o) (l1 ++ [b]).

(** Position of the holder of [b] in the list of [b]; the number of
    requesters while [b] is free. *)
Definition block_cost (st : state) (b : IP) : nat :=
  match proposals st !! b with
  | Some (Some h) =>
      match dict_get ip_prefs b with
      | Ok lb =>
          match list_index h lb with
          | Ok i => i
          | Raise _ => length as_prefs
          end
      | Raise _ => length as_prefs
      end
  | _ => length as_prefs
  end.

(** The quantity that every turn decreases. *)
Definition potential (st : state) : nat :=
  (length (free_as st) + sum_list (block_cost st <$> ip_prefs.*1))%nat.

Record invariant (st : state) : Prop := Invariant {
  inv_proposals_dom :
    ∀ b, b ∈ ip_prefs.*1 → is_Some (proposals st !! b);
  inv_inverse :
    ∀ r b, proposals st !! b = Some (Some r) ↔ engagements st !! r = Some b;
  inv_engaged :
    ∀ r b, engagements st !! r = Some b → r ∈ as_prefs.*1 ∧ b ∈ ip_prefs.*1;
  inv_free_nodup : NoDup (free_as st);
  inv_free :
    ∀ r, r ∈ free_as st → r ∈ as_prefs.*1 ∧ engagements st !! r = None;
  inv_settled :
    ∀ r b, r ∈ as_prefs.*1 → r ∉ free_as st →
      requester_wants (engagements st) r b → rejects st r b;
  inv_unreachable :
    ∀ M r b, matching M → stable M → rejects st r b → M !! r ≠ Some b;
}.

(** The history of a run: every turn tried a beginning of the requester's
    list, without repetition. *)
Definition turns_scan_from_top (h : history) : Prop :=
  ∀ r tried, (r, tried) ∈ h →
    ∃ l, dict_get as_prefs r = Ok l ∧ tried `prefix_of` l ∧ NoDup tried.

End engine.

(** ** Further definitions *)

(** A network as [ip_network] builds it: a prefix length between 0 and 32
    and an address below [2 ^ 32] whose host bits are clear. *)
Definition network_ok (n : IPv4Network) : Prop :=
  0 ≤ prefixlen n ≤ 32
  ∧ 0 ≤ network_address n ≤ ALL_ONES
  ∧ network_address n
    = network_address n / 2 ^ (32 - prefixlen n) * 2 ^ (32 - prefixlen n).

(** ** The turns of a run *)

Section turns.
Context `{Countable AS, Countable IP}.
Variable as_prefs : list (AS * list IP).
Variable ip_prefs : list (IP * list AS).

(** The turns of a run from one state to another, with the blocks tried
    in each: the requester at the head of the queue is taken off it, goes
    down its whole list from the top, and stops at the first block that
    accepts it or at the end of the list. *)
Inductive turns_from
  : @state AS _ _ IP _ _ → list (AS * list IP) → @state AS _ _ IP _ _ → Prop :=
  | turns_from_nil st : turns_from st [] st
  | turns_from_cons st r rest l st' tried h st'' :
      free_as st = r :: rest →
      dict_get as_prefs r = Ok l →
      turn_outcome ip_prefs
        {| free_as := rest; engagements := engagements st;
           proposals := proposals st |} r l st' tried →
      turns_from st' h st'' →
      turns_from st ((r, tried) :: h) st''.

End turns.

(** ** The engine on arbitrary dictionaries *)

Section engine_any_input.
Context `{Countable AS, Countable IP}.
Variable as_prefs : list (AS * list IP).
Variable ip_prefs : list (IP * list AS).

(** What block [b] can still cost: one more than the length of its list
    while it is free, then the position of its holder in that list. *)
Definition holder_cost (st : @state AS _ _ IP _ _) (b : IP) : nat :=
  match proposals st !! b with
  | None => 0
  | Some None =>
      match dict_get ip_prefs b with
      | Ok lb => S (length lb)
      | Raise _ => 1
      end
  | Some (Some h) =>
      match dict_get ip_prefs b with
      | Ok lb =>
          match list_index h lb with
          | Ok i => i
          | Raise _ => length lb
          end
      | Raise _ => 0
      end
  end.

Definition work_left (st : @state AS _ _ IP _ _) : nat :=
  (length (free_as st) + sum_list (holder_cost st <$> ip_prefs.*1))%nat.

(** A number of iterations of the [while] loop that suffices for any two
    dictionaries: the requesters, plus for every block one more than the
    length of its list. *)
Definition fuel_for_any_input : nat := work_left (initial_state as_prefs ip_prefs).

(** Every pair of the engagements is a requester with a block of its own
    list, and the block is a key of [ip_prefs]. *)
Definition pairs_from_lists (M : gmap AS IP) : Prop :=
  ∀ r b, M !! r = Some b →
    (∃ l, dict_get as_prefs r = Ok l ∧ b ∈ l) ∧ b ∈ ip_prefs.*1.

End engine_any_input.

(** Every key of [proposals] is a key of [ip_prefs]. *)
Definition proposals_keyed `{Countable AS, Countable IP}
    (ip_prefs : list (IP * list AS)) (st : @state AS _ _ IP _ _) : Prop :=
  ∀ b, is_Some (proposals st !! b) → b ∈ ip_prefs.*1.

(** ** Counting aggregations and the allocation script *)

#[global] Instance cidr_countable : Countable cidr.
Proof.
  apply (inj_countable' (λ c, (cidr_addr c, cidr_prefix c))
           (λ p, Cidr p.1 p.2)).
  by intros [].
Defined.

(** The loop of [count_aggregations] over [matchings.items()], the
    dictionary [matchings] being given by its items. *)
Fixpoint count_loop `{EqDecision K} (autonomousSystems : list (K * cidr))
    (items : list (K * cidr)) (aggregations : Z) : result Z :=
  match items with
  | [] => Ok aggregations
  | (as_id, ip) :: rest =>
      as_cidr ← dict_get autonomousSystems as_id;
      aggregates ← can_aggregate as_cidr ip;
      count_loop autonomousSystems rest
        (if aggregates : bool then aggregations + 1 else aggregations)
  end.

Definition count_aggregations `{EqDecision K} (matchings : list (K * cidr))
    (autonomousSystems : list (K * cidr)) : result Z :=
  count_loop autonomousSystems matchings 0.

(** [d[k] = v]: a key already present keeps its place. *)
Fixpoint dict_set `{EqDecision K} {V} (d : list (K * V)) (k : K) (v : V)
  : list (K * V) :=
  match d with
  | [] => [(k, v)]
  | (k', v') :: d' =>
      if decide (k' = k) then (k', v) :: d' else (k', v') :: dict_set d' k v
  end.

(** [{as_id: rank_ip_blocks_for_as(as_block, ipBlocks)
      for as_id, as_block in autonomousSystems.items()}],
    continued from the dictionary [d] built so far. *)
Fixpoint as_preferences_from `{EqDecision K} (ipBlocks : list cidr)
    (items : list (K * cidr)) (d : list (K * list cidr))
  : result (list (K * list cidr)) :=
  match items with
  | [] => Ok d
  | (as_id, as_block) :: rest =>
      ranked ← rank_ip_blocks_for_as as_block ipBlocks;
      as_preferences_from ipBlocks rest (dict_set d as_id ranked)
  end.

(** [{ip: rank_as_for_ip_blocks(ip, autonomousSystems) for ip in ipBlocks}],
    continued from the dictionary [d] built so far. *)
Fixpoint ip_preferences_from {K} (autonomousSystems : list (K * cidr))
    (blocks : list cidr) (d : list (cidr * list K))
  : result (list (cidr * list K)) :=
  match blocks with
  | [] => Ok d
  | ip :: rest =>
      ranked ← rank_as_for_ip_blocks ip autonomousSystems;
      ip_preferences_from autonomousSystems rest (dict_set d ip ranked)
  end.

(** One round of the script, from given requesters and blocks to the
    matching: the two dictionary comprehensions, then [gale_shapley]. *)
Definition allocate `{Countable K} (autonomousSystems : list (K * cidr))
    (ipBlocks : list cidr) (fuel : nat) : option (result (gmap K cidr)) :=
  match as_preferences_from ipBlocks autonomousSystems [] with
  | Raise e => Some (Raise e)
  | Ok as_prefs =>
      match ip_preferences_from autonomousSystems ipBlocks [] with
      | Raise e => Some (Raise e)
      | Ok ip_prefs => gale_shapley as_prefs ip_prefs fuel
      end
  end.

(** [dict(zip(as_ids, ips))] *)
Fixpoint dict_of_pairs `{EqDecision K} {V} (pairs : list (K * V))
    (d : list (K * V)) : list (K * V) :=
  match pairs with
  | [] => d
  | (k, v) :: rest => dict_of_pairs rest (dict_set d k v)
  end.

(** [random_match_and_count_aggregations(autonomousSystems, ipBlocks)].
    [random.shuffle(ips)] reorders the copy of [ipBlocks] in place; its
    outcome is the argument [shuffled]. *)
Definition random_match_and_count_aggregations `{EqDecision K}
    (autonomousSystems : list (K * cidr)) (shuffled : list cidr)
  : result (list (K * cidr) * Z) :=
  let as_ids := autonomousSystems.*1 in
  let random_matchings := dict_of_pairs (zip as_ids shuffled) [] in
  aggregations ← count_loop autonomousSystems random_matchings 0;
  Ok (random_matchings, aggregations).

(** The requester and the block of a pair can be aggregated. *)
Definition aggregating `{EqDecision K} (autonomousSystems : list (K * cidr))
    (e : K * cidr) : Prop :=
  ∃ as_cidr, dict_get autonomousSystems e.1 = Ok as_cidr
    ∧ can_aggregate as_cidr e.2 = Ok true.

(** The requester of a pair is a key of [autonomousSystems] and both
    blocks are well formed. *)
Definition known_pair `{EqDecision K} (autonomousSystems : list (K * cidr))
    (e : K * cidr) : Prop :=
  ∃ as_cidr, dict_get autonomousSystems e.1 = Ok as_cidr
    ∧ valid as_cidr ∧ valid e.2.

#[global] Instance aggregating_dec `{EqDecision K}
    (autonomousSystems : list (K * cidr)) (e : K * cidr) :
  Decision (aggregating autonomousSystems e).
Proof.
  unfold aggregating.
  destruct (dict_get autonomousSystems e.1) as [c|x] eqn:Hc.
  - destruct (can_aggregate c e.2) as [[]|x] eqn:Hv.
    + left. by exists c.
    + right. intros (c' & [= <-] & ?). congruence.
    + right. intros (c' & [= <-] & ?). congruence.
  - right. by intros (c' & ? & _).
Defined.

(** ** Repeated entries in a preference list *)

(** The entries of [l] that are not in [seen] and have not occurred
    earlier in [l]. *)
Fixpoint first_occurrences `{EqDecision X} (seen l : list X) : list X :=
  match l with
  | [] => []
  | x :: l' =>
      if decide (x ∈ seen) then first_occurrences seen l'
      else x :: first_occurrences (x :: seen) l'
  end.

(** Every list of the dictionary without its repeated entries. *)
Definition drop_repeats `{EqDecision X} {K} (prefs : list (K * list X))
  : list (K * list X) :=
  (λ e, (e.1, first_occurrences [] e.2)) <$> prefs.

(** Two results of a turn, or of a run, that differ at most in the record
    of the blocks tried. *)
Definition same_state {S T} (x y : result (S * T)) : Prop :=
  match x, y with
  | Ok (s, _), Ok (s', _) => s = s'
  | Raise e, Raise e' => e = e'
  | _, _ => False
  end.

(** Block [b] sends requester [r] on to the next block of its list: what
    the body of the [for] loop does with [b] in state [st]. *)
Definition skipped `{Countable AS, Countable IP}
    (ip_prefs : list (IP * list AS)) (st : @state AS _ _ IP _ _)
    (r : AS) (b : IP) : Prop :=
  ∀ l t, propose ip_prefs r (b :: l) st t = propose ip_prefs r l st (t ++ [b]).

(** ** Example inputs *)

(** The blocks of the ranking scenario, from dotted notation. *)
Definition dotted (a b c d p : Z) : cidr :=
  Cidr (a * 2 ^ 24 + b * 2 ^ 16 + c * 2 ^ 8 + d) p.

Definition home_block : cidr := dotted 10 0 0 0 24.
Definition supernet_block : cidr := dotted 10 0 0 0 23.
Definition sibling_block : cidr := dotted 10 0 1 0 24.
Definition far_block : cidr := dotted 192 168 0 0 24.

Definition scenario_systems : list (string * cidr) :=
  [("AS1", far_block); ("AS2", home_block); ("AS3", sibling_block)].

(** Two requesters and one block that prefers the second of them. *)
Definition two_for_one_as : list (string * list string) :=
  [("r1", ["b1"]); ("r2", ["b1"])].
Definition two_for_one_ip : list (string * list string) :=
  [("b1", ["r2"; "r1"])].

(** Three requesters and two blocks. *)
Definition three_two_as : list (string * list string) :=
  [("r1", ["b1"; "b2"]); ("r2", ["b1"; "b2"]); ("r3", ["b2"; "b1"])].
Definition three_two_ip : list (string * list string) :=
  [("b1", ["r2"; "r1"; "r3"]); ("b2", ["r1"; "r3"; "r2"])].

(** A matching of two of the systems of the scenario. *)
Definition scenario_matching : list (string * cidr) :=
  [("AS2", sibling_block); ("AS1", far_block)].

Definition scenario_blocks : list cidr :=
  [far_block; sibling_block; supernet_block].

(** Preference maps that are not well formed: the block does not list the
    second requester. *)
Definition ragged_as : list (string * list string) :=
  [("r1", ["b1"]); ("r2", ["b1"])].
Definition ragged_ip : list (string * list string) :=
  [("b1", ["r1"])].

(** Blocks of the scenario with one of them listed twice. *)
Definition repeated_blocks : list cidr :=
  [supernet_block; far_block; supernet_block].

(** ** Random test data *)

(** [ipaddress.ip_network(c)] with [strict] left at its default: an
    address with host bits set is refused. *)
Definition ip_network_strict (c : cidr) : result IPv4Network :=
  if bool_decide (0 ≤ cidr_addr c ≤ ALL_ONES) then
    if bool_decide (0 ≤ cidr_prefix c ≤ max_prefixlen) then
      if Z.land (cidr_addr c) (ip_int_from_prefix (cidr_prefix c))
         =? cidr_addr c
      then Ok {| network_address := cidr_addr c;
                 prefixlen := cidr_prefix c |}
      else Raise ValueError
    else Raise ValueError
  else Raise ValueError.

(** [list(net.hosts())]: the addresses strictly between the network
    address and the broadcast address; both of them for a /31, the single
    address for a /32. *)
Definition hosts (net : IPv4Network) : list Z :=
  if prefixlen net =? max_prefixlen - 1 then
    seqZ (network_address net)
      (broadcast_address net + 1 - network_address net)
  else if prefixlen net =? max_prefixlen then [network_address net]
  else
    seqZ (network_address net + 1)
      (broadcast_address net - (network_address net + 1)).

(** The exceptions of the generator: those of [ipaddress], and the
    [IndexError] of [random.choice] on an empty sequence. *)
Inductive gen_exn := Lib (e : exn) | IndexError.

(** A computation that draws random numbers.  The numbers that the
    generator [random] yields are given as a sequence; the state is the
    count of the numbers drawn so far. *)
Definition rand (A : Type) : Type := (nat → nat) → nat → gen_exn + A * nat.

#[global] Instance rand_ret : MRet rand := λ A a draws k, inr (a, k).
#[global] Instance rand_bind : MBind rand := λ A B f m draws k,
  match m draws k with
  | inl e => inl e
  | inr (a, k') => f a draws k'
  end.

Definition lift {A} (m : result A) : rand A := λ draws k,
  match m with
  | Ok a => inr (a, k)
  | Raise e => inl (Lib e)
  end.

Module random.

(** [random.choice(seq)]: [seq[self._randbelow(len(seq))]], the number
    below [len(seq)] being the next draw reduced modulo [len(seq)]. *)
Definition choice {X} (seq : list X) : rand X := λ draws k,
  match seq !! (draws k mod length seq)%nat with
  | Some x => inr (x, S k)
  | None => inl IndexError
  end.

End random.

(** [random_ip(network)]; the address stands for its text. *)
Definition random_ip (network : cidr) : rand Z :=
  net ← lift (ip_network_strict network);
  random.choice (hosts net).

(** [random_cidr(base_ip)] *)
Definition random_cidr (base_ip : Z) : rand cidr :=
  prefix ← random.choice (seqZ 22 (30 - 22));
  mret (Cidr base_ip prefix).

Definition base_networks : list cidr :=
  [dotted 10 0 0 0 16; dotted 172 16 0 0 12; dotted 192 168 0 0 16;
   dotted 198 51 100 0 24].

(** The first loop of [generate_as_ip_blocks], over the remaining values
    of [i]. *)
Fixpoint systems_loop (indices : list Z)
    (autonomousSystems : list (string * cidr))
  : rand (list (string * cidr)) :=
  match indices with
  | [] => mret autonomousSystems
  | i :: rest =>
      base_net ← random.choice base_networks;
      base_ip ← random_ip base_net;
      cidr ← random_cidr base_ip;
      systems_loop rest (dict_set autonomousSystems ("AS" +:+ pretty i) cidr)
  end.

(** The second loop. *)
Fixpoint blocks_loop (indices : list Z) (ipBlocks : list cidr)
  : rand (list cidr) :=
  match indices with
  | [] => mret ipBlocks
  | _ :: rest =>
      base_net ← random.choice base_networks;
      base_ip ← random_ip base_net;
      cidr ← random_cidr base_ip;
      blocks_loop rest (ipBlocks ++ [cidr])
  end.

Definition generate_as_ip_blocks (num_as num_blocks : Z)
  : rand (list (string * cidr) * list cidr) :=
  autonomousSystems ← systems_loop (seqZ 1 (num_as + 1 - 1)) [];
  ipBlocks ← blocks_loop (seqZ 0 num_blocks) [];
  mret (autonomousSystems, ipBlocks).

(** A block as the generator makes it: a host address of one of the base
    networks with a prefix length from 22 to 29. *)
Definition generated (c : cidr) : Prop :=
  22 ≤ cidr_prefix c ≤ 29
  ∧ ∃ base net, base ∈ base_networks ∧ ip_network_strict base = Ok net
      ∧ network_address net < cidr_addr c < broadcast_address net.

(** * Properties *)

(** ** Network relation utilities *)

Section network_facts.

Lemma ip_network_valid c :
  valid c →
  ip_network c =
    Ok {| network_address :=
            Z.land (cidr_addr c) (ip_int_from_prefix (cidr_prefix c));
          prefixlen := cidr_prefix c |}.
Proof.
  intros [Ha Hp]. unfold ip_network.
  rewrite !bool_decide_eq_true_2; done.
Qed.

Lemma ip_network_raises c e : ip_network c = Raise e → e = ValueError.
Proof.
  unfold ip_network. repeat case_bool_decide; congruence.
Qed.

Lemma supernet_raises n k e : supernet n k = Raise e → e = ValueError.
Proof.
  unfold supernet. repeat case_match; congruence.
Qed.

Lemma supernet_of_refl n : supernet_of n n = true.
Proof.
  unfold supernet_of. rewrite !Z.leb_refl. done.
Qed.

Lemma network_eqb_sym a b : network_eqb a b = network_eqb b a.
Proof.
  unfold network_eqb.
  by rewrite (Z.eqb_sym (network_address a)), (Z.eqb_sym (netmask a)).
Qed.

Lemma smaller_prefix_sym (p q : Z) :
  (if q <? p then q else p) = (if p <? q then p else q).
Proof. repeat case_match; lia. Qed.

(** The [try] block of [can_aggregate] does not depend on the order of
    its two networks. *)
Lemma try_block_sym n1 n2 k :
  (supernet1 ← supernet n1 k; supernet2 ← supernet n2 k;
   if network_eqb supernet1 supernet2 then Ok true else Ok false)
  = (supernet1 ← supernet n2 k; supernet2 ← supernet n1 k;
     if network_eqb supernet1 supernet2 then Ok true else Ok false).
Proof.
  destruct (supernet n1 k) as [s1|e1] eqn:E1,
           (supernet n2 k) as [s2|e2] eqn:E2; simpl; try done.
  - by rewrite network_eqb_sym.
  - apply supernet_raises in E1, E2. congruence.
Qed.

Lemma can_aggregate_sym A B : can_aggregate A B = can_aggregate B A.
Proof.
  unfold can_aggregate.
  destruct (ip_network A) as [n1|e1] eqn:E1,
           (ip_network B) as [n2|e2] eqn:E2; simpl; try done.
  - rewrite (orb_comm (supernet_of n2 n1)).
    rewrite (smaller_prefix_sym (prefixlen n2) (prefixlen n1)).
    by rewrite try_block_sym.
  - apply ip_network_raises in E1, E2. congruence.
Qed.

Lemma try_block_returns n1 n2 k :
  ∃ v : bool,
    except_ValueError
      (supernet1 ← supernet n1 k; supernet2 ← supernet n2 k;
       if network_eqb supernet1 supernet2 then Ok true else Ok false)
      (Ok false) = Ok v.
Proof.
  destruct (supernet n1 k) as [s1|e1] eqn:E1; simpl.
  - destruct (supernet n2 k) as [s2|e2] eqn:E2; simpl.
    + destruct (network_eqb s1 s2); by eexists.
    + apply supernet_raises in E2 as ->. by exists false.
  - apply supernet_raises in E1 as ->. by exists false.
Qed.

(** On well-formed blocks [can_aggregate] returns a boolean. *)
Lemma can_aggregate_returns A B :
  valid A → valid B → ∃ v : bool, can_aggregate A B = Ok v.
Proof.
  intros HA HB. unfold can_aggregate.
  rewrite (ip_network_valid A), (ip_network_valid B) by done. simpl.
  destruct (orb _ _); [by exists true|].
  apply try_block_returns.
Qed.

End network_facts.

(** C8. Aggregation symmetry: on any two well-formed blocks,
    [can_aggregate(A, B)] and [can_aggregate(B, A)] return the same
    boolean. *)
Theorem can_aggregate_symmetric (A B : cidr) :
  valid A → valid B →
  ∃ v : bool, can_aggregate A B = Ok v ∧ can_aggregate B A = Ok v.
Proof.
  intros HA HB. destruct (can_aggregate_returns A B HA HB) as [v Hv].
  exists v. split; [done|]. by rewrite can_aggregate_sym.
Qed.

(** C10. Reflexivity: a well-formed block aggregates with itself, being
    a supernet of itself. *)
Theorem can_aggregate_reflexive (A : cidr) :
  valid A → can_aggregate A A = Ok true.
Proof.
  intros HA. unfold can_aggregate.
  rewrite (ip_network_valid A) by done. simpl.
  by rewrite supernet_of_refl.
Qed.

(** ** Binary strings and the compatibility score *)

Section binary_strings.

Lemma length_bits_string k a : length (bits_string k a) = k.
Proof. induction k; simpl; congruence. Qed.

Lemma bits_string_snoc k a (b : bool) :
  bits_string (S k) (2 * a + Z.b2z b) = bits_string k a ++ [bit_char b].
Proof.
  induction k as [|k IH].
  - cbn [bits_string app]. change (Z.of_nat 0) with 0.
    by rewrite Z.testbit_0_r.
  - change (bits_string (S (S k)) (2 * a + Z.b2z b))
      with (bit_char (Z.testbit (2 * a + Z.b2z b) (Z.of_nat (S k)))
              :: bits_string (S k) (2 * a + Z.b2z b)).
    rewrite IH, Nat2Z.inj_succ, Z.testbit_succ_r by lia. done.
Qed.

Lemma bin_pos_bits p acc :
  bin_pos p acc = bits_string (Pos.size_nat p) (Z.pos p) ++ acc.
Proof.
  revert acc. induction p as [p IH|p IH|]; intros acc; simpl bin_pos.
  - rewrite IH. change (Z.pos p~1) with (2 * Z.pos p + Z.b2z true).
    simpl Pos.size_nat. rewrite bits_string_snoc, <- app_assoc. done.
  - rewrite IH. change (Z.pos p~0) with (2 * Z.pos p + Z.b2z false).
    simpl Pos.size_nat. rewrite bits_string_snoc, <- app_assoc. done.
  - done.
Qed.

Lemma size_nat_bounds p :
  Z.pos p < 2 ^ Z.of_nat (Pos.size_nat p)
  ∧ 2 ^ Z.of_nat (Pos.size_nat p) ≤ 2 * Z.pos p.
Proof.
  induction p as [p IH|p IH|]; simpl Pos.size_nat;
    rewrite ?Nat2Z.inj_succ, ?Z.pow_succ_r by lia; lia.
Qed.

Lemma testbit_high a (n k : nat) :
  0 ≤ a < 2 ^ Z.of_nat n → (n ≤ k)%nat → Z.testbit a (Z.of_nat k) = false.
Proof.
  intros [Ha Hlt] Hk. destruct (decide (a = 0)) as [->|Hne].
  - apply Z.bits_0.
  - apply Z.bits_above_log2; [done|].
    assert (Z.log2 a < Z.of_nat n) by (apply Z.log2_lt_pow2; lia). lia.
Qed.

Lemma bits_string_pad (k n : nat) a :
  0 ≤ a < 2 ^ Z.of_nat n → (n ≤ k)%nat →
  bits_string k a = replicate (k - n) "0"%char ++ bits_string n a.
Proof.
  intros Ha. induction k as [|k IH]; intros Hk.
  - by replace n with 0%nat by lia.
  - destruct (decide (n = S k)) as [->|Hne].
    + by rewrite Nat.sub_diag.
    + replace (S k - n)%nat with (S (k - n)) by lia. simpl.
      rewrite (testbit_high a n k), IH by (done || lia). done.
Qed.

Lemma zfill_bin_tail a :
  0 ≤ a ≤ ALL_ONES →
  zfill max_prefixlen (bin_tail a) = bits_string 32 a.
Proof.
  intros [Ha Hb]. unfold ALL_ONES in Hb. destruct a as [|p|p]; [done| |lia].
  unfold zfill, bin_tail, max_prefixlen.
  rewrite bin_pos_bits, app_nil_r, length_bits_string.
  destruct (size_nat_bounds p) as [Hlt Hle].
  assert (Z.of_nat (Pos.size_nat p) < 33).
  { apply (Z.pow_lt_mono_r_iff 2); lia. }
  rewrite (bits_string_pad 32 (Pos.size_nat p)) by lia.
  f_equal. f_equal. lia.
Qed.

Lemma count_common_bits k a b :
  count_common (bits_string k a) (bits_string k b)
  = leading_bits_agree k a b.
Proof.
  induction k as [|k IH]; [done|]. simpl. rewrite IH.
  by destruct (Z.testbit a (Z.of_nat k)), (Z.testbit b (Z.of_nat k)).
Qed.

Lemma leading_bits_agree_sym k a b :
  leading_bits_agree k a b = leading_bits_agree k b a.
Proof.
  induction k as [|k IH]; [done|]. simpl. rewrite IH.
  by destruct (Z.testbit a (Z.of_nat k)), (Z.testbit b (Z.of_nat k)).
Qed.

(** [leading_bits_agree k a b] is the length of the longest run of equal
    bits that starts at bit [k-1] and goes down. *)
Lemma leading_bits_agree_longest k a b :
  let c := leading_bits_agree k a b in
  0 ≤ c ≤ Z.of_nat k
  ∧ (∀ i, Z.of_nat k - c ≤ i < Z.of_nat k → Z.testbit a i = Z.testbit b i)
  ∧ (c < Z.of_nat k →
     Z.testbit a (Z.of_nat k - 1 - c) ≠ Z.testbit b (Z.of_nat k - 1 - c)).
Proof.
  induction k as [|k (Hrange & Heq & Hne)]; simpl.
  - split; [lia|]. split; intros; lia.
  - destruct (Bool.eqb _ _) eqn:Hk.
    + apply Bool.eqb_prop in Hk. split; [lia|]. split.
      * intros i Hi. destruct (decide (i = Z.of_nat k)) as [->|]; [done|].
        apply Heq. lia.
      * intros Hlt.
        replace (Z.of_nat (S k) - 1 - (1 + leading_bits_agree k a b))
          with (Z.of_nat k - 1 - leading_bits_agree k a b) by lia.
        apply Hne. lia.
    + apply Bool.eqb_false_iff in Hk. split; [lia|]. split; [intros; lia|].
      intros _. by replace (Z.of_nat (S k) - 1 - 0) with (Z.of_nat k) by lia.
Qed.

Lemma land_range a m : 0 ≤ a ≤ ALL_ONES → 0 ≤ Z.land a m ≤ ALL_ONES.
Proof.
  intros [Ha Hb]. assert (0 ≤ Z.land a m) by (apply Z.land_nonneg; lia).
  split; [done|]. unfold ALL_ONES in *.
  assert (Z.land a m = Z.land (Z.land a m) (Z.ones 32)) as ->.
  { rewrite <- Z.land_assoc, (Z.land_comm m), Z.land_assoc.
    rewrite (Z.land_ones a 32), Z.mod_small by lia. done. }
  rewrite Z.land_ones by lia.
  pose proof (Z.mod_pos_bound (Z.land a m) (2 ^ 32)). lia.
Qed.

Lemma network_address_range c n :
  ip_network c = Ok n → 0 ≤ network_address n ≤ ALL_ONES.
Proof.
  unfold ip_network. repeat case_bool_decide; intros [= <-]; simpl.
  by apply land_range.
Qed.

(** The string loop computes the count of equal leading bits. *)
Lemma get_common_prefix_length_spec x y :
  0 ≤ network_address x ≤ ALL_ONES →
  0 ≤ network_address y ≤ ALL_ONES →
  get_common_prefix_length x y = commonPrefixLength_spec x y.
Proof.
  intros Hx Hy. unfold get_common_prefix_length, commonPrefixLength_spec.
  rewrite !zfill_bin_tail by done. apply count_common_bits.
Qed.

Lemma scoreCompatibility_spec_sym x y :
  scoreCompatibility_spec x y = scoreCompatibility_spec y x.
Proof.
  unfold scoreCompatibility_spec, commonPrefixLength_spec.
  rewrite leading_bits_agree_sym. lia.
Qed.

End binary_strings.

(** C7. On well-formed blocks both ranking functions compute the score
    [2 * commonPrefixLength + (32 - |prefixLen x - prefixLen y|)], where the
    common prefix is counted on the full 32-bit network addresses; the score
    does not depend on the order of its arguments nor on which of the two
    ranking functions computes it. *)
Theorem total_score_is_scoreCompatibility (x y : cidr) :
  valid x → valid y →
  ∃ nx ny, ip_network x = Ok nx ∧ ip_network y = Ok ny
    ∧ total_score_for_as nx ny = scoreCompatibility_spec nx ny
    ∧ total_score_for_ip nx ny = scoreCompatibility_spec nx ny
    ∧ total_score_for_as nx ny = total_score_for_as ny nx
    ∧ total_score_for_ip nx ny = total_score_for_ip ny nx
    ∧ total_score_for_as nx ny = total_score_for_ip ny nx.
Proof.
  intros Hx Hy. eexists _, _.
  split; [by apply ip_network_valid|]. split; [by apply ip_network_valid|].
  pose proof (network_address_range x _ (ip_network_valid x Hx)) as Rx.
  pose proof (network_address_range y _ (ip_network_valid y Hy)) as Ry.
  set (nx := Network _ (cidr_prefix x)) in *.
  set (ny := Network _ (cidr_prefix y)) in *.
  assert (∀ a b, 0 ≤ network_address a ≤ ALL_ONES →
                 0 ≤ network_address b ≤ ALL_ONES →
                 total_score_for_as a b = scoreCompatibility_spec a b) as Has.
  { intros a b Ha Hb. unfold total_score_for_as.
    rewrite get_common_prefix_length_spec by done.
    unfold scoreCompatibility_spec. lia. }
  assert (∀ a b, 0 ≤ network_address a ≤ ALL_ONES →
                 0 ≤ network_address b ≤ ALL_ONES →
                 total_score_for_ip a b = scoreCompatibility_spec a b) as Hip.
  { intros a b Ha Hb. unfold total_score_for_ip.
    rewrite get_common_prefix_length_spec by done.
    unfold scoreCompatibility_spec. lia. }
  rewrite (Hip nx ny), (Hip ny nx), (Has nx ny), (Has ny nx) by done.
  repeat split; apply scoreCompatibility_spec_sym.
Qed.

(** ** The boundary at prefix length 0 *)

Section prefix_zero.

Lemma lor_range a b :
  0 ≤ a ≤ ALL_ONES → 0 ≤ b ≤ ALL_ONES → 0 ≤ Z.lor a b ≤ ALL_ONES.
Proof.
  unfold ALL_ONES. intros Ha Hb.
  assert (0 ≤ Z.lor a b) by (apply Z.lor_nonneg; lia). split; [done|].
  assert (∀ x, 0 ≤ x ≤ 2 ^ 32 - 1 → Z.log2 x < 32) as Hlog.
  { intros x Hx. destruct (decide (x = 0)) as [->|]; [done|].
    apply Z.log2_lt_pow2; lia. }
  destruct (decide (Z.lor a b = 0)) as [->|]; [done|].
  assert (Z.lor a b < 2 ^ 32); [|lia].
  apply Z.log2_lt_pow2; [lia|]. rewrite Z.log2_lor by lia.
  pose proof (Hlog a Ha). pose proof (Hlog b Hb). lia.
Qed.

Lemma hostmask_shiftr n : hostmask n = Z.shiftr ALL_ONES (prefixlen n).
Proof.
  unfold hostmask, netmask, ip_int_from_prefix.
  rewrite (Z.lxor_comm ALL_ONES), Z.lxor_assoc, Z.lxor_nilpotent.
  apply Z.lxor_0_r.
Qed.

Lemma hostmask_range n : 0 ≤ prefixlen n → 0 ≤ hostmask n ≤ ALL_ONES.
Proof.
  intros Hp. rewrite hostmask_shiftr, Z.shiftr_div_pow2 by done.
  unfold ALL_ONES. assert (0 < 2 ^ prefixlen n) by (apply Z.pow_pos_nonneg; lia).
  split; [apply Z.div_pos; lia|]. apply Z.div_le_upper_bound; nia.
Qed.

(** A block of prefix length 0 is a supernet of every block. *)
Lemma supernet_of_prefix_zero A B nA nB :
  valid A → valid B → cidr_prefix A = 0 →
  ip_network A = Ok nA → ip_network B = Ok nB →
  supernet_of nA nB = true.
Proof.
  intros HA HB Hzero HnA HnB.
  pose proof (network_address_range B nB HnB) as HrB.
  rewrite (ip_network_valid A HA) in HnA.
  rewrite (ip_network_valid B HB) in HnB. simplify_eq.
  unfold supernet_of. apply andb_true_intro.
  split; apply Z.leb_le.
  - simpl. rewrite Hzero. change (ip_int_from_prefix 0) with 0.
    rewrite Z.land_0_r. apply HrB.
  - assert (broadcast_address
              {| network_address :=
                   Z.land (cidr_addr A) (ip_int_from_prefix (cidr_prefix A));
                 prefixlen := cidr_prefix A |} = ALL_ONES) as ->.
    { unfold broadcast_address, hostmask, netmask. simpl. rewrite Hzero.
      change (ip_int_from_prefix 0) with 0. by rewrite Z.land_0_r. }
    apply lor_range; [done|]. apply hostmask_range. simpl. apply HB.
Qed.

(** When the shorter prefix length is 0, [can_aggregate] answers [True]
    at the supernet test: its [try] block is not reached. *)
Lemma can_aggregate_prefix_zero A B :
  valid A → valid B → Z.min (cidr_prefix A) (cidr_prefix B) = 0 →
  can_aggregate A B = Ok true.
Proof.
  assert (∀ A B, valid A → valid B → cidr_prefix A = 0 →
                 can_aggregate A B = Ok true) as Hone.
  { intros A' B' HA HB Hzero. unfold can_aggregate.
    rewrite (ip_network_valid A' HA), (ip_network_valid B' HB). simpl.
    rewrite (supernet_of_prefix_zero A' B' _ _ HA HB Hzero
               (ip_network_valid A' HA) (ip_network_valid B' HB)).
    done. }
  intros HA HB Hmin.
  destruct (decide (cidr_prefix A = 0)) as [Hz|Hnz]; [by apply Hone|].
  rewrite can_aggregate_sym. apply Hone; [done..|].
  destruct HA as [_ ?], HB as [_ ?]. lia.
Qed.

End prefix_zero.

(** ** Preference ranking *)

Section ranking.
Context {A : Type}.
Implicit Types (x y : A * Z) (l : list (A * Z)).

Lemma insert_desc_perm x l : insert_desc x l ≡ₚ x :: l.
Proof.
  induction l as [|y l IH]; simpl; [done|].
  case_match; [|done]. rewrite IH. apply perm_swap.
Qed.

Lemma sort_desc_perm l : sort_desc l ≡ₚ l.
Proof.
  induction l as [|x l IH]; simpl; [done|].
  by rewrite insert_desc_perm, IH.
Qed.

Lemma insert_desc_sorted x l :
  StronglySorted (λ x y, y.2 ≤ x.2) l →
  StronglySorted (λ x y, y.2 ≤ x.2) (insert_desc x l).
Proof.
  induction l as [|y l IH]; simpl; intros Hs.
  - repeat constructor.
  - apply StronglySorted_inv in Hs as [Hl Hy].
    destruct (x.2 <? y.2) eqn:E.
    + apply Z.ltb_lt in E. constructor; [by apply IH|].
      rewrite insert_desc_perm. constructor; [lia|done].
    + apply Z.ltb_ge in E. constructor; [by constructor|].
      constructor; [done|]. eapply Forall_impl; [exact Hy|].
      simpl. intros z Hz. lia.
Qed.

Lemma sort_desc_sorted l : StronglySorted (λ x y, y.2 ≤ x.2) (sort_desc l).
Proof.
  induction l as [|x l IH]; simpl; [constructor|].
  by apply insert_desc_sorted.
Qed.

(** Insertion never moves an element past one of the same score. *)
Lemma insert_desc_stable (s : Z) x l :
  filter (λ x, x.2 = s) (insert_desc x l) = filter (λ x, x.2 = s) (x :: l).
Proof.
  induction l as [|y l IH]; simpl; [done|].
  destruct (x.2 <? y.2) eqn:E; [|done].
  apply Z.ltb_lt in E.
  rewrite (filter_cons _ y (insert_desc x l)), IH.
  rewrite !filter_cons. repeat case_decide; simpl in *; (done || lia).
Qed.

Lemma sort_desc_stable (s : Z) l :
  filter (λ x, x.2 = s) (sort_desc l) = filter (λ x, x.2 = s) l.
Proof.
  induction l as [|x l IH]; simpl; [done|].
  by rewrite insert_desc_stable, !filter_cons, IH.
Qed.

Lemma filter_agree {X} (P Q : X → Prop)
    `{∀ z, Decision (P z), ∀ z, Decision (Q z)} (k : list X) :
  Forall (λ z, P z ↔ Q z) k → filter P k = filter Q k.
Proof.
  induction 1 as [|z k Hz Hk IH]; [done|].
  rewrite !filter_cons, IH. repeat case_decide; (done || tauto).
Qed.

Lemma filter_fmap {X Y} (f : X → Y) (P : Y → Prop)
    `{∀ z, Decision (P z)} (k : list X) :
  filter P (f <$> k) = f <$> filter (λ z, P (f z)) k.
Proof.
  induction k as [|z k IH]; [done|]. csimpl.
  rewrite !filter_cons, IH. by case_decide.
Qed.

(** When every pair carries the score of its first component, the
    properties of the sorted pairs carry over to the first components. *)
Lemma sort_desc_ranked (score : A → Z) l :
  Forall (λ x, x.2 = score x.1) l →
  stably_ranked score l.*1 (sort_desc l).*1.
Proof.
  intros Hl.
  assert (Forall (λ x, x.2 = score x.1) (sort_desc l)) as Hs.
  { by rewrite sort_desc_perm. }
  split; [by rewrite sort_desc_perm|]. split.
  - pose proof (sort_desc_sorted l) as Hsorted. revert Hs.
    induction Hsorted as [|x k Hk IH Hx]; intros Hs; csimpl;
      [constructor|].
    apply Forall_cons in Hs as [Ex Hs]. constructor; [by apply IH|].
    rewrite Forall_fmap. rewrite Forall_forall in Hx, Hs.
    apply Forall_forall. intros y Hy. simpl.
    rewrite <- Ex, <- (Hs y Hy). by apply Hx.
  - intros s. rewrite !filter_fmap. f_equal.
    rewrite (filter_agree (λ x : A * Z, score x.1 = s)
               (λ x, x.2 = s) (sort_desc l)).
    + rewrite sort_desc_stable. symmetry. apply filter_agree.
      eapply Forall_impl; [exact Hl|]. simpl. intros x ->. done.
    + eapply Forall_impl; [exact Hs|]. simpl. intros x ->. done.
Qed.

(** Sorting looks at the scores only. *)
Lemma sort_desc_relabel {B} (g : A → B) l :
  sort_desc (prod_map g id <$> l) = prod_map g id <$> sort_desc l.
Proof.
  assert (∀ x k, insert_desc (prod_map g id x) (prod_map g id <$> k)
                 = prod_map g id <$> insert_desc x k) as Hins.
  { intros x k. induction k as [|y k IH]; [done|]. csimpl.
    destruct (x.2 <? y.2); csimpl; by rewrite ?IH. }
  induction l as [|x l IH]; [done|]. csimpl. by rewrite IH, Hins.
Qed.

End ranking.

Section rank_functions.

Lemma ranking_for_as_valid subject_net (ip_blocks : list cidr) :
  Forall valid ip_blocks →
  ∃ ranking, ranking_for_as subject_net ip_blocks = Ok ranking
    ∧ ranking.*1 = ip_blocks
    ∧ Forall (λ x, ∃ net, ip_network x.1 = Ok net
                     ∧ x.2 = total_score_for_as subject_net net) ranking.
Proof.
  induction 1 as [|ip rest Hip Hrest (ranking & IH & Hfst & Hsc)]; simpl.
  - by exists [].
  - rewrite (ip_network_valid ip Hip), IH. simpl. eexists. split; [done|].
    split; [by rewrite fmap_cons, Hfst|].
    constructor; [|done]. simpl. eexists.
    split; [apply (ip_network_valid ip Hip)|done].
Qed.

Lemma ranking_for_ip_valid {K} subject_net
    (autonomousSystems : list (K * cidr)) :
  Forall (λ e, valid e.2) autonomousSystems →
  ∃ ranking : list ((K * cidr) * Z),
    ranking_for_ip subject_net autonomousSystems
      = Ok (prod_map fst id <$> ranking)
    ∧ ranking.*1 = autonomousSystems
    ∧ Forall (λ x, ∃ net, ip_network x.1.2 = Ok net
                     ∧ x.2 = total_score_for_ip subject_net net) ranking.
Proof.
  induction 1 as [|[as_id as_cidr] rest Has Hrest
                    (ranking & IH & Hfst & Hsc)]; simpl in *.
  - by exists [].
  - rewrite (ip_network_valid as_cidr Has), IH. simpl.
    eexists (((as_id, as_cidr), _) :: ranking). split; [done|].
    split; [by rewrite fmap_cons, Hfst|].
    constructor; [|done]. simpl. eexists.
    split; [apply (ip_network_valid as_cidr Has)|done].
Qed.

End rank_functions.

(** C6. Both ranking functions return exactly the candidates they were
    given, sorted by descending compatibility score with the subject,
    candidates of equal score keeping the order of the input.  For
    [rank_as_for_ip_blocks] the candidates are the items of the dictionary
    of autonomous systems and the result lists their keys. *)
Theorem ranking_is_stable_descending_sort {K} (subject : cidr)
    (ip_blocks : list cidr) (autonomousSystems : list (K * cidr)) :
  valid subject →
  Forall valid ip_blocks →
  Forall (λ e, valid e.2) autonomousSystems →
  (∃ ranked, rank_ip_blocks_for_as subject ip_blocks = Ok ranked
     ∧ stably_ranked (score_of subject) ip_blocks ranked)
  ∧ (∃ ranked_items,
       rank_as_for_ip_blocks subject autonomousSystems = Ok ranked_items.*1
       ∧ stably_ranked (λ e, score_of subject e.2)
           autonomousSystems ranked_items).
Proof.
  intros Hs Hips Hass. split.
  - unfold rank_ip_blocks_for_as. rewrite (ip_network_valid subject Hs).
    simpl. destruct (ranking_for_as_valid
      {| network_address :=
           Z.land (cidr_addr subject) (ip_int_from_prefix (cidr_prefix subject));
         prefixlen := cidr_prefix subject |} ip_blocks Hips)
      as (ranking & -> & <- & Hsc).
    simpl. eexists. split; [done|]. apply sort_desc_ranked.
    eapply Forall_impl; [exact Hsc|]. simpl. intros x (net & Hnet & ->).
    unfold score_of. by rewrite (ip_network_valid subject Hs), Hnet.
  - unfold rank_as_for_ip_blocks. rewrite (ip_network_valid subject Hs).
    simpl. destruct (ranking_for_ip_valid
      {| network_address :=
           Z.land (cidr_addr subject) (ip_int_from_prefix (cidr_prefix subject));
         prefixlen := cidr_prefix subject |} autonomousSystems Hass)
      as (ranking & -> & <- & Hsc).
    simpl. exists (sort_desc ranking).*1. split.
    + rewrite sort_desc_relabel, <- !list_fmap_compose. done.
    + apply (sort_desc_ranked (λ e : K * cidr, score_of subject e.2)).
      eapply Forall_impl; [exact Hsc|]. simpl. intros x (net & Hnet & ->).
      unfold score_of. by rewrite (ip_network_valid subject Hs), Hnet.
Qed.

(** ** Stable matching engine *)

Section lists_and_dicts.
Context `{EqDecision X}.
Implicit Types (x y z : X) (l : list X).

Lemma list_index_Ok x l i :
  list_index x l = Ok i → l !! i = Some x ∧ ∀ j, (j < i)%nat → l !! j ≠ Some x.
Proof.
  revert i. induction l as [|y l IH]; intros i; simpl; [done|].
  case_decide as Hy.
  - intros [= <-]. split; [by rewrite Hy|]. lia.
  - destruct (list_index x l) as [k|e]; simpl; [|done].
    intros [= <-]. destruct (IH k eq_refl) as [Hk Hmin].
    split; [done|]. intros [|j] Hj; simpl; [congruence|]. apply Hmin. lia.
Qed.

Lemma list_index_elem x l : x ∈ l → ∃ i, list_index x l = Ok i.
Proof.
  induction l as [|y l IH]; [by intros ?%elem_of_nil|].
  intros Hx. simpl. case_decide as Hy; [by eexists|].
  apply elem_of_cons in Hx as [->|Hx]; [done|].
  destruct (IH Hx) as [i ->]. by eexists.
Qed.

Lemma list_index_inj x y l i :
  list_index x l = Ok i → list_index y l = Ok i → x = y.
Proof.
  intros [Hx _]%list_index_Ok [Hy _]%list_index_Ok. congruence.
Qed.

Lemma prefers_irrefl l x : ¬ prefers l x x.
Proof. intros (i & j & Hi & Hj & Hlt). rewrite Hi in Hj. simplify_eq. lia. Qed.

Lemma prefers_trans l x y z : prefers l x y → prefers l y z → prefers l x z.
Proof.
  intros (i & j & Hi & Hj & Hlt) (j' & k & Hj' & Hk & Hlt').
  rewrite Hj in Hj'. simplify_eq. exists i, k. repeat split; (done || lia).
Qed.

Lemma prefers_elem l x y : prefers l x y → x ∈ l ∧ y ∈ l.
Proof.
  intros (i & j & [Hi _]%list_index_Ok & [Hj _]%list_index_Ok & _).
  split; by eapply list_elem_of_lookup_2.
Qed.

Lemma prefers_total l x y :
  x ∈ l → y ∈ l → x ≠ y → prefers l x y ∨ prefers l y x.
Proof.
  intros [i Hi]%list_index_elem [j Hj]%list_index_elem Hne.
  destruct (decide (i = j)) as [->|Hij];
    [by destruct Hne; eapply list_index_inj|].
  destruct (decide (i < j)%nat); [left|right]; eexists _, _;
    repeat split; (done || lia).
Qed.

(** Whatever comes before [x] in a list lies before the first [x]. *)
Lemma prefers_before l1 l2 x y : prefers (l1 ++ x :: l2) y x → y ∈ l1.
Proof.
  intros (j & i & [Hj _]%list_index_Ok & [_ Hmin]%list_index_Ok & Hlt).
  assert (i ≤ length l1)%nat.
  { destruct (decide (i ≤ length l1)%nat) as [|Hgt]; [done|].
    destruct (Hmin (length l1)); [lia|]. by rewrite list_lookup_middle. }
  rewrite lookup_app_l in Hj by lia. by eapply list_elem_of_lookup_2.
Qed.

Lemma list_index_lt_length x l i : list_index x l = Ok i → (i < length l)%nat.
Proof. intros [Hi _]%list_index_Ok. by eapply lookup_lt_Some. Qed.

Lemma dict_get_Ok {V} (d : list (X * V)) k v : dict_get d k = Ok v → (k, v) ∈ d.
Proof.
  induction d as [|[k' v'] d IH]; simpl; [done|].
  case_decide as Hk; [intros [= <-]; subst; left|right; auto].
Qed.

Lemma dict_get_elem {V} (d : list (X * V)) k :
  k ∈ d.*1 → ∃ v, dict_get d k = Ok v.
Proof.
  induction d as [|[k' v'] d IH]; simpl; [by intros ?%elem_of_nil|].
  intros Hk. case_decide; [by eexists|].
  apply elem_of_cons in Hk as [->|Hk]; [done|auto].
Qed.

End lists_and_dicts.

Section engine_facts.
Context {AS IP : Type} `{!EqDecision AS, !Countable AS}
  `{!EqDecision IP, !Countable IP}.
Variable as_prefs : list (AS * list IP).
Variable ip_prefs : list (IP * list AS).
Hypothesis Hwf : well_formed as_prefs ip_prefs.

Implicit Types (r c : AS) (b : IP) (st : @state AS _ _ IP _ _).

Lemma wf_as_list r l : dict_get as_prefs r = Ok l → l ≡ₚ ip_prefs.*1.
Proof.
  intros Hl%dict_get_Ok. destruct Hwf as (_ & _ & Has & _).
  rewrite Forall_forall in Has. apply (Has _ Hl).
Qed.

Lemma wf_ip_list b lb : dict_get ip_prefs b = Ok lb → lb ≡ₚ as_prefs.*1.
Proof.
  intros Hl%dict_get_Ok. destruct Hwf as (_ & _ & _ & Hip).
  rewrite Forall_forall in Hip. apply (Hip _ Hl).
Qed.

Lemma dict_get_key {V} `{EqDecision K} (d : list (K * V)) k v :
  dict_get d k = Ok v → k ∈ d.*1.
Proof.
  intros Hd%dict_get_Ok. apply list_elem_of_fmap. by exists (k, v).
Qed.

(** The requester and the holder of a block both have a position in the
    list of that block. *)
Lemma ranks_exist b r c :
  b ∈ ip_prefs.*1 → r ∈ as_prefs.*1 → c ∈ as_prefs.*1 →
  ∃ lb i j, dict_get ip_prefs b = Ok lb
    ∧ list_index r lb = Ok i ∧ list_index c lb = Ok j.
Proof.
  intros [lb Hlb]%dict_get_elem Hr Hc.
  pose proof (wf_ip_list b lb Hlb) as Hperm.
  destruct (list_index_elem r lb) as [i Hi]; [by rewrite Hperm|].
  destruct (list_index_elem c lb) as [j Hj]; [by rewrite Hperm|].
  by exists lb, i, j.
Qed.

(** The [for] loop ends in one of the two outcomes, without raising. *)
Lemma propose_outcome st r l tried :
  (∀ b, b ∈ l → b ∈ ip_prefs.*1) →
  (∀ b, b ∈ ip_prefs.*1 → is_Some (proposals st !! b)) →
  (∀ b c, proposals st !! b = Some (Some c) → c ∈ as_prefs.*1 ∧ c ≠ r) →
  r ∈ as_prefs.*1 →
  ∃ st' t, propose ip_prefs r l st tried = Ok (st', tried ++ t)
    ∧ turn_outcome ip_prefs st r l st' t.
Proof.
  intros Hl Hdom Hheld Hr. revert tried Hl.
  induction l as [|b l IH]; intros tried Hl.
  - exists st, []. rewrite app_nil_r. split; [done|]. by constructor.
  - assert (b ∈ ip_prefs.*1) as Hb by (apply Hl; left).
    destruct (Hdom b Hb) as [o Ho]. simpl. unfold map_get. rewrite Ho. simpl.
    destruct o as [c|].
    + destruct (Hheld b c Ho) as [Hc Hne].
      destruct (ranks_exist b r c Hb Hr Hc) as (lb & i & j & Hlb & Hi & Hj).
      rewrite Hlb. simpl. rewrite Hi. simpl. rewrite Hj. simpl.
      destruct (i <? j)%nat eqn:Hij.
      * apply Nat.ltb_lt in Hij.
        exists (accepted st r b (Some c)), [b]. split.
        -- unfold accepted. simpl. do 3 f_equal.
           case_decide as Hsome; [done|].
           symmetry. apply delete_id. by apply eq_None_not_Some.
        -- apply (turn_accepted ip_prefs st r (b :: l) [] b l (Some c));
             [done|constructor|done|].
           intros c' [= <-]. exists lb. split; [done|]. by exists i, j.
      * apply Nat.ltb_ge in Hij.
        assert (i ≠ j) by (intros ->; by destruct Hne; eapply list_index_inj).
        assert (rejects ip_prefs st r b) as Hrej.
        { exists c, lb. repeat split; [done..|]. exists j, i.
          repeat split; (done || lia). }
        destruct (IH (tried ++ [b])) as (st' & t & Hrun & Hout).
        { intros b' Hb'. apply Hl. by right. }
        exists st', (b :: t). rewrite Hrun. split.
        { by rewrite <- app_assoc. }
        destruct Hout as [Hall|l1 b0 l2 o -> Hall Ho' Hbetter].
        -- constructor. by constructor.
        -- apply (turn_accepted ip_prefs st r _ (b :: l1) b0 l2 o);
             [done|by constructor|done..].
    + exists (accepted st r b None), [b]. split.
      * unfold accepted. simpl. by rewrite app_nil_r.
      * apply (turn_accepted ip_prefs st r (b :: l) [] b l None);
          [done|constructor|done|done].
Qed.

End engine_facts.

Section engine_invariant.
Context {AS IP : Type} `{!EqDecision AS, !Countable AS}
  `{!EqDecision IP, !Countable IP}.
Variable as_prefs : list (AS * list IP).
Variable ip_prefs : list (IP * list AS).
Hypothesis Hwf : well_formed as_prefs ip_prefs.

Implicit Types (r c : AS) (b : IP) (st : @state AS _ _ IP _ _).

Local Abbreviation rejects := (rejects ip_prefs).
Local Abbreviation invariant := (invariant as_prefs ip_prefs).
Local Abbreviation potential := (potential as_prefs ip_prefs).
Local Abbreviation block_cost := (block_cost as_prefs ip_prefs).

(** Changing the value at one key of a duplicate-free list changes the sum
    by the difference at that key. *)
Lemma sum_list_update (f g : IP → nat) (bs : list IP) b :
  NoDup bs → b ∈ bs → (∀ b', b' ∈ bs → b' ≠ b → g b' = f b') →
  (sum_list (g <$> bs) + f b = sum_list (f <$> bs) + g b)%nat.
Proof.
  induction 1 as [|b0 bs Hnotin Hnd IH]; [by intros ?%elem_of_nil|].
  intros Hb Hsame. csimpl. destruct (decide (b0 = b)) as [->|Hne].
  - assert (g <$> bs = f <$> bs) as ->; [|lia].
    apply list_fmap_ext. intros i b' Hb'. apply Hsame.
    + right. by eapply list_elem_of_lookup_2.
    + intros ->. apply Hnotin. by eapply list_elem_of_lookup_2.
  - apply elem_of_cons in Hb as [->|Hb]; [done|].
    rewrite (Hsame b0); [|by left|done].
    assert (sum_list (g <$> bs) + f b = sum_list (f <$> bs) + g b)%nat; [|lia].
    apply IH; [done|]. intros b' Hb' Hne'. apply Hsame; [by right|done].
Qed.

Lemma rejects_proposals st st' r b :
  proposals st' = proposals st → rejects st r b → rejects st' r b.
Proof. unfold rejects. by intros ->. Qed.

Lemma requester_wants_in M r b :
  requester_wants as_prefs M r b → r ∈ as_prefs.*1 ∧ b ∈ ip_prefs.*1.
Proof.
  intros (l & Hl & Hw). split; [by eapply dict_get_key|].
  rewrite <- (wf_as_list as_prefs ip_prefs Hwf r l Hl).
  destruct (M !! r); [by apply prefers_elem in Hw as [? ?]|done].
Qed.

Lemma exhausted_preserves st r rest l :
  invariant st → free_as st = r :: rest → dict_get as_prefs r = Ok l →
  Forall (rejects st r) l →
  invariant {| free_as := rest; engagements := engagements st;
               proposals := proposals st |}
  ∧ (potential {| free_as := rest; engagements := engagements st;
                  proposals := proposals st |} < potential st)%nat.
Proof.
  intros [Hdom Hinv Heng Hnd Hfree Hset Hunr] Hq Hl Hall.
  rewrite Hq in Hnd, Hfree, Hset. apply NoDup_cons in Hnd as [Hnotin Hnd].
  split; [constructor; simpl; try done|].
  - intros r' Hr'. apply Hfree. by right.
  - intros r' b Hr' Hnotin' Hw. destruct (decide (r' = r)) as [->|Hne].
    + destruct Hw as (l0 & Hl0 & Hw). rewrite Hl in Hl0. simplify_eq.
      destruct (Hfree r) as [_ He]; [by left|].
      simpl in Hw. rewrite He in Hw.
      rewrite Forall_forall in Hall. by apply Hall.
    + apply Hset; [done| |done]. by apply not_elem_of_cons.
  - unfold potential. rewrite Hq. cbn [free_as length].
    unfold lt. apply le_n.
Qed.

(** The engagements and proposals after [b] has accepted [r]. *)
Lemma accepted_engagements st r b o r' b' :
  engagements st !! r = None → o ≠ Some r →
  engagements (accepted st r b o) !! r' = Some b'
  ↔ (r' = r ∧ b' = b) ∨ (r' ≠ r ∧ o ≠ Some r' ∧ engagements st !! r' = Some b').
Proof.
  intros Hr Ho. unfold accepted. simpl. destruct o as [c|].
  - destruct (decide (r' = c)) as [->|Hc].
    + rewrite lookup_delete_eq. intuition congruence.
    + rewrite lookup_delete_ne by done. destruct (decide (r' = r)) as [->|Hr'].
      * rewrite lookup_insert_eq. intuition congruence.
      * rewrite lookup_insert_ne by done. intuition congruence.
  - destruct (decide (r' = r)) as [->|Hr'].
    + rewrite lookup_insert_eq. intuition congruence.
    + rewrite lookup_insert_ne by done. intuition congruence.
Qed.

Lemma accepted_proposals st r b o b' x :
  proposals (accepted st r b o) !! b' = Some x
  ↔ (b' = b ∧ x = Some r) ∨ (b' ≠ b ∧ proposals st !! b' = Some x).
Proof.
  unfold accepted. simpl. destruct (decide (b' = b)) as [->|Hb].
  - rewrite lookup_insert_eq. intuition congruence.
  - rewrite lookup_insert_ne by done. intuition congruence.
Qed.

Lemma rejects_accepted st r b o r' b' :
  b' ≠ b → rejects st r' b' → rejects (accepted st r b o) r' b'.
Proof.
  intros Hne (h & lb & Hp & Hlb & Hpref). exists h, lb.
  split; [|done]. apply accepted_proposals. by right.
Qed.

Lemma accepted_preserves st r rest l1 b l2 o :
  invariant st → free_as st = r :: rest →
  dict_get as_prefs r = Ok (l1 ++ b :: l2) →
  Forall (rejects st r) l1 →
  proposals st !! b = Some o →
  (∀ c, o = Some c → ∃ lb, dict_get ip_prefs b = Ok lb ∧ prefers lb r c) →
  let st0 := {| free_as := rest; engagements := engagements st;
                proposals := proposals st |} in
  invariant (accepted st0 r b o)
  ∧ (potential (accepted st0 r b o) < potential st)%nat.
Proof.
  intros [Hdom Hinv Heng Hnd Hfree Hset Hunr] Hq Hl Hall Ho Hbetter st0.
  rewrite Hq in Hnd, Hfree, Hset. apply NoDup_cons in Hnd as [Hnotin Hnd].
  destruct (Hfree r) as [Hr He]; [by left|].
  assert (b ∈ l1 ++ b :: l2) as Hbl by (apply elem_of_app; right; left).
  assert (b ∈ ip_prefs.*1) as Hb.
  { by rewrite <- (wf_as_list as_prefs ip_prefs Hwf r _ Hl). }
  assert (o ≠ Some r) as Hor.
  { intros ->. apply Hinv in Ho. congruence. }
  assert (∀ c, o = Some c →
            engagements st !! c = Some b ∧ c ∈ as_prefs.*1 ∧ (c ∉ rest) ∧ c ≠ r)
    as Hold.
  { intros c ->. apply Hinv in Ho. split; [done|].
    split; [by apply (Heng c b)|]. split; [|congruence].
    intros Hc. destruct (Hfree c) as [_ Hn]; [by right|]. congruence. }
  pose proof (λ r' b', accepted_engagements st0 r b o r' b' He Hor) as HE.
  pose proof (accepted_proposals st0 r b o) as HP.
  rewrite Forall_forall in Hall.
  split; [constructor|].
  - intros b' Hb'. destruct (decide (b' = b)) as [->|Hne].
    + exists (Some r). apply HP. by left.
    + destruct (Hdom b' Hb') as [x Hx]. exists x. apply HP. by right.
  - intros r' b'. rewrite HP, HE. simpl. split.
    + intros [[-> [= ->]]|[Hne Hp]]; [by left|]. right.
      apply Hinv in Hp as He'. split; [congruence|]. split; [|done].
      intros ->. apply Hinv in Ho. congruence.
    + intros [[-> ->]|(Hne & Hno & He')]; [by left|]. right.
      apply Hinv in He' as Hp. split; [|done].
      intros ->. rewrite Ho in Hp. congruence.
  - intros r' b' [[-> ->]|(_ & _ & He')]%HE; [done|by apply Heng].
  - simpl. apply NoDup_app. split; [done|]. split.
    + intros x Hx Hx'. destruct o as [c|]; simpl in Hx';
        [|by apply elem_of_nil in Hx'].
      apply list_elem_of_singleton in Hx' as ->.
      by destruct (Hold c eq_refl) as (_ & _ & ? & _).
    + destruct o; [apply NoDup_singleton|constructor].
  - intros r' Hr'. simpl in Hr'. apply elem_of_app in Hr' as [Hr'|Hr'].
    + destruct (Hfree r') as [? He']; [by right|]. split; [done|].
      apply eq_None_not_Some. intros [b' Hb'].
      apply HE in Hb' as [[-> _]|(_ & _ & ?)]; [done|simpl in *; congruence].
    + destruct o as [c|]; simpl in Hr'; [|by apply elem_of_nil in Hr'].
      apply list_elem_of_singleton in Hr' as ->.
      destruct (Hold c eq_refl) as (? & ? & ? & ?). split; [done|].
      apply eq_None_not_Some. intros [b' Hb'].
      apply HE in Hb' as [[-> _]|(_ & Hno & _)]; done.
  - intros r' b' Hr' Hnotin' Hw. simpl in Hnotin'.
    apply not_elem_of_app in Hnotin' as [Hn1 Hn2].
    destruct (decide (r' = r)) as [->|Hne].
    + destruct Hw as (l0 & Hl0 & Hw). rewrite Hl in Hl0. simplify_eq.
      assert (engagements (accepted st0 r b o) !! r = Some b) as Hrb.
      { apply HE. by left. }
      rewrite Hrb in Hw.
      assert (b' ≠ b) by (intros ->; by eapply prefers_irrefl).
      apply prefers_before in Hw. apply rejects_accepted; [done|].
      by apply Hall.
    + assert (o ≠ Some r') as Hor'.
      { intros ->. apply Hn2. simpl. left. }
      assert (engagements (accepted st0 r b o) !! r' = engagements st !! r')
        as Heq.
      { apply option_eq. intros b0. rewrite HE. simpl. split.
        - by intros [[? _]|(_ & _ & ?)].
        - intros ?. by right. }
      assert (requester_wants as_prefs (engagements st) r' b') as Hw'.
      { destruct Hw as (l0 & Hl0 & Hw). exists l0. split; [done|].
        by rewrite <- Heq. }
      assert (rejects st r' b') as Hrej.
      { apply Hset; [done| |done]. by apply not_elem_of_cons. }
      destruct (decide (b' = b)) as [->|Hb'];
        [|by apply rejects_accepted].
      destruct Hrej as (h & lb & Hp & Hlb & Hpref).
      rewrite Ho in Hp. simplify_eq.
      destruct (Hbetter h eq_refl) as (lb' & Hlb' & Hpref').
      assert (lb' = lb) as -> by congruence. exists r, lb.
      split; [apply HP; by left|]. split; [done|]. by eapply prefers_trans.
  - intros M r' b' HM Hst (h & lb & Hp & Hlb & Hpref).
    apply HP in Hp as [[-> [= ->]]|[Hne Hp]];
      [|eapply Hunr; [done..|]; by exists h, lb].
    intros HMr'. destruct HM as [Hin Hinj].
    assert (M !! r ≠ Some b) as HMr.
    { intros HMr. assert (r = r') as -> by (by eapply Hinj).
      by eapply prefers_irrefl. }
    apply (Hst r b). split; [done|]. split.
    + exists (l1 ++ b :: l2). split; [done|].
      destruct (M !! r) as [b0|] eqn:HMr0; [|done].
      assert (b0 ∈ l1 ++ b :: l2) as Hb0.
      { rewrite (wf_as_list as_prefs ip_prefs Hwf r _ Hl).
        by destruct (Hin r b0 HMr0). }
      assert (b0 ≠ b) by congruence.
      destruct (prefers_total (l1 ++ b :: l2) b b0) as [|Hlt]; [done..|].
      apply prefers_before in Hlt.
      destruct (Hunr M r b0 (conj Hin Hinj) Hst (Hall _ Hlt)). done.
    + exists lb. split; [done|]. right. by exists r'.
  - destruct Hwf as (_ & HndB & _ & _).
    assert (∀ b', b' ∈ ip_prefs.*1 → b' ≠ b →
              block_cost (accepted st0 r b o) b' = block_cost st b') as Hsame.
    { intros b' _ Hne. unfold block_cost. simpl.
      by rewrite lookup_insert_ne. }
    pose proof (sum_list_update (block_cost st)
                  (block_cost (accepted st0 r b o)) _ b HndB Hb Hsame) as Hsum.
    unfold potential. simpl free_as. rewrite Hq, length_app.
    cbn [length].
    assert (block_cost (accepted st0 r b o) b + length (option_list o)
            ≤ block_cost st b)%nat; [|lia].
    unfold block_cost. simpl proposals.
    rewrite lookup_insert_eq, Ho. destruct o as [c|]; simpl.
    + destruct (Hbetter c eq_refl) as (lb & -> & (i & j & -> & -> & Hlt)).
      lia.
    + destruct (dict_get ip_prefs b) as [lb|] eqn:Hlb; [|lia].
      destruct (list_index r lb) as [i|] eqn:Hi; [|lia].
      apply list_index_lt_length in Hi.
      rewrite (wf_ip_list as_prefs ip_prefs Hwf b lb Hlb), length_fmap in Hi.
      lia.
Qed.

Lemma initial_proposals_None b o :
  initial_proposals ip_prefs !! b = Some o → o = None.
Proof.
  intros Hb%elem_of_list_to_map_2.
  apply list_elem_of_fmap in Hb as (ip & [= _ ->] & _). done.
Qed.

Lemma initial_proposals_dom b :
  b ∈ ip_prefs.*1 → is_Some (initial_proposals ip_prefs !! b).
Proof.
  intros Hb. apply not_eq_None_Some. intros Hnone.
  apply not_elem_of_list_to_map in Hnone. apply Hnone.
  by rewrite <- list_fmap_compose, list_fmap_id.
Qed.

Lemma initial_invariant :
  invariant (initial_state as_prefs ip_prefs)
  ∧ potential (initial_state as_prefs ip_prefs)
    = enough_fuel as_prefs ip_prefs.
Proof.
  split; [constructor; simpl|].
  - apply initial_proposals_dom.
  - intros r b. rewrite lookup_empty. split; [|done].
    by intros ?%initial_proposals_None.
  - intros r b. by rewrite lookup_empty.
  - apply Hwf.
  - intros r Hr. by rewrite lookup_empty.
  - done.
  - intros M r b _ _ (h & lb & ?%initial_proposals_None & _). done.
  - unfold potential, enough_fuel. simpl. rewrite length_fmap.
    assert (∀ bs : list IP,
              sum_list (block_cost (initial_state as_prefs ip_prefs) <$> bs)
              = (length as_prefs * length bs)%nat) as Hsum.
    { induction bs as [|b bs IH]; csimpl; [lia|]. rewrite IH.
      unfold block_cost at 1. simpl.
      destruct (initial_proposals ip_prefs !! b) as [o|] eqn:Hb; [|lia].
      apply initial_proposals_None in Hb as ->. lia. }
    rewrite Hsum, length_fmap. lia.
Qed.

(** From a state that satisfies the invariant the loop ends, in at most
    [potential st] turns, in a state with an empty queue. *)
Lemma run_terminates fuel st h :
  invariant st → (potential st ≤ fuel)%nat →
  turns_scan_from_top as_prefs h →
  ∃ st' h', run as_prefs ip_prefs fuel st h = Some (Ok (st', h'))
    ∧ invariant st' ∧ free_as st' = []
    ∧ turns_scan_from_top as_prefs h'
    ∧ (length h' + potential st' ≤ length h + potential st)%nat.
Proof.
  revert st h. induction fuel as [|fuel IH]; intros st h Hinv Hfuel Hh.
  - exists st, h. destruct (free_as st) as [|r rest] eqn:Hq.
    + simpl. by rewrite Hq.
    + unfold potential in Hfuel. rewrite Hq in Hfuel.
      cbn [length] in Hfuel. exfalso. lia.
  - destruct (free_as st) as [|r rest] eqn:Hq.
    { exists st, h. simpl. by rewrite Hq. }
    simpl. rewrite Hq. unfold turn.
    destruct (inv_free _ _ _ Hinv r) as [Hr He]; [rewrite Hq; by left|].
    destruct (dict_get_elem as_prefs r Hr) as [l Hl]. rewrite Hl. simpl.
    pose proof (wf_as_list as_prefs ip_prefs Hwf r l Hl) as Hperm.
    set (st0 := {| free_as := rest; engagements := engagements st;
                   proposals := proposals st |}).
    destruct (propose_outcome as_prefs ip_prefs Hwf st0 r l [])
      as (st' & t & Hrun & Hout).
    { intros b Hb. by rewrite <- Hperm. }
    { apply Hinv. }
    { intros b c Hc. apply (inv_inverse _ _ _ Hinv) in Hc.
      split; [by apply (inv_engaged _ _ _ Hinv c b)|]. congruence. }
    { done. }
    rewrite Hrun. simpl.
    assert (NoDup l) as Hndl.
    { rewrite Hperm. apply Hwf. }
    assert (invariant st' ∧ (potential st' < potential st)%nat
            ∧ t `prefix_of` l) as (Hinv' & Hlt & Hpre).
    { destruct Hout as [Hall|l1 b l2 o -> Hall Ho Hbetter].
      - destruct (exhausted_preserves st r rest l Hinv Hq Hl Hall). done.
      - destruct (accepted_preserves st r rest l1 b l2 o
                    Hinv Hq Hl Hall Ho Hbetter).
        split; [done|]. split; [done|].
        exists l2. by rewrite <- app_assoc. }
    destruct (IH st' (h ++ [(r, t)])) as (st'' & h'' & Hrun' & ? & ? & ? & Hlen);
      [done|lia| |].
    { intros r0 t0 [Hin|Hin%list_elem_of_singleton]%elem_of_app;
        [by apply Hh|]. simplify_eq. exists l.
      split; [done|]. split; [done|].
      destruct Hpre as [k ->]. by apply NoDup_app in Hndl as [? _]. }
    exists st'', h''. rewrite length_app in Hlen. simpl in Hlen.
    do 4 (split; [done|]). lia.
Qed.

Lemma run_more_fuel fuel fuel' st h x :
  run as_prefs ip_prefs fuel st h = Some x → (fuel ≤ fuel')%nat →
  run as_prefs ip_prefs fuel' st h = Some x.
Proof.
  revert fuel' st h. induction fuel as [|fuel IH]; intros fuel' st h.
  - simpl. destruct (free_as st) eqn:Hq; [|done].
    intros <- _. destruct fuel'; simpl; by rewrite Hq.
  - intros Hrun Hle. destruct fuel' as [|fuel']; [lia|].
    simpl in *. destruct (free_as st); [done|].
    destruct (turn _ _ _ _ _) as [[st' t]|e]; [|done].
    apply IH; [done|lia].
Qed.

(** *** What the invariant gives once the queue is empty *)

Lemma invariant_matching st :
  invariant st → matching as_prefs ip_prefs (engagements st).
Proof.
  intros Hinv. split; [apply Hinv|].
  intros r1 r2 b H1%(inv_inverse _ _ _ Hinv) H2%(inv_inverse _ _ _ Hinv).
  congruence.
Qed.

Lemma invariant_stable st :
  invariant st → free_as st = [] →
  stable as_prefs ip_prefs (engagements st).
Proof.
  intros Hinv Hq r b (Hne & Hw & (lb & Hlb & Hbw)).
  destruct (requester_wants_in _ r b Hw) as [Hr Hb].
  destruct (inv_settled _ _ _ Hinv r b) as (h & lb' & Hp & Hlb' & Hpref);
    [done|rewrite Hq; apply not_elem_of_nil|done|].
  assert (lb' = lb) as -> by congruence.
  apply (inv_inverse _ _ _ Hinv) in Hp as Hh.
  destruct Hbw as [[_ Hfree]|(r' & Hr' & Hpref')]; [by destruct (Hfree h)|].
  apply (inv_inverse _ _ _ Hinv) in Hr'. assert (r' = h) as -> by congruence.
  eapply prefers_irrefl, prefers_trans; eauto.
Qed.

Lemma invariant_optimal st M r b' :
  invariant st → free_as st = [] →
  matching as_prefs ip_prefs M → stable as_prefs ip_prefs M →
  M !! r = Some b' →
  ∃ b l, engagements st !! r = Some b ∧ dict_get as_prefs r = Ok l
    ∧ (b = b' ∨ prefers l b b').
Proof.
  intros Hinv Hq HM Hst HMr.
  destruct (proj1 HM r b' HMr) as [Hr Hb'].
  destruct (dict_get_elem as_prefs r Hr) as [l Hl].
  pose proof (wf_as_list as_prefs ip_prefs Hwf r l Hl) as Hperm.
  assert (∀ b, requester_wants as_prefs (engagements st) r b →
               M !! r ≠ Some b) as Hbetter.
  { intros b Hw. apply (inv_unreachable _ _ _ Hinv M r b HM Hst).
    apply (inv_settled _ _ _ Hinv); [done| |done].
    rewrite Hq. apply not_elem_of_nil. }
  destruct (engagements st !! r) as [b|] eqn:He.
  - exists b, l. do 2 (split; [done|]).
    destruct (decide (b = b')) as [|Hne]; [by left|right].
    destruct (inv_engaged _ _ _ Hinv r b He) as [_ Hb].
    destruct (prefers_total l b b') as [|Hlt];
      [by rewrite Hperm..|done|done|].
    destruct (Hbetter b'); [|done]. exists l. by rewrite He.
  - destruct (Hbetter b'); [|done]. exists l. rewrite He.
    split; [done|]. by rewrite Hperm.
Qed.

Lemma length_attempts_le (m : nat) (h : list (AS * list IP)) :
  (∀ r tried, (r, tried) ∈ h → length tried ≤ m)%nat →
  (length (attempts h) ≤ length h * m)%nat.
Proof.
  unfold attempts. induction h as [|[r tried] h IH]; intros Hm; [done|].
  rewrite bind_cons, length_app, length_fmap. simpl.
  assert (length tried ≤ m)%nat by (apply (Hm r); left).
  assert (length (h ≫= λ '(as_id, tried), (λ ip, (as_id, ip)) <$> tried)
          ≤ length h * m)%nat; [|lia].
  apply IH. intros r' t' Hin. apply (Hm r'). by right.
Qed.

(** The run of [gale_shapley] on well-formed maps. *)
Lemma gale_shapley_run_ends fuel :
  (enough_fuel as_prefs ip_prefs ≤ fuel)%nat →
  ∃ st h, gale_shapley_run as_prefs ip_prefs fuel = Some (Ok (st, h))
    ∧ invariant st ∧ free_as st = []
    ∧ turns_scan_from_top as_prefs h
    ∧ (length h ≤ enough_fuel as_prefs ip_prefs)%nat.
Proof.
  intros Hfuel. destruct initial_invariant as [Hinv Hpot].
  destruct (run_terminates (enough_fuel as_prefs ip_prefs)
              (initial_state as_prefs ip_prefs) [] Hinv)
    as (st & h & Hrun & Hinv' & Hq & Hh & Hlen); [lia| |].
  { by intros r t ?%elem_of_nil. }
  exists st, h. split; [by eapply run_more_fuel|].
  do 3 (split; [done|]). simpl in Hlen. lia.
Qed.

End engine_invariant.

(** C1. On well-formed, complete preference maps [gale_shapley] returns
    a matching with no blocking pair: there are no requester [r] and block
    [b], not matched to each other, such that [r] prefers [b] to its match
    (or is unmatched) and [b] prefers [r] to its holder (or is unclaimed). *)
Theorem gale_shapley_stable `{Countable AS, Countable IP}
    (as_prefs : list (AS * list IP)) (ip_prefs : list (IP * list AS))
    (fuel : nat) :
  well_formed as_prefs ip_prefs →
  (enough_fuel as_prefs ip_prefs ≤ fuel)%nat →
  ∃ M, gale_shapley as_prefs ip_prefs fuel = Some (Ok M)
    ∧ stable as_prefs ip_prefs M.
Proof.
  intros Hwf Hfuel.
  destruct (gale_shapley_run_ends as_prefs ip_prefs Hwf fuel Hfuel)
    as (st & h & Hrun & Hinv & Hq & _).
  exists (engagements st). unfold gale_shapley. rewrite Hrun.
  split; [done|]. by apply invariant_stable.
Qed.

(** C2. On well-formed, complete preference maps the matching returned by
    [gale_shapley] gives no block to two requesters and no requester two
    blocks; it pairs requesters of [as_prefs] with blocks of [ip_prefs]. *)
Theorem gale_shapley_one_to_one `{Countable AS, Countable IP}
    (as_prefs : list (AS * list IP)) (ip_prefs : list (IP * list AS))
    (fuel : nat) :
  well_formed as_prefs ip_prefs →
  (enough_fuel as_prefs ip_prefs ≤ fuel)%nat →
  ∃ M, gale_shapley as_prefs ip_prefs fuel = Some (Ok M)
    ∧ (∀ r1 r2 b, M !! r1 = Some b → M !! r2 = Some b → r1 = r2)
    ∧ (∀ r b1 b2, M !! r = Some b1 → M !! r = Some b2 → b1 = b2)
    ∧ (∀ r b, M !! r = Some b → r ∈ as_prefs.*1 ∧ b ∈ ip_prefs.*1).
Proof.
  intros Hwf Hfuel.
  destruct (gale_shapley_run_ends as_prefs ip_prefs Hwf fuel Hfuel)
    as (st & h & Hrun & Hinv & Hq & _).
  exists (engagements st). unfold gale_shapley. rewrite Hrun.
  destruct (invariant_matching as_prefs ip_prefs st Hinv) as [Hin Hinj].
  split; [done|]. split; [done|]. split; [|done].
  intros r b1 b2 H1 H2. congruence.
Qed.

(** C3. On well-formed, complete preference maps the matching returned by
    [gale_shapley] is a stable matching that is best for every requester:
    whatever block a requester gets in some stable matching, here it gets
    that block or one it prefers, and a requester unmatched here is
    unmatched in every stable matching. *)
Theorem gale_shapley_requester_optimal `{Countable AS, Countable IP}
    (as_prefs : list (AS * list IP)) (ip_prefs : list (IP * list AS))
    (fuel : nat) :
  well_formed as_prefs ip_prefs →
  (enough_fuel as_prefs ip_prefs ≤ fuel)%nat →
  ∃ M, gale_shapley as_prefs ip_prefs fuel = Some (Ok M)
    ∧ matching as_prefs ip_prefs M ∧ stable as_prefs ip_prefs M
    ∧ ∀ M', matching as_prefs ip_prefs M' → stable as_prefs ip_prefs M' →
        ∀ r,
          (∀ b', M' !! r = Some b' →
             ∃ b l, M !! r = Some b ∧ dict_get as_prefs r = Ok l
               ∧ (b = b' ∨ prefers l b b'))
          ∧ (M !! r = None → M' !! r = None).
Proof.
  intros Hwf Hfuel.
  destruct (gale_shapley_run_ends as_prefs ip_prefs Hwf fuel Hfuel)
    as (st & h & Hrun & Hinv & Hq & _).
  exists (engagements st). unfold gale_shapley. rewrite Hrun.
  split; [done|]. split; [by apply invariant_matching|].
  split; [by apply invariant_stable|].
  intros M' HM' Hst' r.
  assert (∀ b', M' !! r = Some b' →
            ∃ b l, engagements st !! r = Some b ∧ dict_get as_prefs r = Ok l
              ∧ (b = b' ∨ prefers l b b')) as Hbest.
  { intros b' Hb'. by eapply invariant_optimal. }
  split; [done|]. intros Hnone.
  destruct (M' !! r) as [b'|] eqn:Hb'; [|done].
  destruct (Hbest b' eq_refl) as (b & _ & Hb & _). congruence.
Qed.

(** C4 (as the code has it). On well-formed, complete preference maps
    with [n] requesters and [m] blocks the [while] loop runs at most
    [n * (m + 1)] turns, each turn makes at most [m] proposal attempts, and
    the whole run makes at most [n * (m + 1) * m] of them. *)
Theorem gale_shapley_attempts_bound `{Countable AS, Countable IP}
    (as_prefs : list (AS * list IP)) (ip_prefs : list (IP * list AS))
    (fuel : nat) :
  well_formed as_prefs ip_prefs →
  (enough_fuel as_prefs ip_prefs ≤ fuel)%nat →
  ∃ st h, gale_shapley_run as_prefs ip_prefs fuel = Some (Ok (st, h))
    ∧ (length h ≤ length as_prefs * (length ip_prefs + 1))%nat
    ∧ (∀ r tried, (r, tried) ∈ h → length tried ≤ length ip_prefs)%nat
    ∧ (length (attempts h)
       ≤ length as_prefs * (length ip_prefs + 1) * length ip_prefs)%nat.
Proof.
  intros Hwf Hfuel.
  destruct (gale_shapley_run_ends as_prefs ip_prefs Hwf fuel Hfuel)
    as (st & h & Hrun & Hinv & Hq & Hh & Hlen).
  exists st, h. split; [done|]. unfold enough_fuel in Hlen.
  assert (∀ r tried, (r, tried) ∈ h → length tried ≤ length ip_prefs)%nat
    as Hturn.
  { intros r tried (l & Hl & [k ->] & _)%Hh.
    apply (wf_as_list as_prefs ip_prefs Hwf) in Hl.
    apply Permutation_length in Hl.
    rewrite length_app, length_fmap in Hl. lia. }
  split; [lia|]. split; [done|].
  pose proof (length_attempts_le (length ip_prefs) h Hturn). nia.
Qed.

Section engine_turns.
Context {AS IP : Type} `{!EqDecision AS, !Countable AS}
  `{!EqDecision IP, !Countable IP}.
Variable as_prefs : list (AS * list IP).
Variable ip_prefs : list (IP * list AS).
Hypothesis Hwf : well_formed as_prefs ip_prefs.

Implicit Types (r c : AS) (b : IP) (st : @state AS _ _ IP _ _).

(** Every turn of a run that returns is a scan of the requester's list
    from the top that ends at the first accepting block or at the end of
    the list. *)
Lemma run_turns fuel st h st' h' :
  invariant as_prefs ip_prefs st →
  run as_prefs ip_prefs fuel st h = Some (Ok (st', h')) →
  ∃ h2, h' = h ++ h2 ∧ turns_from as_prefs ip_prefs st h2 st'.
Proof.
  revert st h. induction fuel as [|fuel IH]; intros st h Hinv Hrun.
  - simpl in Hrun. destruct (free_as st) as [|r rest]; [|done].
    simplify_eq. exists []. rewrite app_nil_r. split; [done|constructor].
  - simpl in Hrun. destruct (free_as st) as [|r rest] eqn:Hq.
    { simplify_eq. exists []. rewrite app_nil_r. split; [done|constructor]. }
    unfold turn in Hrun.
    destruct (inv_free _ _ _ Hinv r) as [Hr He]; [rewrite Hq; by left|].
    destruct (dict_get_elem as_prefs r Hr) as [l Hl].
    rewrite Hl in Hrun. simpl in Hrun.
    pose proof (wf_as_list as_prefs ip_prefs Hwf r l Hl) as Hperm.
    set (st0 := {| free_as := rest; engagements := engagements st;
                   proposals := proposals st |}) in *.
    destruct (propose_outcome as_prefs ip_prefs Hwf st0 r l [])
      as (st1 & t & Hturn & Hout).
    { intros b Hb. by rewrite <- Hperm. }
    { apply Hinv. }
    { intros b c Hc. apply (inv_inverse _ _ _ Hinv) in Hc.
      split; [by apply (inv_engaged _ _ _ Hinv c b)|]. congruence. }
    { done. }
    rewrite Hturn in Hrun. simpl in Hrun.
    assert (invariant as_prefs ip_prefs st1) as Hinv1.
    { destruct Hout as [Hall|l1 b l2 o -> Hall Ho Hbetter].
      - by destruct (exhausted_preserves as_prefs ip_prefs st r rest l
                       Hinv Hq Hl Hall).
      - by destruct (accepted_preserves as_prefs ip_prefs Hwf st r rest
                       l1 b l2 o Hinv Hq Hl Hall Ho Hbetter). }
    destruct (IH st1 (h ++ [(r, t)]) Hinv1 Hrun) as (h2 & -> & Hturns).
    exists ((r, t) :: h2). rewrite <- app_assoc. split; [done|].
    by eapply turns_from_cons.
Qed.

End engine_turns.

(** C5 (as the code has it). On well-formed, complete preference maps,
    in every turn of the run the requester taken from the head of the
    queue proposes to the blocks of its preference list in the order of
    the list, starting with its most-preferred block, until a block
    accepts it (the block is free, or ranks it before the requester it
    holds) or the list is exhausted, every block before that having
    rejected it; it proposes to no block twice within the turn. *)
Theorem gale_shapley_turns_scan_from_top `{Countable AS, Countable IP}
    (as_prefs : list (AS * list IP)) (ip_prefs : list (IP * list AS))
    (fuel : nat) :
  well_formed as_prefs ip_prefs →
  (enough_fuel as_prefs ip_prefs ≤ fuel)%nat →
  ∃ st h, gale_shapley_run as_prefs ip_prefs fuel = Some (Ok (st, h))
    ∧ turns_from as_prefs ip_prefs (initial_state as_prefs ip_prefs) h st
    ∧ turns_scan_from_top as_prefs h.
Proof.
  intros Hwf Hfuel.
  destruct (gale_shapley_run_ends as_prefs ip_prefs Hwf fuel Hfuel)
    as (st & h & Hrun & Hinv & Hq & Hh & Hlen).
  exists st, h. split; [done|]. split; [|done].
  destruct (initial_invariant as_prefs ip_prefs Hwf) as [Hinit _].
  destruct (run_turns as_prefs ip_prefs Hwf fuel _ [] st h Hinit Hrun)
    as (h2 & -> & Hturns).
  done.
Qed.

(** * Further properties *)

(** ** Networks as ranges of addresses *)

Section network_ranges.

Lemma testbit_above a i : 0 ≤ a ≤ ALL_ONES → 32 ≤ i → Z.testbit a i = false.
Proof.
  unfold ALL_ONES. intros Ha Hi. destruct (decide (a = 0)) as [->|Hne].
  - apply Z.bits_0.
  - apply Z.bits_above_log2; [lia|].
    assert (Z.log2 a < 32) by (apply Z.log2_lt_pow2; lia). lia.
Qed.

(** Masking with a netmask shifted left by [d] clears the low
    [32 - p + d] bits of an address. *)
Lemma land_shifted_mask a p d :
  0 ≤ a ≤ ALL_ONES → 0 ≤ p ≤ 32 → 0 ≤ d →
  Z.land a (Z.shiftl (ip_int_from_prefix p) d)
  = Z.shiftl (Z.shiftr a (32 - p + d)) (32 - p + d).
Proof.
  intros Ha Hp Hd. apply Z.bits_inj'. intros i Hi. rewrite Z.land_spec.
  unfold ip_int_from_prefix. change ALL_ONES with (Z.ones 32).
  destruct (Z.ltb_spec i (32 - p + d)) as [Hlow|Hhigh].
  - rewrite (Z.shiftl_spec_low _ (32 - p + d) i) by lia.
    destruct (Z.ltb_spec i d) as [Hid|Hid].
    + rewrite (Z.shiftl_spec_low _ d i) by lia. apply andb_false_r.
    + rewrite Z.shiftl_spec, Z.lxor_spec, Z.shiftr_spec by lia.
      rewrite !Z.testbit_ones_nonneg by lia.
      replace (i - d <? 32) with true by (symmetry; apply Z.ltb_lt; lia).
      replace (i - d + p <? 32) with true by (symmetry; apply Z.ltb_lt; lia).
      apply andb_false_r.
  - rewrite (Z.shiftl_spec _ (32 - p + d) i), Z.shiftr_spec by lia.
    replace (i - (32 - p + d) + (32 - p + d)) with i by lia.
    destruct (Z.ltb_spec i 32) as [Hi32|Hi32].
    + rewrite Z.shiftl_spec, Z.lxor_spec, Z.shiftr_spec by lia.
      rewrite !Z.testbit_ones_nonneg by lia.
      replace (i - d <? 32) with true by (symmetry; apply Z.ltb_lt; lia).
      replace (i - d + p <? 32) with false by (symmetry; apply Z.ltb_ge; lia).
      apply andb_true_r.
    + by rewrite (testbit_above a i).
Qed.

Lemma clear_low_idemp a s :
  0 ≤ s → a / 2 ^ s * 2 ^ s / 2 ^ s * 2 ^ s = a / 2 ^ s * 2 ^ s.
Proof. intros Hs. rewrite Z.div_mul; [done|]. apply Z.pow_nonzero; lia. Qed.

Lemma ip_network_ok c n : ip_network c = Ok n → network_ok n.
Proof.
  intros Hn. pose proof (network_address_range c n Hn) as Hr.
  unfold ip_network in Hn. repeat case_bool_decide; simplify_eq.
  unfold max_prefixlen in *. simpl in *.
  split; [done|]. split; [done|]. simpl.
  rewrite <- (Z.shiftl_0_r (ip_int_from_prefix (cidr_prefix c))).
  rewrite (land_shifted_mask (cidr_addr c) (cidr_prefix c) 0) by (done || lia).
  rewrite Z.add_0_r, Z.shiftl_mul_pow2, Z.shiftr_div_pow2 by lia.
  symmetry. apply clear_low_idemp. lia.
Qed.

Lemma hostmask_Zones n :
  0 ≤ prefixlen n ≤ 32 → hostmask n = Z.ones (32 - prefixlen n).
Proof.
  intros Hp. rewrite hostmask_shiftr, Z.shiftr_div_pow2 by lia.
  change ALL_ONES with (Z.ones 32). by rewrite Z.ones_div_pow2 by lia.
Qed.

(** The last address of a network. *)
Lemma broadcast_address_add n :
  network_ok n →
  broadcast_address n = network_address n + 2 ^ (32 - prefixlen n) - 1.
Proof.
  intros (Hp & Ha & Hclear). unfold broadcast_address.
  rewrite hostmask_Zones by done.
  pose proof (Z.add_lor_land (network_address n)
                (Z.ones (32 - prefixlen n))) as Hadd.
  assert (Z.land (network_address n) (Z.ones (32 - prefixlen n)) = 0)
    as Hdisj.
  { rewrite Z.land_ones, Hclear by lia. apply Z.mod_mul.
    apply Z.pow_nonzero; lia. }
  pose proof (Z.ones_equiv (32 - prefixlen n)). lia.
Qed.

(** [a.supernet_of(b)]: [a] is not longer than [b] and [b]'s address lies
    in the range of [a]. *)
Lemma supernet_of_iff a b :
  network_ok a → network_ok b →
  supernet_of a b = true
  ↔ prefixlen a ≤ prefixlen b
    ∧ network_address b / 2 ^ (32 - prefixlen a)
      = network_address a / 2 ^ (32 - prefixlen a).
Proof.
  intros Ha Hb. unfold supernet_of.
  rewrite andb_true_iff, !Z.leb_le, !broadcast_address_add by done.
  destruct Ha as (Hpa & Hra & Hca), Hb as (Hpb & Hrb & Hcb).
  set (qa := 32 - prefixlen a) in *. set (qb := 32 - prefixlen b) in *.
  assert (0 < 2 ^ qa) by (apply Z.pow_pos_nonneg; lia).
  assert (0 < 2 ^ qb) by (apply Z.pow_pos_nonneg; lia).
  set (ua := network_address a / 2 ^ qa) in *.
  set (ub := network_address b / 2 ^ qb) in *.
  split.
  - intros [Hle Hge].
    assert (qb ≤ qa) as Hq.
    { apply (Z.pow_le_mono_r_iff 2); lia. }
    split; [lia|]. symmetry. apply (Z.div_unique_pos _ _ _ (network_address b - ua * 2 ^ qa)); lia.
  - intros [Hp Hdiv].
    assert (2 ^ qa = 2 ^ qb * 2 ^ (qa - qb)) as Hpow.
    { rewrite <- Z.pow_add_r by lia. f_equal. lia. }
    assert (0 < 2 ^ (qa - qb)) by (apply Z.pow_pos_nonneg; lia).
    pose proof (Z.mul_div_le (network_address b) (2 ^ qa)) as Hlo.
    pose proof (Z.mul_succ_div_gt (network_address b) (2 ^ qa)) as Hhi.
    rewrite Hdiv in Hlo, Hhi. split; [lia|].
    assert (ub < (ua + 1) * 2 ^ (qa - qb)); [|nia]. nia.
Qed.

End network_ranges.

Section shared_prefix.

(** The two addresses agree on their [j] leading bits exactly when the
    common prefix is at least [j] long. *)
Lemma leading_bits_ge_iff a b j :
  0 ≤ a ≤ ALL_ONES → 0 ≤ b ≤ ALL_ONES → 0 ≤ j ≤ 32 →
  j ≤ leading_bits_agree 32 a b ↔ a / 2 ^ (32 - j) = b / 2 ^ (32 - j).
Proof.
  intros Ha Hb Hj.
  destruct (leading_bits_agree_longest 32 a b) as (Hr & Heq & Hne).
  change (Z.of_nat 32) with 32 in *.
  rewrite <- !Z.shiftr_div_pow2 by lia. split.
  - intros Hle. apply Z.bits_inj'. intros i Hi.
    rewrite !Z.shiftr_spec by lia.
    destruct (Z.ltb_spec (i + (32 - j)) 32); [apply Heq; lia|].
    by rewrite !testbit_above by (done || lia).
  - intros Hsh.
    destruct (Z.le_gt_cases j (leading_bits_agree 32 a b)) as [|Hlt];
      [done|exfalso].
    apply Hne; [lia|].
    set (c := leading_bits_agree 32 a b) in *.
    assert (∀ x, Z.testbit x (32 - 1 - c)
                 = Z.testbit (Z.shiftr x (32 - j)) (j - 1 - c)) as Hbit.
    { intros x. rewrite Z.shiftr_spec by lia. f_equal. lia. }
    by rewrite !Hbit, Hsh.
Qed.

Lemma get_common_prefix_length_ge_iff x y j :
  network_ok x → network_ok y → 0 ≤ j ≤ 32 →
  j ≤ get_common_prefix_length x y
  ↔ network_address x / 2 ^ (32 - j) = network_address y / 2 ^ (32 - j).
Proof.
  intros (_ & Hx & _) (_ & Hy & _) Hj.
  rewrite get_common_prefix_length_spec by done.
  by apply leading_bits_ge_iff.
Qed.

Lemma get_common_prefix_length_comm x y :
  network_ok x → network_ok y →
  get_common_prefix_length x y = get_common_prefix_length y x.
Proof.
  intros (_ & Hx & _) (_ & Hy & _).
  rewrite !get_common_prefix_length_spec by done.
  apply leading_bits_agree_sym.
Qed.

Lemma get_common_prefix_length_range x y :
  network_ok x → network_ok y → 0 ≤ get_common_prefix_length x y ≤ 32.
Proof.
  intros (_ & Hx & _) (_ & Hy & _).
  rewrite get_common_prefix_length_spec by done.
  apply (leading_bits_agree_longest 32).
Qed.

(** One network contains the other exactly when the common prefix covers
    the shorter of the two prefix lengths. *)
Lemma supernet_either_iff a b :
  network_ok a → network_ok b →
  supernet_of a b || supernet_of b a = true
  ↔ Z.min (prefixlen a) (prefixlen b) ≤ get_common_prefix_length a b.
Proof.
  intros Ha Hb. rewrite orb_true_iff, !supernet_of_iff by done.
  pose proof (get_common_prefix_length_ge_iff a b (prefixlen a) Ha Hb
                (proj1 Ha)) as Hja.
  pose proof (get_common_prefix_length_ge_iff a b (prefixlen b) Ha Hb
                (proj1 Hb)) as Hjb.
  split.
  - intros [[Hle Heq]|[Hle Heq]].
    + symmetry in Heq. apply Hja in Heq. lia.
    + apply Hjb in Heq. lia.
  - intros Hmin. destruct (Z.le_gt_cases (prefixlen a) (prefixlen b)).
    + left. split; [done|]. symmetry. apply Hja. lia.
    + right. split; [lia|]. apply Hjb. lia.
Qed.

(** [n.supernet(new_prefix=k - 1)] for [1 ≤ k ≤ prefixlen n] clears the
    low [33 - k] bits of the address. *)
Lemma supernet_clear n k :
  network_ok n → 1 ≤ k ≤ prefixlen n →
  supernet n (k - 1)
  = Ok {| network_address :=
            network_address n / 2 ^ (33 - k) * 2 ^ (33 - k);
          prefixlen := k - 1 |}.
Proof.
  intros (Hp & Ha & _) Hk. unfold supernet.
  replace (prefixlen n =? 0) with false by (symmetry; apply Z.eqb_neq; lia).
  replace (prefixlen n <? k - 1) with false
    by (symmetry; apply Z.ltb_ge; lia).
  replace (prefixlen n - (prefixlen n - (k - 1)) <? 0) with false
    by (symmetry; apply Z.ltb_ge; lia).
  unfold netmask.
  rewrite land_shifted_mask by (done || lia).
  replace (32 - prefixlen n + (prefixlen n - (k - 1))) with (33 - k) by lia.
  rewrite Z.shiftl_mul_pow2, Z.shiftr_div_pow2 by lia.
  do 2 f_equal. lia.
Qed.

End shared_prefix.

(** X1. Two well-formed blocks are reported as aggregatable exactly when
    their network addresses share at least [k - 1] leading bits, [k] being
    the shorter of the two prefix lengths. *)
Theorem can_aggregate_iff_shared_prefix (A B : cidr) :
  valid A → valid B →
  ∃ nA nB, ip_network A = Ok nA ∧ ip_network B = Ok nB
    ∧ can_aggregate A B
      = Ok (bool_decide (Z.min (prefixlen nA) (prefixlen nB) - 1
                         ≤ get_common_prefix_length nA nB)).
Proof.
  intros HA HB. eexists _, _.
  split; [by apply ip_network_valid|]. split; [by apply ip_network_valid|].
  pose proof (ip_network_ok A _ (ip_network_valid A HA)) as HnA.
  pose proof (ip_network_ok B _ (ip_network_valid B HB)) as HnB.
  unfold can_aggregate.
  rewrite (ip_network_valid A HA), (ip_network_valid B HB). simpl.
  set (nA := Network _ (cidr_prefix A)) in *.
  set (nB := Network _ (cidr_prefix B)) in *.
  pose proof (supernet_either_iff nA nB HnA HnB) as Hsup.
  pose proof (get_common_prefix_length_range nA nB HnA HnB) as Hrange.
  change (cidr_prefix A) with (prefixlen nA).
  change (cidr_prefix B) with (prefixlen nB).
  destruct (supernet_of nA nB || supernet_of nB nA) eqn:Hor.
  - rewrite bool_decide_eq_true_2; [done|].
    assert (Z.min (prefixlen nA) (prefixlen nB)
            ≤ get_common_prefix_length nA nB) by (by apply Hsup). lia.
  - assert (get_common_prefix_length nA nB
            < Z.min (prefixlen nA) (prefixlen nB)) as Hlt.
    { destruct (Z.le_gt_cases (Z.min (prefixlen nA) (prefixlen nB))
                  (get_common_prefix_length nA nB)) as [Hle|]; [|done].
      by apply Hsup in Hle. }
    replace (if prefixlen nB <? prefixlen nA
             then prefixlen nB else prefixlen nA)
      with (Z.min (prefixlen nA) (prefixlen nB))
      by (destruct (Z.ltb_spec (prefixlen nB) (prefixlen nA)); lia).
    assert (1 ≤ Z.min (prefixlen nA) (prefixlen nB) ≤ prefixlen nA
            ∧ Z.min (prefixlen nA) (prefixlen nB) ≤ prefixlen nB
            ∧ Z.min (prefixlen nA) (prefixlen nB) ≤ 32) as (Hk1 & Hk2 & Hk3).
    { destruct HnA as (? & _), HnB as (? & _). lia. }
    set (k := Z.min (prefixlen nA) (prefixlen nB)) in *.
    rewrite (supernet_clear nA k), (supernet_clear nB k) by (done || lia).
    simpl. unfold network_eqb, netmask. simpl.
    rewrite Z.eqb_refl, andb_true_r.
    change (Z.land (cidr_addr A) (ip_int_from_prefix (cidr_prefix A)))
      with (network_address nA).
    change (Z.land (cidr_addr B) (ip_int_from_prefix (cidr_prefix B)))
      with (network_address nB).
    pose proof (get_common_prefix_length_ge_iff nA nB (k - 1) HnA HnB)
      as Hagree.
    replace (32 - (k - 1)) with (33 - k) in Hagree by lia.
    assert (0 < 2 ^ (33 - k)) by (apply Z.pow_pos_nonneg; lia).
    destruct (Z.eqb_spec (network_address nA / 2 ^ (33 - k) * 2 ^ (33 - k))
                (network_address nB / 2 ^ (33 - k) * 2 ^ (33 - k)))
      as [Heq|Hne]; simpl.
    + rewrite bool_decide_eq_true_2; [done|]. apply Hagree; [lia|nia].
    + rewrite bool_decide_eq_false_2; [done|]. intros Hle.
      apply Hne. by rewrite (proj1 (Hagree ltac:(lia)) Hle).
Qed.

Section malformed_blocks.

Lemma ip_network_invalid c : ¬ valid c → ip_network c = Raise ValueError.
Proof.
  intros Hc. unfold ip_network. repeat case_bool_decide; try done.
  destruct Hc. by split.
Qed.

Lemma ranking_for_as_invalid subject_net (ip_blocks : list cidr) :
  ¬ Forall valid ip_blocks →
  ranking_for_as subject_net ip_blocks = Raise ValueError.
Proof.
  induction ip_blocks as [|ip rest IH]; intros Hbad; simpl.
  - destruct Hbad. constructor.
  - destruct (decide (valid ip)) as [Hip|Hip].
    + rewrite (ip_network_valid ip Hip). simpl. rewrite IH; [done|].
      intros Hrest. apply Hbad. by constructor.
    + by rewrite (ip_network_invalid ip Hip).
Qed.

Lemma ranking_for_ip_invalid {K} subject_net
    (autonomousSystems : list (K * cidr)) :
  ¬ Forall (λ e, valid e.2) autonomousSystems →
  ranking_for_ip subject_net autonomousSystems = Raise ValueError.
Proof.
  induction autonomousSystems as [|[as_id as_cidr] rest IH];
    intros Hbad; simpl.
  - destruct Hbad. constructor.
  - destruct (decide (valid as_cidr)) as [Has|Has].
    + rewrite (ip_network_valid as_cidr Has). simpl. rewrite IH; [done|].
      intros Hrest. apply Hbad. by constructor.
    + by rewrite (ip_network_invalid as_cidr Has).
Qed.

End malformed_blocks.

(** On well-formed blocks of which neither contains the other, both
    calls of [supernet] in the [try] block return. *)
Lemma try_block_supernets A B nA nB :
  ip_network A = Ok nA → ip_network B = Ok nB →
  supernet_of nA nB || supernet_of nB nA = false →
  let smaller_prefix :=
    if prefixlen nB <? prefixlen nA then prefixlen nB else prefixlen nA in
  ∃ supernet1 supernet2,
    supernet nA (smaller_prefix - 1) = Ok supernet1
    ∧ supernet nB (smaller_prefix - 1) = Ok supernet2
    ∧ can_aggregate A B = Ok (network_eqb supernet1 supernet2).
Proof.
  intros HA HB Hor smaller_prefix.
  pose proof (ip_network_ok A nA HA) as HnA.
  pose proof (ip_network_ok B nB HB) as HnB.
  pose proof (supernet_either_iff nA nB HnA HnB) as Hsup.
  pose proof (get_common_prefix_length_range nA nB HnA HnB) as Hrange.
  assert (get_common_prefix_length nA nB
          < Z.min (prefixlen nA) (prefixlen nB)) as Hlt.
  { destruct (Z.le_gt_cases (Z.min (prefixlen nA) (prefixlen nB))
                (get_common_prefix_length nA nB)) as [Hle|]; [|done].
    apply Hsup in Hle. congruence. }
  assert (smaller_prefix = Z.min (prefixlen nA) (prefixlen nB)) as Hk.
  { unfold smaller_prefix.
    destruct (Z.ltb_spec (prefixlen nB) (prefixlen nA)); lia. }
  assert (1 ≤ smaller_prefix ≤ prefixlen nA
          ∧ smaller_prefix ≤ prefixlen nB) as (Hk1 & Hk2).
  { destruct HnA as (? & _), HnB as (? & _). lia. }
  eexists _, _.
  split; [apply supernet_clear; [done|lia]|].
  split; [apply supernet_clear; [done|lia]|].
  unfold can_aggregate. rewrite HA, HB. simpl. rewrite Hor.
  fold smaller_prefix.
  rewrite (supernet_clear nA smaller_prefix),
    (supernet_clear nB smaller_prefix) by (done || lia).
  simpl. by destruct (network_eqb _ _).
Qed.

(** X2. [can_aggregate] raises [ValueError] exactly when one of the two
    blocks is malformed, and never [KeyError].  Its [except] branch is
    never taken on well-formed blocks: either the supernet test answers
    [True], or both calls of [supernet] in the [try] block return and the
    result is the comparison of the two supernets. *)
Theorem can_aggregate_raises_iff (A B : cidr) :
  (can_aggregate A B = Raise ValueError ↔ ¬ (valid A ∧ valid B))
  ∧ can_aggregate A B ≠ Raise KeyError
  ∧ (∀ nA nB,
       ip_network A = Ok nA → ip_network B = Ok nB →
       if supernet_of nA nB || supernet_of nB nA
       then can_aggregate A B = Ok true
       else
         let smaller_prefix :=
           if prefixlen nB <? prefixlen nA
           then prefixlen nB else prefixlen nA in
         ∃ supernet1 supernet2,
           supernet nA (smaller_prefix - 1) = Ok supernet1
           ∧ supernet nB (smaller_prefix - 1) = Ok supernet2
           ∧ can_aggregate A B = Ok (network_eqb supernet1 supernet2)).
Proof.
  split; [|split].
  - destruct (decide (valid A)) as [HA|HA].
    + destruct (decide (valid B)) as [HB|HB].
      * destruct (can_aggregate_returns A B HA HB) as [v ->].
        split; [done|]. intros []. by split.
      * unfold can_aggregate.
        rewrite (ip_network_valid A HA), (ip_network_invalid B HB). simpl.
        split; [|done]. by intros _ [_ ?].
    + unfold can_aggregate. rewrite (ip_network_invalid A HA). simpl.
      split; [|done]. by intros _ [? _].
  - unfold can_aggregate.
    destruct (ip_network A) as [nA|e] eqn:HA; simpl;
      [|by apply ip_network_raises in HA as ->].
    destruct (ip_network B) as [nB|e] eqn:HB; simpl;
      [|by apply ip_network_raises in HB as ->].
    destruct (orb _ _); [done|].
    by destruct (try_block_returns nA nB
                   ((if prefixlen nB <? prefixlen nA
                     then prefixlen nB else prefixlen nA) - 1)) as [v ->].
  - intros nA nB HA HB.
    destruct (supernet_of nA nB || supernet_of nB nA) eqn:Hor.
    + unfold can_aggregate. rewrite HA, HB. simpl. by rewrite Hor.
    + by apply try_block_supernets.
Qed.

(** X3. The common prefix of two well-formed blocks is between 0 and 32
    bits long, and is 32 bits long exactly when the two network addresses
    are equal, whatever the prefix lengths. *)
Theorem get_common_prefix_length_full (x y : cidr) :
  valid x → valid y →
  ∃ nx ny, ip_network x = Ok nx ∧ ip_network y = Ok ny
    ∧ 0 ≤ get_common_prefix_length nx ny ≤ 32
    ∧ (get_common_prefix_length nx ny = 32
       ↔ network_address nx = network_address ny).
Proof.
  intros Hx Hy. eexists _, _.
  split; [by apply ip_network_valid|]. split; [by apply ip_network_valid|].
  pose proof (ip_network_ok x _ (ip_network_valid x Hx)) as Hnx.
  pose proof (ip_network_ok y _ (ip_network_valid y Hy)) as Hny.
  set (nx := Network _ (cidr_prefix x)) in *.
  set (ny := Network _ (cidr_prefix y)) in *.
  pose proof (get_common_prefix_length_range nx ny Hnx Hny) as Hrange.
  split; [done|].
  pose proof (get_common_prefix_length_ge_iff nx ny 32 Hnx Hny) as Hfull.
  change (2 ^ (32 - 32)) with 1 in Hfull. rewrite !Z.div_1_r in Hfull.
  split; [intros Heq; apply Hfull; lia|].
  intros Heq. apply Hfull in Heq; lia.
Qed.

(** X4. The score that both ranking functions give a pair of well-formed
    blocks lies between 0 and 96, and is 96 exactly when the two blocks
    denote the same network. *)
Theorem total_score_range (x y : cidr) :
  valid x → valid y →
  ∃ nx ny, ip_network x = Ok nx ∧ ip_network y = Ok ny
    ∧ 0 ≤ total_score_for_as nx ny ≤ 96
    ∧ 0 ≤ total_score_for_ip nx ny ≤ 96
    ∧ (total_score_for_as nx ny = 96 ↔ nx = ny)
    ∧ (total_score_for_ip nx ny = 96 ↔ nx = ny).
Proof.
  intros Hx Hy. eexists _, _.
  split; [by apply ip_network_valid|]. split; [by apply ip_network_valid|].
  pose proof (ip_network_ok x _ (ip_network_valid x Hx)) as Hnx.
  pose proof (ip_network_ok y _ (ip_network_valid y Hy)) as Hny.
  set (nx := Network _ (cidr_prefix x)) in *.
  set (ny := Network _ (cidr_prefix y)) in *.
  pose proof (get_common_prefix_length_range nx ny Hnx Hny) as Hrange.
  pose proof (get_common_prefix_length_ge_iff nx ny 32 Hnx Hny) as Hfull.
  change (2 ^ (32 - 32)) with 1 in Hfull. rewrite !Z.div_1_r in Hfull.
  assert (0 ≤ prefixlen nx ≤ 32 ∧ 0 ≤ prefixlen ny ≤ 32) as [Hpx Hpy].
  { split; [apply Hnx|apply Hny]. }
  assert (∀ n m : IPv4Network, n = m
            ↔ network_address n = network_address m
              ∧ prefixlen n = prefixlen m) as Hnet.
  { intros [a p] [b q]. simpl. split; [by intros [= -> ->]|].
    by intros [-> ->]. }
  change (total_score_for_ip nx ny) with (total_score_for_as nx ny).
  unfold total_score_for_as. rewrite Hnet.
  split; [lia|]. split; [lia|].
  assert (get_common_prefix_length nx ny * 2
            + (32 - Z.abs (prefixlen nx - prefixlen ny)) = 96
          ↔ network_address nx = network_address ny
            ∧ prefixlen nx = prefixlen ny); [|done].
  split.
  - intros Hsc. split; [apply Hfull; lia|lia].
  - intros [Ha Hp]. apply Hfull in Ha; lia.
Qed.

(** X5. The two ranking functions raise [ValueError] exactly when the
    subject or one of the candidates is malformed, and raise nothing
    else; in particular an empty candidate list is ranked without error. *)
Theorem rank_raises_iff {K} (subject : cidr) (ip_blocks : list cidr)
    (autonomousSystems : list (K * cidr)) :
  (rank_ip_blocks_for_as subject ip_blocks = Raise ValueError
   ↔ ¬ (valid subject ∧ Forall valid ip_blocks))
  ∧ rank_ip_blocks_for_as subject ip_blocks ≠ Raise KeyError
  ∧ (rank_as_for_ip_blocks subject autonomousSystems = Raise ValueError
     ↔ ¬ (valid subject ∧ Forall (λ e, valid e.2) autonomousSystems))
  ∧ rank_as_for_ip_blocks subject autonomousSystems ≠ Raise KeyError.
Proof.
  unfold rank_ip_blocks_for_as, rank_as_for_ip_blocks.
  destruct (decide (valid subject)) as [Hs|Hs].
  - rewrite (ip_network_valid subject Hs). simpl.
    assert (∀ P : Prop, ¬ (valid subject ∧ P) ↔ ¬ P) as Hnot by tauto.
    rewrite !Hnot. split; [|split; [|split]].
    + destruct (decide (Forall valid ip_blocks)) as [Hl|Hl].
      * destruct (ranking_for_as_valid
                    (Network (Z.land (cidr_addr subject)
                                (ip_int_from_prefix (cidr_prefix subject)))
                       (cidr_prefix subject)) ip_blocks Hl)
          as (ranking & -> & _). simpl. by split.
      * by rewrite ranking_for_as_invalid.
    + destruct (decide (Forall valid ip_blocks)) as [Hl|Hl].
      * destruct (ranking_for_as_valid
                    (Network (Z.land (cidr_addr subject)
                                (ip_int_from_prefix (cidr_prefix subject)))
                       (cidr_prefix subject)) ip_blocks Hl)
          as (ranking & -> & _). done.
      * by rewrite ranking_for_as_invalid.
    + destruct (decide (Forall (λ e : K * cidr, valid e.2)
                          autonomousSystems)) as [Hl|Hl].
      * destruct (ranking_for_ip_valid
                    (Network (Z.land (cidr_addr subject)
                                (ip_int_from_prefix (cidr_prefix subject)))
                       (cidr_prefix subject)) autonomousSystems Hl)
          as (ranking & -> & _). simpl. by split.
      * by rewrite ranking_for_ip_invalid.
    + destruct (decide (Forall (λ e : K * cidr, valid e.2)
                          autonomousSystems)) as [Hl|Hl].
      * destruct (ranking_for_ip_valid
                    (Network (Z.land (cidr_addr subject)
                                (ip_int_from_prefix (cidr_prefix subject)))
                       (cidr_prefix subject)) autonomousSystems Hl)
          as (ranking & -> & _). done.
      * by rewrite ranking_for_ip_invalid.
  - rewrite (ip_network_invalid subject Hs). simpl.
    repeat split; try done; by intros _ [? _].
Qed.

(** ** More on the stable matching engine *)

Section engine_outcome.
Context {AS IP : Type} `{!EqDecision AS, !Countable AS}
  `{!EqDecision IP, !Countable IP}.
Variable as_prefs : list (AS * list IP).
Variable ip_prefs : list (IP * list AS).
Hypothesis Hwf : well_formed as_prefs ip_prefs.

Implicit Types (r c : AS) (b : IP) (M : gmap AS IP).

Local Abbreviation matching := (matching as_prefs ip_prefs).
Local Abbreviation stable := (stable as_prefs ip_prefs).
Local Abbreviation invariant := (invariant as_prefs ip_prefs).

(** With the queue empty, an unmatched requester has been turned down by
    every block, so every block is held. *)
Lemma invariant_covers (st : @state AS _ _ IP _ _) :
  invariant st → free_as st = [] →
  (∀ r, r ∈ as_prefs.*1 → is_Some (engagements st !! r))
  ∨ (∀ b, b ∈ ip_prefs.*1 → ∃ r, engagements st !! r = Some b).
Proof.
  intros Hinv Hq.
  destruct (decide (Forall (λ r, is_Some (engagements st !! r))
                      as_prefs.*1)) as [Hall|Hnot].
  { left. by apply Forall_forall. }
  right. apply not_Forall_Exists in Hnot; [|apply _].
  apply Exists_exists in Hnot as (r & Hr & Hnone). simpl in Hnone.
  apply eq_None_not_Some in Hnone. intros b Hb.
  destruct (dict_get_elem as_prefs r Hr) as [l Hl].
  destruct (inv_settled _ _ _ Hinv r b) as (h & lb & Hp & _);
    [done|rewrite Hq; apply not_elem_of_nil| |].
  - exists l. split; [done|]. rewrite Hnone.
    by rewrite (wf_as_list as_prefs ip_prefs Hwf r l Hl).
  - exists h. by apply (inv_inverse _ _ _ Hinv).
Qed.

Lemma matching_size_le M :
  matching M →
  (size M ≤ length as_prefs)%nat ∧ (size M ≤ length ip_prefs)%nat.
Proof.
  intros [Hin Hinj]. destruct Hwf as (HndR & HndB & _).
  rewrite <- length_map_to_list. split.
  - rewrite <- (length_fmap fst (map_to_list M)),
      <- (length_fmap fst as_prefs).
    apply submseteq_length, NoDup_submseteq; [apply NoDup_fst_map_to_list|].
    intros r [[r' b] [-> Hrb]]%list_elem_of_fmap.
    apply elem_of_map_to_list in Hrb. by destruct (Hin _ _ Hrb).
  - rewrite <- (length_fmap snd (map_to_list M)),
      <- (length_fmap fst ip_prefs).
    apply submseteq_length, NoDup_submseteq.
    + apply NoDup_fmap_2_strong; [|apply NoDup_map_to_list].
      intros [r1 b1] [r2 b2] H1%elem_of_map_to_list H2%elem_of_map_to_list.
      simpl. intros <-. f_equal. by eapply Hinj.
    + intros b [[r b'] [-> Hrb]]%list_elem_of_fmap.
      apply elem_of_map_to_list in Hrb. by destruct (Hin _ _ Hrb).
Qed.

Lemma matching_all_requesters M :
  (∀ r, r ∈ as_prefs.*1 → is_Some (M !! r)) →
  (length as_prefs ≤ size M)%nat.
Proof.
  intros Hall. destruct Hwf as (HndR & _).
  rewrite <- length_map_to_list, <- (length_fmap fst (map_to_list M)),
    <- (length_fmap fst as_prefs).
  apply submseteq_length, NoDup_submseteq; [done|].
  intros r [b Hb]%Hall. apply list_elem_of_fmap. exists (r, b).
  split; [done|]. by apply elem_of_map_to_list.
Qed.

Lemma matching_all_blocks M :
  (∀ b, b ∈ ip_prefs.*1 → ∃ r, M !! r = Some b) →
  (length ip_prefs ≤ size M)%nat.
Proof.
  intros Hall. destruct Hwf as (_ & HndB & _).
  rewrite <- length_map_to_list, <- (length_fmap snd (map_to_list M)),
    <- (length_fmap fst ip_prefs).
  apply submseteq_length, NoDup_submseteq; [done|].
  intros b [r Hr]%Hall. apply list_elem_of_fmap. exists (r, b).
  split; [done|]. by apply elem_of_map_to_list.
Qed.

(** A matching as large as one side holds every member of that side. *)
Lemma matching_full_requesters M r :
  matching M → size M = length as_prefs → r ∈ as_prefs.*1 →
  is_Some (M !! r).
Proof.
  intros [Hin Hinj] Hsize Hr. destruct Hwf as (HndR & _).
  assert ((map_to_list M).*1 ≡ₚ as_prefs.*1) as Hperm.
  { apply submseteq_length_Permutation.
    - apply NoDup_submseteq; [apply NoDup_fst_map_to_list|].
      intros r' [[r'' b] [-> Hrb]]%list_elem_of_fmap.
      apply elem_of_map_to_list in Hrb. by destruct (Hin _ _ Hrb).
    - rewrite !length_fmap, length_map_to_list. lia. }
  rewrite <- Hperm in Hr.
  apply list_elem_of_fmap in Hr as [[r' b] [-> Hrb]].
  apply elem_of_map_to_list in Hrb. by exists b.
Qed.

Lemma matching_full_blocks M b :
  matching M → size M = length ip_prefs → b ∈ ip_prefs.*1 →
  ∃ r, M !! r = Some b.
Proof.
  intros [Hin Hinj] Hsize Hb. destruct Hwf as (_ & HndB & _).
  assert ((map_to_list M).*2 ≡ₚ ip_prefs.*1) as Hperm.
  { apply submseteq_length_Permutation.
    - apply NoDup_submseteq.
      + apply NoDup_fmap_2_strong; [|apply NoDup_map_to_list].
        intros [r1 b1] [r2 b2] H1%elem_of_map_to_list
          H2%elem_of_map_to_list.
        simpl. intros <-. f_equal. by eapply Hinj.
      + intros b' [[r b''] [-> Hrb]]%list_elem_of_fmap.
        apply elem_of_map_to_list in Hrb. by destruct (Hin _ _ Hrb).
    - rewrite !length_fmap, length_map_to_list. lia. }
  rewrite <- Hperm in Hb.
  apply list_elem_of_fmap in Hb as [[r b'] [-> Hrb]].
  apply elem_of_map_to_list in Hrb. by exists r.
Qed.

(** The size of the final matching. *)
Lemma invariant_size (st : @state AS _ _ IP _ _) :
  invariant st → free_as st = [] →
  size (engagements st) = (length as_prefs `min` length ip_prefs)%nat.
Proof.
  intros Hinv Hq.
  pose proof (invariant_matching as_prefs ip_prefs st Hinv) as HM.
  destruct (matching_size_le _ HM) as [Hn Hm].
  destruct (invariant_covers st Hinv Hq) as [Hall|Hall].
  - apply matching_all_requesters in Hall. lia.
  - apply matching_all_blocks in Hall. lia.
Qed.

(** In any stable matching a block held at the end of the run is held by
    the same requester or by one the block ranks before it. *)
Lemma invariant_block_pessimal (st : @state AS _ _ IP _ _) M r b :
  invariant st → free_as st = [] →
  matching M → stable M →
  engagements st !! r = Some b →
  ∃ r' lb, M !! r' = Some b ∧ dict_get ip_prefs b = Ok lb
    ∧ (r' = r ∨ prefers lb r' r).
Proof.
  intros Hinv Hq HM Hst Hrb.
  destruct (inv_engaged _ _ _ Hinv r b Hrb) as [Hr Hb].
  destruct (dict_get_elem as_prefs r Hr) as [l Hl].
  destruct (dict_get_elem ip_prefs b Hb) as [lb Hlb].
  pose proof (wf_as_list as_prefs ip_prefs Hwf r l Hl) as Hpl.
  pose proof (wf_ip_list as_prefs ip_prefs Hwf b lb Hlb) as Hplb.
  destruct (decide (M !! r = Some b)) as [HMr|HMr].
  { exists r, lb. split; [done|]. split; [done|]. by left. }
  assert (requester_wants as_prefs M r b) as Hwants.
  { exists l. split; [done|]. destruct (M !! r) as [b'|] eqn:HMr';
      [|by rewrite Hpl].
    destruct (invariant_optimal as_prefs ip_prefs Hwf st M r b'
                Hinv Hq HM Hst HMr') as (b0 & l0 & Hb0 & Hl0 & Hbest).
    assert (b0 = b) as -> by congruence.
    assert (l0 = l) as -> by congruence.
    destruct Hbest as [->|?]; [done|done]. }
  destruct (decide (Exists (λ r', M !! r' = Some b) as_prefs.*1))
    as [Hheld|Hfree].
  - apply Exists_exists in Hheld as (r' & Hr' & HMr').
    exists r', lb. split; [done|]. split; [done|].
    destruct (decide (r' = r)) as [|Hne]; [by left|right].
    destruct (prefers_total lb r' r) as [|Hworse];
      [by rewrite Hplb..|done|done|].
    destruct (Hst r b). split; [done|]. split; [done|].
    exists lb. split; [done|]. right. by exists r'.
  - destruct (Hst r b). split; [done|]. split; [done|].
    exists lb. split; [done|]. left. split; [by rewrite Hplb|].
    intros r' HMr'. apply Hfree. apply Exists_exists. exists r'.
    split; [|done]. by destruct (proj1 HM r' b HMr').
Qed.

End engine_outcome.

(** X6. On well-formed, complete preference maps the matching returned by
    [gale_shapley] has as many pairs as the shorter side has members:
    with no more requesters than blocks every requester is matched, with
    no more blocks than requesters every block is held. *)
Theorem gale_shapley_matches_shorter_side `{Countable AS, Countable IP}
    (as_prefs : list (AS * list IP)) (ip_prefs : list (IP * list AS))
    (fuel : nat) :
  well_formed as_prefs ip_prefs →
  (enough_fuel as_prefs ip_prefs ≤ fuel)%nat →
  ∃ M, gale_shapley as_prefs ip_prefs fuel = Some (Ok M)
    ∧ size M = (length as_prefs `min` length ip_prefs)%nat
    ∧ ((length as_prefs ≤ length ip_prefs)%nat →
       ∀ r, r ∈ as_prefs.*1 → is_Some (M !! r))
    ∧ ((length ip_prefs ≤ length as_prefs)%nat →
       ∀ b, b ∈ ip_prefs.*1 → ∃ r, M !! r = Some b).
Proof.
  intros Hwf Hfuel.
  destruct (gale_shapley_run_ends as_prefs ip_prefs Hwf fuel Hfuel)
    as (st & h & Hrun & Hinv & Hq & _).
  exists (engagements st). unfold gale_shapley. rewrite Hrun.
  split; [done|].
  pose proof (invariant_size as_prefs ip_prefs Hwf st Hinv Hq) as Hsize.
  pose proof (invariant_matching as_prefs ip_prefs st Hinv) as HM.
  split; [done|]. split.
  - intros Hle r Hr.
    apply (matching_full_requesters as_prefs ip_prefs Hwf); [done|lia|done].
  - intros Hle b Hb.
    apply (matching_full_blocks as_prefs ip_prefs Hwf); [done|lia|done].
Qed.

(** X7. On well-formed, complete preference maps the matching returned by
    [gale_shapley] is the worst stable matching for the blocks: a block
    held in it is held in every stable matching, by the same requester or
    by one the block ranks before it. *)
Theorem gale_shapley_block_pessimal `{Countable AS, Countable IP}
    (as_prefs : list (AS * list IP)) (ip_prefs : list (IP * list AS))
    (fuel : nat) :
  well_formed as_prefs ip_prefs →
  (enough_fuel as_prefs ip_prefs ≤ fuel)%nat →
  ∃ M, gale_shapley as_prefs ip_prefs fuel = Some (Ok M)
    ∧ ∀ M', matching as_prefs ip_prefs M' → stable as_prefs ip_prefs M' →
        ∀ r b, M !! r = Some b →
          ∃ r' lb, M' !! r' = Some b ∧ dict_get ip_prefs b = Ok lb
            ∧ (r' = r ∨ prefers lb r' r).
Proof.
  intros Hwf Hfuel.
  destruct (gale_shapley_run_ends as_prefs ip_prefs Hwf fuel Hfuel)
    as (st & h & Hrun & Hinv & Hq & _).
  exists (engagements st). unfold gale_shapley. rewrite Hrun.
  split; [done|]. intros M' HM' Hst' r b Hrb.
  by eapply invariant_block_pessimal.
Qed.

Section dict_order.
Context `{EqDecision K} {V : Type}.
Implicit Types (d : list (K * V)) (k : K) (v : V).

Lemma dict_get_raises d k e : dict_get d k = Raise e → e = KeyError ∧ k ∉ d.*1.
Proof.
  induction d as [|[k' v'] d IH]; simpl.
  - intros [= <-]. split; [done|]. apply not_elem_of_nil.
  - case_decide as Hk; [done|]. intros [-> Hd]%IH. split; [done|].
    apply not_elem_of_cons. by split.
Qed.

Lemma dict_get_NoDup d k v : NoDup d.*1 → (k, v) ∈ d → dict_get d k = Ok v.
Proof.
  induction d as [|[k' v'] d IH]; simpl; [by intros _ ?%elem_of_nil|].
  intros [Hnotin Hnd]%NoDup_cons [[= -> ->]|Hin]%elem_of_cons.
  - by rewrite decide_True.
  - rewrite decide_False; [by apply IH|].
    intros ->. apply Hnotin. apply list_elem_of_fmap. by exists (k, v).
Qed.

(** A dictionary is looked up the same way whatever the order of its
    items. *)
Lemma dict_get_perm d d' k :
  NoDup d.*1 → d' ≡ₚ d → dict_get d' k = dict_get d k.
Proof.
  intros Hnd Hperm.
  assert (NoDup d'.*1) as Hnd' by (by rewrite Hperm).
  destruct (dict_get d k) as [v|e] eqn:Hd.
  - apply dict_get_Ok in Hd. apply dict_get_NoDup; [done|].
    by rewrite Hperm.
  - apply dict_get_raises in Hd as [-> Hk].
    destruct (dict_get d' k) as [v|e] eqn:Hd'.
    + apply dict_get_Ok in Hd'. destruct Hk.
      apply list_elem_of_fmap. exists (k, v). split; [done|].
      by rewrite <- Hperm.
    + by apply dict_get_raises in Hd' as [-> _].
Qed.

End dict_order.

Section queue_order.
Context {AS IP : Type} `{!EqDecision AS, !Countable AS}
  `{!EqDecision IP, !Countable IP}.
Variables as_prefs as_prefs' : list (AS * list IP).
Variables ip_prefs ip_prefs' : list (IP * list AS).
Hypothesis Hwf : well_formed as_prefs ip_prefs.
Hypothesis Has : as_prefs' ≡ₚ as_prefs.
Hypothesis Hip : ip_prefs' ≡ₚ ip_prefs.

Implicit Types (r : AS) (b : IP) (M : gmap AS IP).

Lemma well_formed_perm : well_formed as_prefs' ip_prefs'.
Proof.
  destruct Hwf as (HndR & HndB & HR & HB).
  split; [by rewrite Has|]. split; [by rewrite Hip|].
  split.
  - rewrite Has. eapply Forall_impl; [exact HR|].
    simpl. intros e ->. by rewrite Hip.
  - rewrite Hip. eapply Forall_impl; [exact HB|].
    simpl. intros e ->. by rewrite Has.
Qed.

Lemma matching_perm M :
  matching as_prefs' ip_prefs' M ↔ matching as_prefs ip_prefs M.
Proof.
  unfold matching. by setoid_rewrite Has; setoid_rewrite Hip.
Qed.

Lemma blocking_pair_perm M r b :
  blocking_pair as_prefs' ip_prefs' M r b
  ↔ blocking_pair as_prefs ip_prefs M r b.
Proof.
  destruct Hwf as (HndR & HndB & _).
  unfold blocking_pair, requester_wants, block_wants.
  by rewrite (dict_get_perm as_prefs as_prefs' r HndR Has),
    (dict_get_perm ip_prefs ip_prefs' b HndB Hip).
Qed.

Lemma stable_perm M :
  stable as_prefs' ip_prefs' M ↔ stable as_prefs ip_prefs M.
Proof.
  unfold stable. split; intros Hst r b Hbp; apply (Hst r b);
    by apply blocking_pair_perm.
Qed.

End queue_order.

(** X8. The result of [gale_shapley] on well-formed maps does not depend
    on the order of the items of the two dictionaries: whichever requester
    is queued first, the same matching comes out. *)
Theorem gale_shapley_order_independent `{Countable AS, Countable IP}
    (as_prefs as_prefs' : list (AS * list IP))
    (ip_prefs ip_prefs' : list (IP * list AS)) (fuel : nat) :
  well_formed as_prefs ip_prefs →
  as_prefs' ≡ₚ as_prefs → ip_prefs' ≡ₚ ip_prefs →
  (enough_fuel as_prefs ip_prefs ≤ fuel)%nat →
  ∃ M, gale_shapley as_prefs ip_prefs fuel = Some (Ok M)
    ∧ gale_shapley as_prefs' ip_prefs' fuel = Some (Ok M).
Proof.
  intros Hwf Has Hip Hfuel.
  pose proof (well_formed_perm _ _ _ _ Hwf Has Hip) as Hwf'.
  assert (enough_fuel as_prefs' ip_prefs' ≤ fuel)%nat as Hfuel'.
  { unfold enough_fuel in *. by rewrite Has, Hip. }
  destruct (gale_shapley_run_ends as_prefs ip_prefs Hwf fuel Hfuel)
    as (st & h & Hrun & Hinv & Hq & _).
  destruct (gale_shapley_run_ends as_prefs' ip_prefs' Hwf' fuel Hfuel')
    as (st' & h' & Hrun' & Hinv' & Hq' & _).
  exists (engagements st). unfold gale_shapley. rewrite Hrun, Hrun'.
  split; [done|]. do 2 f_equal.
  pose proof (invariant_matching _ _ _ Hinv) as HM.
  pose proof (invariant_stable _ _ Hwf _ Hinv Hq) as Hst.
  pose proof (invariant_matching _ _ _ Hinv') as HM'.
  pose proof (invariant_stable _ _ Hwf' _ Hinv' Hq') as Hst'.
  apply (matching_perm _ _ _ _ Has Hip) in HM' as HM'0.
  apply (stable_perm _ _ _ _ Hwf Has Hip) in Hst' as Hst'0.
  apply (matching_perm _ _ _ _ Has Hip) in HM as HM0.
  apply (stable_perm _ _ _ _ Hwf Has Hip) in Hst as Hst0.
  assert (∀ r b', engagements st' !! r = Some b' →
            engagements st !! r = Some b') as Hsame.
  { intros r b' Hb'.
    destruct (invariant_optimal as_prefs ip_prefs Hwf st _ r b'
                Hinv Hq HM'0 Hst'0 Hb') as (b & l & Hb & Hl & Hbest).
    destruct (invariant_optimal as_prefs' ip_prefs' Hwf' st' _ r b
                Hinv' Hq' HM0 Hst0 Hb) as (b2 & l2 & Hb2 & Hl2 & Hbest2).
    assert (b2 = b') as -> by congruence.
    rewrite (dict_get_perm as_prefs as_prefs' r (proj1 Hwf) Has) in Hl2.
    assert (l2 = l) as -> by congruence.
    destruct Hbest as [->|Hp]; [done|].
    destruct Hbest2 as [->|Hp2]; [done|].
    destruct (prefers_irrefl l b). by eapply prefers_trans. }
  apply map_eq. intros r.
  destruct (engagements st' !! r) as [b'|] eqn:Hb';
    [symmetry; by apply Hsame|].
  destruct (engagements st !! r) as [b|] eqn:Hb; [|done].
  destruct (invariant_optimal as_prefs' ip_prefs' Hwf' st' _ r b
              Hinv' Hq' HM0 Hst0 Hb) as (b2 & _ & Hb2 & _). congruence.
Qed.

Section engine_any_input_facts.
Context {AS IP : Type} `{!EqDecision AS, !Countable AS}
  `{!EqDecision IP, !Countable IP}.
Variable as_prefs : list (AS * list IP).
Variable ip_prefs : list (IP * list AS).

Implicit Types (r c : AS) (b : IP) (st : @state AS _ _ IP _ _).

Local Abbreviation cost := (holder_cost ip_prefs).
Local Abbreviation work := (work_left ip_prefs).
Local Abbreviation from_lists := (pairs_from_lists as_prefs ip_prefs).

Local Abbreviation proposals_keyed := (proposals_keyed ip_prefs).

Lemma sum_list_lt (f g : IP → nat) (bs : list IP) b :
  b ∈ bs → (∀ x, g x ≤ f x)%nat → (g b < f b)%nat →
  (sum_list (g <$> bs) < sum_list (f <$> bs))%nat.
Proof.
  intros Hb Hle Hlt.
  assert (∀ l : list IP, sum_list (g <$> l) ≤ sum_list (f <$> l))%nat as Hall.
  { induction l as [|x l IH]; csimpl; [lia|]. pose proof (Hle x). lia. }
  induction bs as [|x bs IH]; [by apply elem_of_nil in Hb|]. csimpl.
  apply elem_of_cons in Hb as [<-|Hb].
  - pose proof (Hall bs). lia.
  - pose proof (Hle x). pose proof (IH Hb). lia.
Qed.

(** After [b] has accepted [r] its cost is smaller, the other costs are
    unchanged. *)
Lemma holder_cost_insert st st' r b (new old : nat) :
  proposals st' = <[b := Some r]> (proposals st) →
  is_Some (proposals st !! b) → proposals_keyed st →
  cost st' b = new → cost st b = old → (new < old)%nat →
  proposals_keyed st'
  ∧ (sum_list (cost st' <$> ip_prefs.*1) + 1
     ≤ sum_list (cost st <$> ip_prefs.*1))%nat.
Proof.
  intros Hp Hsome Hkeyed Hnew Hold Hlt. split.
  - intros b'. rewrite Hp. destruct (decide (b' = b)) as [->|Hne].
    + intros _. by apply Hkeyed.
    + rewrite lookup_insert_ne by done. apply Hkeyed.
  - assert (sum_list (cost st' <$> ip_prefs.*1)
            < sum_list (cost st <$> ip_prefs.*1))%nat; [|lia].
    apply (sum_list_lt _ _ _ b); [by apply Hkeyed| |lia].
    intros x. destruct (decide (x = b)) as [->|Hne]; [lia|].
    unfold holder_cost. by rewrite Hp, lookup_insert_ne.
Qed.

(** A turn that does not raise leaves less work, or the same work when
    every block turned the requester down. *)
Lemma propose_work r full l st tried st' t :
  propose ip_prefs r l st tried = Ok (st', t) →
  dict_get as_prefs r = Ok full → (∀ b, b ∈ l → b ∈ full) →
  proposals_keyed st → from_lists (engagements st) →
  proposals_keyed st' ∧ from_lists (engagements st')
  ∧ (work st' ≤ work st)%nat.
Proof.
  intros Hrun Hfull. revert tried Hrun.
  induction l as [|b l IH]; intros tried Hrun Hl Hkeyed Hpairs; simpl in Hrun.
  { by simplify_eq. }
  unfold map_get in Hrun.
  destruct (proposals st !! b) as [o|] eqn:Ho; simpl in Hrun; [|done].
  assert (b ∈ ip_prefs.*1) as Hb by (apply Hkeyed; by rewrite Ho).
  assert (∀ M : gmap AS IP, from_lists M →
            from_lists (<[r := b]> M)) as Hins.
  { intros M HM r' b'. destruct (decide (r' = r)) as [->|Hne].
    - rewrite lookup_insert_eq. intros [= <-]. split; [|done].
      exists full. split; [done|]. apply Hl. by left.
    - rewrite lookup_insert_ne by done. apply HM. }
  assert (∀ (M : gmap AS IP) c, from_lists M →
            from_lists (delete c M)) as Hdel.
  { intros M c HM r' b'. destruct (decide (r' = c)) as [->|Hne].
    - by rewrite lookup_delete_eq.
    - rewrite lookup_delete_ne by done. apply HM. }
  destruct o as [c|].
  - destruct (dict_get ip_prefs b) as [lb|] eqn:Hlb; simpl in Hrun; [|done].
    destruct (list_index r lb) as [i|] eqn:Hi; simpl in Hrun; [|done].
    destruct (list_index c lb) as [j|] eqn:Hj; simpl in Hrun; [|done].
    destruct (i <? j)%nat eqn:Hij.
    + apply Nat.ltb_lt in Hij. simplify_eq.
      match goal with |- proposals_keyed ?s ∧ _ => set (st' := s) end.
      destruct (holder_cost_insert st st' r b i j) as [Hk Hsum];
        [done|by rewrite Ho|done| | |done|].
      { unfold holder_cost. simpl.
        by rewrite lookup_insert_eq, Hlb, Hi. }
      { unfold holder_cost. by rewrite Ho, Hlb, Hj. }
      split; [done|]. split.
      * simpl. case_decide; [apply Hdel|]; by apply Hins.
      * unfold work_left. simpl free_as.
        rewrite length_app. simpl. lia.
    + apply (IH (tried ++ [b])); [done| |done..].
      intros b' Hb'. apply Hl. by right.
  - simplify_eq.
    match goal with |- proposals_keyed ?s ∧ _ => set (st' := s) end.
    destruct (holder_cost_insert st st' r b (cost st' b)
                (cost st b)) as [Hk Hsum];
      [done|by rewrite Ho|done..| |].
    { unfold holder_cost. simpl.
      rewrite lookup_insert_eq, Ho.
      destruct (dict_get ip_prefs b) as [lb|]; [|lia].
      destruct (list_index r lb) as [i|] eqn:Hi; [|lia].
      apply list_index_lt_length in Hi. lia. }
    split; [done|]. split; [by apply Hins|].
    unfold work_left. simpl free_as. lia.
Qed.

Lemma run_always_ends fuel st h :
  proposals_keyed st → from_lists (engagements st) →
  (work st ≤ fuel)%nat →
  ∃ res, run as_prefs ip_prefs fuel st h = Some res
    ∧ ∀ st' h', res = Ok (st', h') → from_lists (engagements st').
Proof.
  revert st h.
  induction fuel as [|fuel IH]; intros st h Hkeyed Hpairs Hfuel;
    simpl; destruct (free_as st) as [|r rest] eqn:Hq.
  - eexists. split; [done|]. by intros ?? [= <- <-].
  - unfold work_left in Hfuel. rewrite Hq in Hfuel.
    simpl in Hfuel. lia.
  - eexists. split; [done|]. by intros ?? [= <- <-].
  - unfold turn.
    destruct (dict_get as_prefs r) as [full|e] eqn:Hfull; simpl;
      [|by eexists].
    set (st0 := {| free_as := rest; engagements := engagements st;
                   proposals := proposals st |}).
    destruct (propose ip_prefs r full st0 []) as [[st' t]|e] eqn:Hrun;
      [|by eexists].
    destruct (propose_work r full full st0 [] st' t Hrun Hfull)
      as (Hk & Hp & Hwork); [done..|].
    apply IH; [done..|].
    assert (work st0 + 1 = work st)%nat as Hpop; [|lia].
    unfold work_left. rewrite Hq. simpl free_as. cbn [length].
    change (holder_cost ip_prefs st0) with (holder_cost ip_prefs st). lia.
Qed.

Lemma initial_state_keyed :
  proposals_keyed (initial_state as_prefs ip_prefs).
Proof.
  intros b [o Hb]. simpl in Hb. apply elem_of_list_to_map_2 in Hb.
  apply list_elem_of_fmap in Hb as (ip & [= -> _] & Hip). done.
Qed.

End engine_any_input_facts.

(** X9. On any two dictionaries, well-formed or not, the [while] loop of
    [gale_shapley] ends: it returns or raises within
    [fuel_for_any_input] turns; and when it returns, every requester of
    the result is paired with a block of its own list that is a key of
    [ip_prefs]. *)
Theorem gale_shapley_always_ends `{Countable AS, Countable IP}
    (as_prefs : list (AS * list IP)) (ip_prefs : list (IP * list AS))
    (fuel : nat) :
  (fuel_for_any_input as_prefs ip_prefs ≤ fuel)%nat →
  ∃ res, gale_shapley as_prefs ip_prefs fuel = Some res
    ∧ ∀ M, res = Ok M → pairs_from_lists as_prefs ip_prefs M.
Proof.
  intros Hfuel.
  destruct (run_always_ends as_prefs ip_prefs fuel
              (initial_state as_prefs ip_prefs) [])
    as (res & Hrun & Hres); [apply initial_state_keyed| |done|].
  { intros r b. simpl. by rewrite lookup_empty. }
  unfold gale_shapley, gale_shapley_run. rewrite Hrun.
  destruct res as [[st h]|e]; eexists; (split; [done|]).
  - intros M [= <-]. by eapply Hres.
  - done.
Qed.

Section fuel_bound.
Context {AS IP : Type} `{!EqDecision AS, !Countable AS}
  `{!EqDecision IP, !Countable IP}.

(** For a dictionary [ip_prefs] the bound counts the requesters and, for
    every block, one more than the length of its list. *)
Lemma fuel_for_any_input_sum (as_prefs : list (AS * list IP))
    (ip_prefs : list (IP * list AS)) :
  NoDup ip_prefs.*1 →
  fuel_for_any_input as_prefs ip_prefs
  = (length as_prefs + sum_list ((λ e, S (length e.2)) <$> ip_prefs))%nat.
Proof.
  intros Hnd. unfold fuel_for_any_input, work_left. simpl.
  rewrite length_fmap. f_equal. rewrite <- list_fmap_compose.
  f_equal. apply list_fmap_ext. intros i [b lb] Hlb. simpl.
  apply list_elem_of_lookup_2 in Hlb. unfold holder_cost. simpl.
  rewrite (dict_get_NoDup ip_prefs b lb Hnd Hlb).
  destruct (initial_proposals_dom ip_prefs b) as [o Ho].
  { apply list_elem_of_fmap. by exists (b, lb). }
  rewrite Ho. by apply initial_proposals_None in Ho as ->.
Qed.

End fuel_bound.

Section counting.
Context `{EqDecision K}.
Variable autonomousSystems : list (K * cidr).
Implicit Types (items : list (K * cidr)) (e : K * cidr).

Lemma count_loop_filter items (acc : Z) :
  Forall (known_pair autonomousSystems) items →
  count_loop autonomousSystems items acc
  = Ok (acc + Z.of_nat (length (filter (aggregating autonomousSystems)
                                   items))).
Proof.
  intros Hall. revert acc.
  induction Hall as [|[as_id ip] rest (c & Hc & Hvc & Hvip) Hrest IH];
    intros acc; simpl.
  - f_equal. lia.
  - simpl in Hc. rewrite Hc. simpl.
    destruct (can_aggregate_returns c ip Hvc Hvip) as [v Hv].
    rewrite Hv. simpl. rewrite IH, filter_cons.
    destruct (decide (aggregating autonomousSystems (as_id, ip)))
      as [(c' & Hc' & Hv')|Hno]; simpl in *.
    + assert (c' = c) as -> by congruence.
      assert (v = true) as -> by congruence. f_equal. lia.
    + destruct v; [|done]. destruct Hno. by exists c.
Qed.

End counting.

(** X10. When every requester of the matching is a key of
    [autonomousSystems] and all blocks are well formed,
    [count_aggregations] returns the number of pairs whose two blocks can
    be aggregated: a number between 0 and the size of the matching, the
    same in whatever order the pairs are listed. *)
Theorem count_aggregations_counts `{EqDecision K}
    (matchings autonomousSystems : list (K * cidr)) :
  Forall (known_pair autonomousSystems) matchings →
  ∃ n : Z, count_aggregations matchings autonomousSystems = Ok n
    ∧ n = Z.of_nat (length (filter (aggregating autonomousSystems)
                              matchings))
    ∧ 0 ≤ n ≤ Z.of_nat (length matchings)
    ∧ ∀ matchings', matchings' ≡ₚ matchings →
        count_aggregations matchings' autonomousSystems = Ok n.
Proof.
  intros Hall. eexists. unfold count_aggregations.
  split; [by apply count_loop_filter|]. split; [done|]. split.
  - pose proof (length_filter (aggregating autonomousSystems) matchings).
    lia.
  - intros matchings' Hperm. rewrite count_loop_filter by (by rewrite Hperm).
    by rewrite Hperm.
Qed.

Section counting_errors.
Context `{EqDecision K}.
Variable autonomousSystems : list (K * cidr).
Hypothesis Hvalid : Forall (λ e, valid e.2) autonomousSystems.

Lemma count_loop_missing_key (items : list (K * cidr)) (acc : Z) :
  Forall (λ e, valid e.2) items →
  Exists (λ e, e.1 ∉ autonomousSystems.*1) items →
  count_loop autonomousSystems items acc = Raise KeyError.
Proof.
  intros Hitems. revert acc.
  induction Hitems as [|[as_id ip] rest Hip Hrest IH]; intros acc Hex.
  - by apply Exists_nil in Hex.
  - simpl.
    destruct (dict_get autonomousSystems as_id) as [c|x] eqn:Hc; simpl.
    + assert (valid c) as Hvc.
      { apply dict_get_Ok in Hc. rewrite Forall_forall in Hvalid.
        apply (Hvalid _ Hc). }
      destruct (can_aggregate_returns c ip Hvc Hip) as [v ->]. simpl.
      apply IH. apply Exists_cons in Hex as [Hno|Hex]; [|done].
      destruct Hno. simpl. by eapply dict_get_key.
    + by apply dict_get_raises in Hc as [-> _].
Qed.

Lemma known_pairs (items : list (K * cidr)) :
  Forall (λ e, valid e.2) items →
  Forall (λ e, e.1 ∈ autonomousSystems.*1) items →
  Forall (known_pair autonomousSystems) items.
Proof.
  intros Hitems Hkeys. rewrite Forall_forall in Hitems, Hkeys, Hvalid.
  apply Forall_forall. intros e He.
  destruct (dict_get_elem autonomousSystems e.1 (Hkeys e He)) as [c Hc].
  exists c. split; [done|]. split; [|by apply Hitems].
  apply dict_get_Ok in Hc. apply (Hvalid _ Hc).
Qed.

End counting_errors.

(** X11. With well-formed blocks everywhere, [count_aggregations] raises
    [KeyError] exactly when some requester of the matching is not a key
    of [autonomousSystems], and never raises [ValueError]. *)
Theorem count_aggregations_KeyError_iff `{EqDecision K}
    (matchings autonomousSystems : list (K * cidr)) :
  Forall (λ e, valid e.2) autonomousSystems →
  Forall (λ e, valid e.2) matchings →
  (count_aggregations matchings autonomousSystems = Raise KeyError
   ↔ ∃ e, e ∈ matchings ∧ e.1 ∉ autonomousSystems.*1)
  ∧ count_aggregations matchings autonomousSystems ≠ Raise ValueError.
Proof.
  intros Has Hm. unfold count_aggregations.
  destruct (decide (Exists (λ e, e.1 ∉ autonomousSystems.*1) matchings))
    as [Hex|Hno].
  - rewrite (count_loop_missing_key autonomousSystems Has matchings 0 Hm Hex).
    split; [|done]. split; [|done]. intros _.
    by apply Exists_exists in Hex.
  - assert (Forall (λ e, e.1 ∈ autonomousSystems.*1) matchings) as Hkeys.
    { apply Forall_forall. intros e He.
      destruct (decide (e.1 ∈ autonomousSystems.*1)) as [|Hout]; [done|].
      destruct Hno. apply Exists_exists. by exists e. }
    rewrite (count_loop_filter autonomousSystems matchings 0
               (known_pairs autonomousSystems Has matchings Hm Hkeys)).
    split; [|done]. split; [done|].
    intros (e & He & Hout). destruct Hno. apply Exists_exists. by exists e.
Qed.

Section dict_updates.
Context `{EqDecision K}.

Lemma dict_set_fresh {V} (d : list (K * V)) k v :
  k ∉ d.*1 → dict_set d k v = d ++ [(k, v)].
Proof.
  induction d as [|[k' v'] d IH]; simpl; [done|].
  intros [Hne Hk]%not_elem_of_cons. rewrite decide_False by done.
  by rewrite IH.
Qed.

End dict_updates.

Section comprehensions.
Context `{EqDecision K}.

Lemma rank_ip_blocks_for_as_perm (as_block : cidr) (ipBlocks : list cidr) :
  valid as_block → Forall valid ipBlocks →
  ∃ ranked, rank_ip_blocks_for_as as_block ipBlocks = Ok ranked
    ∧ ranked ≡ₚ ipBlocks.
Proof.
  intros Hs Hl. unfold rank_ip_blocks_for_as.
  rewrite (ip_network_valid as_block Hs). simpl.
  destruct (ranking_for_as_valid
              (Network (Z.land (cidr_addr as_block)
                          (ip_int_from_prefix (cidr_prefix as_block)))
                 (cidr_prefix as_block)) ipBlocks Hl)
    as (ranking & -> & <- & _).
  simpl. eexists. split; [done|]. by rewrite sort_desc_perm.
Qed.

Lemma rank_as_for_ip_blocks_perm (ip : cidr)
    (autonomousSystems : list (K * cidr)) :
  valid ip → Forall (λ e, valid e.2) autonomousSystems →
  ∃ ranked, rank_as_for_ip_blocks ip autonomousSystems = Ok ranked
    ∧ ranked ≡ₚ autonomousSystems.*1.
Proof.
  intros Hs Hl. unfold rank_as_for_ip_blocks.
  rewrite (ip_network_valid ip Hs). simpl.
  destruct (ranking_for_ip_valid
              (Network (Z.land (cidr_addr ip)
                          (ip_int_from_prefix (cidr_prefix ip)))
                 (cidr_prefix ip)) autonomousSystems Hl)
    as (ranking & -> & <- & _).
  simpl. eexists. split; [done|].
  rewrite sort_desc_perm, <- !list_fmap_compose.
  by erewrite list_fmap_ext; [|by intros ? [[??]?] _].
Qed.

(** With distinct keys a comprehension lists its items in the order of
    the input, each requester with a ranking of all the blocks. *)
Lemma as_preferences_from_distinct (ipBlocks : list cidr)
    (items : list (K * cidr)) (d : list (K * list cidr)) :
  Forall valid ipBlocks → Forall (λ e, valid e.2) items →
  NoDup (d.*1 ++ items.*1) →
  ∃ new, as_preferences_from ipBlocks items d = Ok (d ++ new)
    ∧ new.*1 = items.*1 ∧ Forall (λ e, e.2 ≡ₚ ipBlocks) new.
Proof.
  intros Hblocks Hitems. revert d.
  induction Hitems as [|[as_id as_block] rest Hv Hrest IH]; intros d Hnd;
    simpl.
  - exists []. by rewrite app_nil_r.
  - destruct (rank_ip_blocks_for_as_perm as_block ipBlocks Hv Hblocks)
      as (ranked & -> & Hperm). simpl.
    apply NoDup_app in Hnd as (Hd & Hdisj & [Hnotin Hnd]%NoDup_cons).
    rewrite dict_set_fresh by (intros Hin; by apply (Hdisj _ Hin); left).
    destruct (IH (d ++ [(as_id, ranked)])) as (new & -> & Hkeys & Hall).
    { rewrite fmap_app, <- app_assoc. simpl. apply NoDup_app.
      split; [done|]. split; [|by constructor]. apply Hdisj. }
    exists ((as_id, ranked) :: new). rewrite <- app_assoc.
    split; [done|]. split; [by rewrite fmap_cons, Hkeys|].
    by constructor.
Qed.

Lemma ip_preferences_from_distinct (autonomousSystems : list (K * cidr))
    (blocks : list cidr) (d : list (cidr * list K)) :
  Forall (λ e, valid e.2) autonomousSystems → Forall valid blocks →
  NoDup (d.*1 ++ blocks) →
  ∃ new, ip_preferences_from autonomousSystems blocks d = Ok (d ++ new)
    ∧ new.*1 = blocks
    ∧ Forall (λ e, e.2 ≡ₚ autonomousSystems.*1) new.
Proof.
  intros Has Hblocks. revert d.
  induction Hblocks as [|ip rest Hv Hrest IH]; intros d Hnd; simpl.
  - exists []. by rewrite app_nil_r.
  - destruct (rank_as_for_ip_blocks_perm ip autonomousSystems Hv Has)
      as (ranked & -> & Hperm). simpl.
    apply NoDup_app in Hnd as (Hd & Hdisj & [Hnotin Hnd]%NoDup_cons).
    rewrite dict_set_fresh by (intros Hin; by apply (Hdisj _ Hin); left).
    destruct (IH (d ++ [(ip, ranked)])) as (new & -> & Hkeys & Hall).
    { rewrite fmap_app, <- app_assoc. simpl. apply NoDup_app.
      split; [done|]. split; [|by constructor]. apply Hdisj. }
    exists ((ip, ranked) :: new). rewrite <- app_assoc.
    split; [done|]. split; [by rewrite fmap_cons, Hkeys|].
    by constructor.
Qed.

(** The two comprehensions of the script on distinct, well-formed
    requesters and blocks. *)
Lemma preferences_built (autonomousSystems : list (K * cidr))
    (ipBlocks : list cidr) :
  NoDup autonomousSystems.*1 → Forall (λ e, valid e.2) autonomousSystems →
  NoDup ipBlocks → Forall valid ipBlocks →
  ∃ as_prefs ip_prefs,
    as_preferences_from ipBlocks autonomousSystems [] = Ok as_prefs
    ∧ ip_preferences_from autonomousSystems ipBlocks [] = Ok ip_prefs
    ∧ as_prefs.*1 = autonomousSystems.*1 ∧ ip_prefs.*1 = ipBlocks
    ∧ well_formed as_prefs ip_prefs.
Proof.
  intros HndA HvA HndB HvB.
  destruct (as_preferences_from_distinct ipBlocks autonomousSystems []
              HvB HvA HndA) as (as_prefs & Has & HkA & HallA).
  destruct (ip_preferences_from_distinct autonomousSystems ipBlocks []
              HvA HvB HndB) as (ip_prefs & Hip & HkB & HallB).
  exists as_prefs, ip_prefs. simpl in Has, Hip.
  do 4 (split; [done|]).
  split; [by rewrite HkA|]. split; [by rewrite HkB|].
  split; [by rewrite HkB|by rewrite HkA].
Qed.

End comprehensions.

(** X12. From requesters with distinct identifiers and distinct blocks, all
    well formed, the two dictionary comprehensions of the script build
    preference maps that meet the precondition of the engine: the keys are
    the requesters and the blocks in input order, every requester ranks
    every block once and every block ranks every requester once. *)
Theorem script_preferences_well_formed `{EqDecision K}
    (autonomousSystems : list (K * cidr)) (ipBlocks : list cidr) :
  NoDup autonomousSystems.*1 → Forall (λ e, valid e.2) autonomousSystems →
  NoDup ipBlocks → Forall valid ipBlocks →
  ∃ as_prefs ip_prefs,
    as_preferences_from ipBlocks autonomousSystems [] = Ok as_prefs
    ∧ ip_preferences_from autonomousSystems ipBlocks [] = Ok ip_prefs
    ∧ as_prefs.*1 = autonomousSystems.*1 ∧ ip_prefs.*1 = ipBlocks
    ∧ well_formed as_prefs ip_prefs.
Proof. apply preferences_built. Qed.

(** X13. On such inputs one round of the script returns a matching that is
    stable for the preference maps it built and pairs as many requesters
    as the shorter of the two sides has members; [count_aggregations]
    applied to that matching, its pairs listed in any order, raises
    nothing and returns a count between 0 and that number. *)
Theorem allocate_stable_and_counted `{Countable K}
    (autonomousSystems : list (K * cidr)) (ipBlocks : list cidr)
    (fuel : nat) :
  NoDup autonomousSystems.*1 → Forall (λ e, valid e.2) autonomousSystems →
  NoDup ipBlocks → Forall valid ipBlocks →
  (length autonomousSystems * S (length ipBlocks) ≤ fuel)%nat →
  ∃ as_prefs ip_prefs M,
    as_preferences_from ipBlocks autonomousSystems [] = Ok as_prefs
    ∧ ip_preferences_from autonomousSystems ipBlocks [] = Ok ip_prefs
    ∧ allocate autonomousSystems ipBlocks fuel = Some (Ok M)
    ∧ stable as_prefs ip_prefs M
    ∧ size M = (length autonomousSystems `min` length ipBlocks)%nat
    ∧ ∀ items, items ≡ₚ map_to_list M →
        ∃ n : Z, count_aggregations items autonomousSystems = Ok n
          ∧ 0 ≤ n ≤ Z.of_nat (length autonomousSystems `min` length ipBlocks).
Proof.
  intros HndA HvA HndB HvB Hfuel.
  destruct (preferences_built autonomousSystems ipBlocks HndA HvA HndB HvB)
    as (as_prefs & ip_prefs & Has & Hip & HkA & HkB & Hwf).
  assert (length as_prefs = length autonomousSystems) as HlenA.
  { by rewrite <- (length_fmap fst as_prefs), HkA, length_fmap. }
  assert (length ip_prefs = length ipBlocks) as HlenB.
  { by rewrite <- (length_fmap fst ip_prefs), HkB. }
  destruct (gale_shapley_run_ends as_prefs ip_prefs Hwf fuel)
    as (st & h & Hrun & Hinv & Hq & _).
  { unfold enough_fuel. by rewrite HlenA, HlenB. }
  exists as_prefs, ip_prefs, (engagements st).
  do 2 (split; [done|]). split.
  { unfold allocate. rewrite Has, Hip. unfold gale_shapley.
    by rewrite Hrun. }
  split; [by apply invariant_stable|].
  pose proof (invariant_size as_prefs ip_prefs Hwf st Hinv Hq) as Hsize.
  rewrite HlenA, HlenB in Hsize. split; [done|].
  intros items Hitems.
  assert (Forall (known_pair autonomousSystems) items) as Hknown.
  { apply known_pairs; [done|..]; apply Forall_forall; intros [r b] Hrb;
      rewrite Hitems in Hrb; apply elem_of_map_to_list in Hrb;
      destruct (inv_engaged _ _ _ Hinv r b Hrb) as [Hr Hb]; simpl.
    - rewrite HkB in Hb. rewrite Forall_forall in HvB. by apply HvB.
    - by rewrite <- HkA. }
  unfold count_aggregations. rewrite count_loop_filter by done.
  eexists. split; [done|].
  pose proof (length_filter (aggregating autonomousSystems) items) as Hle.
  pose proof (Permutation_length Hitems) as Hlen.
  rewrite length_map_to_list, Hsize in Hlen. lia.
Qed.

Section random_baseline.
Context `{EqDecision K}.

Lemma NoDup_fst_zip {V} (ks : list K) (vs : list V) :
  NoDup ks → NoDup (zip ks vs).*1.
Proof.
  intros Hnd. revert vs. induction Hnd as [|k ks Hnotin Hnd IH];
    intros [|v vs]; csimpl; try constructor; [|by apply IH].
  intros [[k' v'] [-> Hin]]%list_elem_of_fmap.
  apply Hnotin. by eapply elem_of_zip_l.
Qed.

Lemma dict_of_pairs_distinct {V} (pairs d : list (K * V)) :
  NoDup (d.*1 ++ pairs.*1) → dict_of_pairs pairs d = d ++ pairs.
Proof.
  revert d. induction pairs as [|[k v] pairs IH]; intros d Hnd; simpl.
  - by rewrite app_nil_r.
  - csimpl in Hnd.
    apply NoDup_app in Hnd as (Hd & Hdisj & [Hnotin Hnd]%NoDup_cons).
    rewrite dict_set_fresh by (intros Hin; by apply (Hdisj _ Hin); left).
    rewrite IH, <- app_assoc; [done|].
    rewrite fmap_app, <- app_assoc. simpl. apply NoDup_app.
    split; [done|]. split; [|by constructor]. apply Hdisj.
Qed.

End random_baseline.

(** The random baseline on well-formed blocks. *)
Lemma random_match_counts `{EqDecision K}
    (autonomousSystems : list (K * cidr)) (ipBlocks shuffled : list cidr) :
  NoDup autonomousSystems.*1 → Forall (λ e, valid e.2) autonomousSystems →
  Forall valid ipBlocks → shuffled ≡ₚ ipBlocks →
  ∃ n : Z,
    random_match_and_count_aggregations autonomousSystems shuffled
    = Ok (zip autonomousSystems.*1 shuffled, n)
    ∧ count_aggregations (zip autonomousSystems.*1 shuffled)
        autonomousSystems = Ok n
    ∧ length (zip autonomousSystems.*1 shuffled)
      = (length autonomousSystems `min` length ipBlocks)%nat
    ∧ 0 ≤ n ≤ Z.of_nat (length autonomousSystems `min` length ipBlocks).
Proof.
  intros HndA HvA HvB Hperm.
  unfold random_match_and_count_aggregations, count_aggregations.
  rewrite dict_of_pairs_distinct by (by apply NoDup_fst_zip).
  simpl app.
  assert (Forall (known_pair autonomousSystems)
            (zip autonomousSystems.*1 shuffled)) as Hknown.
  { apply known_pairs; [done|..]; apply Forall_forall; intros [r b] Hrb;
      simpl.
    - apply elem_of_zip_r in Hrb. rewrite Hperm in Hrb.
      rewrite Forall_forall in HvB. by apply HvB.
    - by apply elem_of_zip_l in Hrb. }
  rewrite count_loop_filter by done. simpl.
  assert (length (zip autonomousSystems.*1 shuffled)
          = (length autonomousSystems `min` length ipBlocks)%nat) as Hlen.
  { by rewrite length_zip, length_fmap, Hperm. }
  eexists. do 3 (split; [done|]).
  pose proof (length_filter (aggregating autonomousSystems)
                (zip autonomousSystems.*1 shuffled)). lia.
Qed.

(** X14. Whatever order the shuffle leaves the blocks in, the random
    baseline pairs the requesters, in the order of the dictionary, with the
    blocks at the same positions of the shuffled list, as many pairs as the
    shorter side has members; on well-formed blocks it raises nothing, and
    its count is the one [count_aggregations] gives for that pairing,
    between 0 and the number of pairs. *)
Theorem random_match_pairs_and_counts `{EqDecision K}
    (autonomousSystems : list (K * cidr)) (ipBlocks shuffled : list cidr) :
  NoDup autonomousSystems.*1 → Forall (λ e, valid e.2) autonomousSystems →
  Forall valid ipBlocks → shuffled ≡ₚ ipBlocks →
  ∃ n : Z,
    random_match_and_count_aggregations autonomousSystems shuffled
    = Ok (zip autonomousSystems.*1 shuffled, n)
    ∧ count_aggregations (zip autonomousSystems.*1 shuffled)
        autonomousSystems = Ok n
    ∧ length (zip autonomousSystems.*1 shuffled)
      = (length autonomousSystems `min` length ipBlocks)%nat
    ∧ 0 ≤ n ≤ Z.of_nat (length autonomousSystems `min` length ipBlocks).
Proof. apply random_match_counts. Qed.

Section repeated_entries.
Context {AS IP : Type} `{!EqDecision AS, !Countable AS}
  `{!EqDecision IP, !Countable IP}.
Variable as_prefs : list (AS * list IP).
Variable ip_prefs : list (IP * list AS).

Implicit Types (r : AS) (b : IP) (st : @state AS _ _ IP _ _).

Local Abbreviation skipped := (skipped ip_prefs).

(** What the loop body does with block [b] depends on the state only:
    it goes on to the next block, or it ends the turn. *)
Lemma propose_step_cases st r b :
  skipped st r b
  ∨ (∃ st', ∀ l t, propose ip_prefs r (b :: l) st t = Ok (st', t ++ [b]))
  ∨ (∃ e, ∀ l t, propose ip_prefs r (b :: l) st t = Raise e).
Proof.
  unfold skipped. simpl. unfold map_get.
  destruct (proposals st !! b) as [[c|]|]; simpl;
    [|right; left; by eexists|right; right; by eexists].
  destruct (dict_get ip_prefs b) as [lb|]; simpl;
    [|right; right; by eexists].
  destruct (list_index r lb) as [i|]; simpl; [|right; right; by eexists].
  destruct (list_index c lb) as [j|]; simpl; [|right; right; by eexists].
  destruct (i <? j)%nat; [right; left; by eexists|by left].
Qed.

Lemma same_state_refl {S T} (x : result (S * T)) : same_state x x.
Proof. by destruct x as [[]|]. Qed.

(** A block met again in the same turn is skipped again. *)
Lemma propose_first_occurrences st r seen l t t' :
  (∀ b, b ∈ seen → skipped st r b) →
  same_state (propose ip_prefs r l st t)
             (propose ip_prefs r (first_occurrences seen l) st t').
Proof.
  revert seen t t'. induction l as [|b l IH]; intros seen t t' Hseen.
  { done. }
  cbn [first_occurrences]. case_decide as Hb.
  - rewrite (Hseen b Hb). by apply IH.
  - destruct (propose_step_cases st r b) as [Hskip|[[st' Hstop]|[e Hstop]]].
    + rewrite !Hskip. apply IH. intros b' [->|Hb']%elem_of_cons; auto.
    + by rewrite !Hstop.
    + by rewrite !Hstop.
Qed.

Lemma dict_get_drop_repeats r :
  dict_get (drop_repeats as_prefs) r
  = match dict_get as_prefs r with
    | Ok l => Ok (first_occurrences [] l)
    | Raise e => Raise e
    end.
Proof.
  unfold drop_repeats. induction as_prefs as [|[r' l'] d IH]; csimpl; [done|].
  case_decide; [done|apply IH].
Qed.

Lemma turn_drop_repeats r rest st :
  same_state (turn as_prefs ip_prefs r rest st)
             (turn (drop_repeats as_prefs) ip_prefs r rest st).
Proof.
  unfold turn. rewrite dict_get_drop_repeats.
  destruct (dict_get as_prefs r) as [l|e]; simpl; [|done].
  apply propose_first_occurrences. by intros b ?%elem_of_nil.
Qed.

Lemma run_drop_repeats fuel st h h' :
  match run as_prefs ip_prefs fuel st h,
        run (drop_repeats as_prefs) ip_prefs fuel st h' with
  | Some x, Some y => same_state x y
  | None, None => True
  | _, _ => False
  end.
Proof.
  revert st h h'. induction fuel as [|fuel IH]; intros st h h'; simpl;
    destruct (free_as st) as [|r rest]; try done.
  pose proof (turn_drop_repeats r rest st) as Hturn.
  destruct (turn as_prefs ip_prefs r rest st) as [[st1 t1]|e1],
    (turn (drop_repeats as_prefs) ip_prefs r rest st) as [[st2 t2]|e2];
    simpl in Hturn; try done.
  subst. apply IH.
Qed.

Lemma initial_state_drop_repeats :
  initial_state (drop_repeats as_prefs) ip_prefs
  = initial_state as_prefs ip_prefs.
Proof.
  unfold initial_state, drop_repeats. f_equal.
  rewrite <- list_fmap_compose. by apply list_fmap_ext.
Qed.

End repeated_entries.

Lemma gale_shapley_drop_repeats `{Countable AS, Countable IP}
    (as_prefs : list (AS * list IP)) (ip_prefs : list (IP * list AS))
    (fuel : nat) :
  gale_shapley (drop_repeats as_prefs) ip_prefs fuel
  = gale_shapley as_prefs ip_prefs fuel.
Proof.
  unfold gale_shapley, gale_shapley_run.
  rewrite initial_state_drop_repeats.
  pose proof (run_drop_repeats as_prefs ip_prefs fuel
                (initial_state as_prefs ip_prefs) [] []) as Hrun.
  destruct (run as_prefs ip_prefs fuel _ _) as [[[st1 h1]|e1]|],
    (run (drop_repeats as_prefs) ip_prefs fuel _ _) as [[[st2 h2]|e2]|];
    simpl in Hrun; try done; by subst.
Qed.

(** X15. [gale_shapley] treats a block that is repeated in a requester's
    list as if only its first occurrence were there: dropping the repeats
    from every list changes neither the matching returned nor the
    exception raised, for any two dictionaries. *)
Theorem gale_shapley_ignores_repeats `{Countable AS, Countable IP}
    (as_prefs : list (AS * list IP)) (ip_prefs : list (IP * list AS))
    (fuel : nat) :
  gale_shapley (drop_repeats as_prefs) ip_prefs fuel
  = gale_shapley as_prefs ip_prefs fuel.
Proof. apply gale_shapley_drop_repeats. Qed.

Section first_occurrence_facts.
Context `{EqDecision X}.
Implicit Types (x y a : X) (l seen : list X).

Lemma elem_of_first_occurrences seen l x :
  x ∈ first_occurrences seen l ↔ x ∈ l ∧ x ∉ seen.
Proof.
  revert seen. induction l as [|a l IH]; intros seen; simpl.
  { rewrite elem_of_nil. tauto. }
  case_decide as Ha.
  - rewrite IH, elem_of_cons. split; [tauto|].
    intros [[->|?] ?]; tauto.
  - rewrite !elem_of_cons, IH, elem_of_cons.
    destruct (decide (x = a)) as [->|]; tauto.
Qed.

Lemma NoDup_first_occurrences seen l : NoDup (first_occurrences seen l).
Proof.
  revert seen. induction l as [|a l IH]; intros seen; simpl.
  { constructor. }
  case_decide; [apply IH|]. constructor; [|apply IH].
  rewrite elem_of_first_occurrences, elem_of_cons. tauto.
Qed.

Lemma first_occurrences_ext seen seen' l :
  (∀ x, x ∈ seen ↔ x ∈ seen') →
  first_occurrences seen l = first_occurrences seen' l.
Proof.
  revert seen seen'. induction l as [|a l IH]; intros seen seen' Hs; simpl.
  { done. }
  destruct (decide (a ∈ seen)) as [Ha|Ha], (decide (a ∈ seen')) as [Ha'|Ha'];
    try (apply Hs in Ha; done); try (apply Hs in Ha'; done).
  - by apply IH.
  - f_equal. apply IH. intros x. rewrite !elem_of_cons, Hs. tauto.
Qed.

Lemma first_occurrences_perm l l' :
  l ≡ₚ l' → first_occurrences [] l ≡ₚ first_occurrences [] l'.
Proof.
  intros Hl. apply NoDup_Permutation; try apply NoDup_first_occurrences.
  intros x. rewrite !elem_of_first_occurrences. by rewrite Hl.
Qed.

Lemma first_occurrences_NoDup l :
  NoDup l → first_occurrences [] l ≡ₚ l.
Proof.
  intros Hl. apply NoDup_Permutation; [apply NoDup_first_occurrences|done|].
  intros x. rewrite elem_of_first_occurrences, elem_of_nil. tauto.
Qed.

Lemma length_first_occurrences seen l :
  (length (first_occurrences seen l) ≤ length l)%nat.
Proof.
  revert seen. induction l as [|a l IH]; intros seen; simpl; [done|].
  case_decide; simpl; [specialize (IH seen)|specialize (IH (a :: seen))];
    lia.
Qed.

Lemma prefers_cons_ne a l x y :
  a ≠ x → a ≠ y → prefers (a :: l) x y ↔ prefers l x y.
Proof.
  intros Hx Hy. unfold prefers. simpl. rewrite !decide_False by done.
  split.
  - intros (i & j & Hi & Hj & Hlt).
    destruct (list_index x l) as [i'|]; [|done].
    destruct (list_index y l) as [j'|]; [|done].
    simplify_eq/=. exists i', j'. repeat split; lia.
  - intros (i & j & -> & -> & Hlt). exists (S i), (S j).
    repeat split; lia.
Qed.

Lemma prefers_cons_first l x y : prefers (x :: l) x y ↔ x ≠ y ∧ y ∈ l.
Proof.
  unfold prefers. simpl. rewrite decide_True by done. split.
  - intros (i & j & [= <-] & Hj & Hlt).
    destruct (decide (x = y)) as [->|Hne]; [simplify_eq/=; lia|].
    split; [done|].
    destruct (list_index y l) as [j'|] eqn:Hy; [|done].
    apply list_index_Ok in Hy as [Hy _]. by eapply list_elem_of_lookup_2.
  - intros [Hne [j Hj]%list_index_elem].
    exists 0%nat, (S j). rewrite decide_False, Hj by done.
    repeat split; lia.
Qed.

Lemma prefers_cons_second l x y : ¬ prefers (y :: l) x y.
Proof.
  unfold prefers. simpl. intros (i & j & _ & Hj & Hlt).
  rewrite decide_True in Hj by done. simplify_eq. lia.
Qed.

(** Dropping the repeated entries of a list leaves the order of the first
    occurrences as it is. *)
Lemma prefers_first_occurrences seen l x y :
  x ∉ seen → y ∉ seen →
  prefers (first_occurrences seen l) x y ↔ prefers l x y.
Proof.
  revert seen. induction l as [|a l IH]; intros seen Hx Hy; simpl; [done|].
  case_decide as Ha.
  - rewrite prefers_cons_ne by (intros ->; done). by apply IH.
  - destruct (decide (a = x)) as [->|Hax].
    { rewrite !prefers_cons_first, elem_of_first_occurrences, elem_of_cons.
      intuition congruence. }
    destruct (decide (a = y)) as [->|Hay].
    { split; intros []%prefers_cons_second. }
    rewrite !prefers_cons_ne by done.
    apply IH; rewrite elem_of_cons; intuition congruence.
Qed.

End first_occurrence_facts.

Section repeats_and_stability.
Context {AS IP : Type} `{!EqDecision AS, !Countable AS}
  `{!EqDecision IP, !Countable IP}.
Variable as_prefs : list (AS * list IP).
Variable ip_prefs : list (IP * list AS).

Implicit Types (r : AS) (b : IP) (M : gmap AS IP).

Lemma drop_repeats_keys : (drop_repeats as_prefs).*1 = as_prefs.*1.
Proof.
  unfold drop_repeats. rewrite <- list_fmap_compose. by apply list_fmap_ext.
Qed.

Lemma requester_wants_drop_repeats M r b :
  requester_wants (drop_repeats as_prefs) M r b ↔ requester_wants as_prefs M r b.
Proof.
  unfold requester_wants. setoid_rewrite dict_get_drop_repeats.
  destruct (dict_get as_prefs r) as [l|e]; [|tauto].
  split.
  - intros (l' & [= <-] & Hw). exists l. split; [done|].
    destruct (M !! r) as [b'|].
    + by rewrite (prefers_first_occurrences []) in Hw
        by apply not_elem_of_nil.
    + by apply elem_of_first_occurrences in Hw as [? _].
  - intros (l' & [= <-] & Hw). eexists. split; [done|].
    destruct (M !! r) as [b'|].
    + by rewrite (prefers_first_occurrences []) by apply not_elem_of_nil.
    + apply elem_of_first_occurrences. split; [done|apply not_elem_of_nil].
Qed.

(** A matching is stable for lists with repeated blocks exactly when it is
    stable for the lists without the repeats. *)
Lemma stable_drop_repeats M :
  stable (drop_repeats as_prefs) ip_prefs M ↔ stable as_prefs ip_prefs M.
Proof.
  unfold stable, blocking_pair.
  by setoid_rewrite requester_wants_drop_repeats.
Qed.

End repeats_and_stability.

Section dict_set_facts.
Context `{EqDecision K} {V : Type}.
Implicit Types (d : list (K * V)) (k : K) (v : V).

Lemma dict_set_keys d k v :
  (dict_set d k v).*1 = if decide (k ∈ d.*1) then d.*1 else d.*1 ++ [k].
Proof.
  induction d as [|[k' v'] d IH].
  { simpl. destruct (decide (k ∈ [])) as [[]%elem_of_nil|]; done. }
  cbn [dict_set]. rewrite fmap_cons. cbn [fst].
  destruct (decide (k' = k)) as [->|Hne].
  - rewrite fmap_cons. cbn [fst].
    destruct (decide (k ∈ k :: d.*1)) as [|[]]; [done|left].
  - rewrite fmap_cons, IH. cbn [fst].
    destruct (decide (k ∈ d.*1)), (decide (k ∈ k' :: d.*1)) as [Hin|Hnot];
      try done.
    + exfalso. apply Hnot. by right.
    + by apply elem_of_cons in Hin as [->|].
Qed.

Lemma dict_set_Forall (P : K * V → Prop) d k v :
  Forall P d → P (k, v) → Forall P (dict_set d k v).
Proof.
  intros Hd Hkv.
  induction Hd as [|[k' v'] d Hk' Hd IH]; simpl; [by repeat constructor|].
  case_decide as Hk; subst; constructor; auto.
Qed.

End dict_set_facts.

Section comprehensions_with_repeats.
Context `{EqDecision K}.

(** A block that occurs again overwrites its own entry: the keys of the
    comprehension are the first occurrences of the blocks. *)
Lemma ip_preferences_from_any (autonomousSystems : list (K * cidr))
    (blocks : list cidr) (d : list (cidr * list K)) :
  Forall (λ e, valid e.2) autonomousSystems → Forall valid blocks →
  Forall (λ e, e.2 ≡ₚ autonomousSystems.*1) d →
  ∃ d', ip_preferences_from autonomousSystems blocks d = Ok d'
    ∧ d'.*1 = d.*1 ++ first_occurrences d.*1 blocks
    ∧ Forall (λ e, e.2 ≡ₚ autonomousSystems.*1) d'.
Proof.
  intros Has Hblocks. revert d.
  induction Hblocks as [|ip rest Hv Hrest IH]; intros d Hd; simpl.
  { exists d. by rewrite app_nil_r. }
  destruct (rank_as_for_ip_blocks_perm ip autonomousSystems Hv Has)
    as (ranked & -> & Hperm). simpl.
  destruct (IH (dict_set d ip ranked)) as (d' & -> & Hkeys & Hall).
  { by apply dict_set_Forall. }
  exists d'. split; [done|]. split; [|done].
  rewrite Hkeys, dict_set_keys.
  destruct (decide (ip ∈ d.*1)) as [Hin|Hnot]; [done|].
  rewrite <- app_assoc. simpl. do 2 f_equal.
  apply first_occurrences_ext. intros x.
  rewrite elem_of_app, !elem_of_cons, elem_of_nil. tauto.
Qed.

(** The two comprehensions of the script when blocks may occur more than
    once in [ipBlocks]. *)
Lemma preferences_built_with_repeats (autonomousSystems : list (K * cidr))
    (ipBlocks : list cidr) :
  NoDup autonomousSystems.*1 → Forall (λ e, valid e.2) autonomousSystems →
  Forall valid ipBlocks →
  ∃ as_prefs ip_prefs,
    as_preferences_from ipBlocks autonomousSystems [] = Ok as_prefs
    ∧ ip_preferences_from autonomousSystems ipBlocks [] = Ok ip_prefs
    ∧ as_prefs.*1 = autonomousSystems.*1
    ∧ Forall (λ e, e.2 ≡ₚ ipBlocks) as_prefs
    ∧ ip_prefs.*1 = first_occurrences [] ipBlocks
    ∧ well_formed (drop_repeats as_prefs) ip_prefs.
Proof.
  intros HndA HvA HvB.
  destruct (as_preferences_from_distinct ipBlocks autonomousSystems []
              HvB HvA HndA) as (as_prefs & Has & HkA & HallA).
  destruct (ip_preferences_from_any autonomousSystems ipBlocks []
              HvA HvB) as (ip_prefs & Hip & HkB & HallB); [constructor|].
  exists as_prefs, ip_prefs. simpl in Has, HkB.
  do 5 (split; [done|]).
  split; [by rewrite drop_repeats_keys, HkA|].
  split; [rewrite HkB; apply NoDup_first_occurrences|].
  split; [|by rewrite drop_repeats_keys, HkA].
  unfold drop_repeats. apply Forall_fmap.
  eapply Forall_impl; [apply HallA|]. intros [r l] Hl. simpl in *.
  rewrite HkB. by apply first_occurrences_perm.
Qed.

End comprehensions_with_repeats.

(** One round of the script on blocks that may occur more than once. *)
Lemma allocate_any_blocks `{Countable K}
    (autonomousSystems : list (K * cidr)) (ipBlocks : list cidr)
    (fuel : nat) :
  NoDup autonomousSystems.*1 → Forall (λ e, valid e.2) autonomousSystems →
  Forall valid ipBlocks →
  (length autonomousSystems * S (length ipBlocks) ≤ fuel)%nat →
  ∃ as_prefs ip_prefs M,
    as_preferences_from ipBlocks autonomousSystems [] = Ok as_prefs
    ∧ ip_preferences_from autonomousSystems ipBlocks [] = Ok ip_prefs
    ∧ ip_prefs.*1 = first_occurrences [] ipBlocks
    ∧ allocate autonomousSystems ipBlocks fuel = Some (Ok M)
    ∧ matching as_prefs ip_prefs M
    ∧ stable as_prefs ip_prefs M
    ∧ size M = (length autonomousSystems
                `min` length (first_occurrences [] ipBlocks))%nat
    ∧ ∀ items, items ≡ₚ map_to_list M →
        ∃ n : Z, count_aggregations items autonomousSystems = Ok n
          ∧ 0 ≤ n ≤ Z.of_nat (size M).
Proof.
  intros HndA HvA HvB Hfuel.
  destruct (preferences_built_with_repeats autonomousSystems ipBlocks
              HndA HvA HvB)
    as (as_prefs & ip_prefs & Has & Hip & HkA & HallA & HkB & Hwf).
  assert (length as_prefs = length autonomousSystems) as HlenA.
  { by rewrite <- (length_fmap fst as_prefs), HkA, length_fmap. }
  assert (length ip_prefs = length (first_occurrences [] ipBlocks)) as HlenB.
  { by rewrite <- (length_fmap fst ip_prefs), HkB. }
  assert (length (drop_repeats as_prefs) = length as_prefs) as HlenD.
  { unfold drop_repeats. by rewrite length_fmap. }
  destruct (gale_shapley_run_ends (drop_repeats as_prefs) ip_prefs Hwf fuel)
    as (st & h & Hrun & Hinv & Hq & _).
  { unfold enough_fuel. rewrite HlenD, HlenA, HlenB.
    pose proof (length_first_occurrences [] ipBlocks). nia. }
  pose proof (invariant_matching _ _ st Hinv) as [HM1 HM2].
  exists as_prefs, ip_prefs, (engagements st).
  do 3 (split; [done|]). split.
  { unfold allocate. rewrite Has, Hip, <- gale_shapley_drop_repeats.
    unfold gale_shapley. by rewrite Hrun. }
  split.
  { split; [|done]. intros r b Hrb. rewrite <- (drop_repeats_keys as_prefs).
    by apply HM1. }
  split; [by apply stable_drop_repeats, invariant_stable|].
  pose proof (invariant_size _ ip_prefs Hwf st Hinv Hq) as Hsize.
  rewrite HlenD, HlenA, HlenB in Hsize. split; [done|].
  intros items Hitems.
  assert (Forall (known_pair autonomousSystems) items) as Hknown.
  { apply known_pairs; [done|..]; apply Forall_forall; intros [r b] Hrb;
      rewrite Hitems in Hrb; apply elem_of_map_to_list in Hrb;
      destruct (HM1 r b Hrb) as [Hr Hb]; simpl.
    - rewrite HkB in Hb. apply elem_of_first_occurrences in Hb as [Hb _].
      rewrite Forall_forall in HvB. by apply HvB.
    - by rewrite <- HkA, <- (drop_repeats_keys as_prefs). }
  unfold count_aggregations. rewrite count_loop_filter by done.
  eexists. split; [done|].
  pose proof (length_filter (aggregating autonomousSystems) items) as Hle.
  pose proof (Permutation_length Hitems) as Hlen.
  rewrite length_map_to_list in Hlen. lia.
Qed.

(** X16. One round of the script does not need the blocks to be distinct.
    From requesters with distinct identifiers and any list of blocks, all
    well formed, it raises nothing; a block that occurs several times in
    [ipBlocks] is one key of [ip_prefs] and is handed out once; the
    matching is stable for the preference maps built and pairs as many
    requesters as the shorter of the requesters and the distinct blocks;
    [count_aggregations] on it returns a count between 0 and that
    number. *)
Theorem allocate_with_repeated_blocks `{Countable K}
    (autonomousSystems : list (K * cidr)) (ipBlocks : list cidr)
    (fuel : nat) :
  NoDup autonomousSystems.*1 → Forall (λ e, valid e.2) autonomousSystems →
  Forall valid ipBlocks →
  (length autonomousSystems * S (length ipBlocks) ≤ fuel)%nat →
  ∃ as_prefs ip_prefs M,
    as_preferences_from ipBlocks autonomousSystems [] = Ok as_prefs
    ∧ ip_preferences_from autonomousSystems ipBlocks [] = Ok ip_prefs
    ∧ ip_prefs.*1 = first_occurrences [] ipBlocks
    ∧ allocate autonomousSystems ipBlocks fuel = Some (Ok M)
    ∧ matching as_prefs ip_prefs M
    ∧ stable as_prefs ip_prefs M
    ∧ size M = (length autonomousSystems
                `min` length (first_occurrences [] ipBlocks))%nat
    ∧ ∀ items, items ≡ₚ map_to_list M →
        ∃ n : Z, count_aggregations items autonomousSystems = Ok n
          ∧ 0 ≤ n ≤ Z.of_nat (size M).
Proof. apply allocate_any_blocks. Qed.

Section generator.
Variable draws : nat → nat.
Implicit Types (k : nat) (c base : cidr).

Lemma choice_elem {X} (seq : list X) k :
  seq ≠ [] → ∃ x, random.choice seq draws k = inr (x, S k) ∧ x ∈ seq.
Proof.
  intros Hseq. unfold random.choice.
  destruct (lookup_lt_is_Some_2 seq (draws k mod length seq)%nat)
    as [x Hx].
  { apply Nat.mod_upper_bound. by destruct seq. }
  rewrite Hx. exists x. split; [done|]. by eapply list_elem_of_lookup_2.
Qed.

Lemma hosts_inner net :
  prefixlen net < 31 →
  hosts net = seqZ (network_address net + 1)
                (broadcast_address net - (network_address net + 1)).
Proof.
  intros Hp. unfold hosts, max_prefixlen.
  destruct (Z.eqb_spec (prefixlen net) (32 - 1)); [lia|].
  destruct (Z.eqb_spec (prefixlen net) 32); [lia|done].
Qed.

(** The four base networks have no host bits set and lie within the
    address space. *)
Lemma base_networks_strict base :
  base ∈ base_networks →
  ∃ net, ip_network_strict base = Ok net ∧ prefixlen net < 31
    ∧ 0 ≤ network_address net
    ∧ network_address net + 1 < broadcast_address net
    ∧ broadcast_address net ≤ ALL_ONES.
Proof.
  unfold base_networks. rewrite !elem_of_cons, elem_of_nil.
  intros [->|[->|[->|[->|[]]]]]; eexists;
    (split; [by vm_compute|]); vm_compute; repeat split; congruence.
Qed.

Lemma random_ip_host base k :
  base ∈ base_networks →
  ∃ net x, ip_network_strict base = Ok net
    ∧ random_ip base draws k = inr (x, S k)
    ∧ network_address net < x < broadcast_address net
    ∧ 0 ≤ x ≤ ALL_ONES.
Proof.
  intros Hbase.
  destruct (base_networks_strict base Hbase)
    as (net & Hnet & Hp & Hlo & Hsize & Hhi).
  unfold random_ip, mbind, rand_bind, lift. rewrite Hnet.
  destruct (choice_elem (hosts net) k) as (x & -> & Hx).
  { rewrite hosts_inner by done. rewrite seqZ_cons by lia. done. }
  exists net, x. do 2 (split; [done|]).
  rewrite hosts_inner in Hx by done. apply elem_of_seqZ in Hx. lia.
Qed.

Lemma random_cidr_prefix (base_ip : Z) k :
  ∃ prefix, random_cidr base_ip draws k = inr (Cidr base_ip prefix, S k)
    ∧ 22 ≤ prefix ≤ 29.
Proof.
  unfold random_cidr, mbind, rand_bind.
  destruct (choice_elem (seqZ 22 (30 - 22)) k) as (p & -> & Hp); [done|].
  exists p. split; [done|]. apply elem_of_seqZ in Hp. lia.
Qed.

(** The three draws that make one block. *)
Lemma one_block {A} (continue : cidr → rand A) k :
  ∃ c, generated c ∧ valid c
    ∧ (base_net ← random.choice base_networks;
       base_ip ← random_ip base_net;
       cidr ← random_cidr base_ip;
       continue cidr) draws k
      = continue c draws (3 + k)%nat.
Proof.
  unfold mbind, rand_bind.
  destruct (choice_elem base_networks k) as (base & -> & Hbase); [done|].
  destruct (random_ip_host base (S k) Hbase)
    as (net & x & Hnet & -> & Hx & Hrange).
  destruct (random_cidr_prefix x (S (S k))) as (p & -> & Hp).
  exists (Cidr x p). split; [|split; [|done]].
  - split; [done|]. by exists base, net.
  - split; [done|]. simpl. unfold max_prefixlen. lia.
Qed.

Lemma systems_loop_distinct (indices : list Z)
    (autonomousSystems : list (string * cidr)) k :
  NoDup (autonomousSystems.*1 ++ ((λ i, "AS" +:+ pretty i) <$> indices)) →
  ∃ new,
    systems_loop indices autonomousSystems draws k
    = inr (autonomousSystems ++ new, (3 * length indices + k)%nat)
    ∧ new.*1 = (λ i, "AS" +:+ pretty i) <$> indices
    ∧ Forall (λ e, generated e.2 ∧ valid e.2) new.
Proof.
  revert autonomousSystems k.
  induction indices as [|i rest IH]; intros d k Hnd.
  { exists []. by rewrite app_nil_r. }
  cbn [systems_loop].
  destruct (one_block
              (λ cidr, systems_loop rest
                         (dict_set d ("AS" +:+ pretty i) cidr)) k)
    as (c & Hgen & Hvalid & ->).
  rewrite fmap_cons in Hnd.
  apply NoDup_app in Hnd as (Hd & Hdisj & [Hnotin Hnd]%NoDup_cons).
  rewrite dict_set_fresh by (intros Hin; by apply (Hdisj _ Hin); left).
  destruct (IH (d ++ [("AS" +:+ pretty i, c)]) (3 + k)%nat)
    as (new & -> & Hkeys & Hall).
  { rewrite fmap_app, <- app_assoc. apply NoDup_app.
    split; [done|]. split; [|by constructor]. apply Hdisj. }
  exists (("AS" +:+ pretty i, c) :: new). rewrite <- app_assoc.
  split; [simpl; do 2 f_equal; lia|].
  split; [by rewrite !fmap_cons, Hkeys|]. by constructor.
Qed.

Lemma blocks_loop_appends (indices : list Z) (ipBlocks : list cidr) k :
  ∃ new,
    blocks_loop indices ipBlocks draws k
    = inr (ipBlocks ++ new, (3 * length indices + k)%nat)
    ∧ length new = length indices
    ∧ Forall (λ c, generated c ∧ valid c) new.
Proof.
  revert ipBlocks k.
  induction indices as [|i rest IH]; intros l k.
  { exists []. by rewrite app_nil_r. }
  cbn [blocks_loop].
  destruct (one_block (λ cidr, blocks_loop rest (l ++ [cidr])) k)
    as (c & Hgen & Hvalid & ->).
  destruct (IH (l ++ [c]) (3 + k)%nat) as (new & -> & Hlen & Hall).
  exists (c :: new). rewrite <- app_assoc.
  split; [simpl; do 2 f_equal; lia|].
  split; [by rewrite !length_cons, Hlen|]. by constructor.
Qed.

Lemma system_names_distinct (m n : Z) :
  NoDup ((λ i : Z, "AS" +:+ pretty i) <$> seqZ m n).
Proof.
  apply NoDup_fmap_2; [|apply NoDup_seqZ].
  intros i j Hij. simpl in Hij. injection Hij as Hij.
  by apply (inj pretty).
Qed.

(** What [generate_as_ip_blocks] returns. *)
Lemma generate_as_ip_blocks_returns (num_as num_blocks : Z) k :
  ∃ autonomousSystems ipBlocks,
    generate_as_ip_blocks num_as num_blocks draws k
    = inr ((autonomousSystems, ipBlocks),
           (3 * (Z.to_nat num_as + Z.to_nat num_blocks) + k)%nat)
    ∧ autonomousSystems.*1 = (λ i : Z, "AS" +:+ pretty i) <$> seqZ 1 num_as
    ∧ NoDup autonomousSystems.*1
    ∧ length ipBlocks = Z.to_nat num_blocks
    ∧ Forall (λ e, generated e.2 ∧ valid e.2) autonomousSystems
    ∧ Forall (λ c, generated c ∧ valid c) ipBlocks.
Proof.
  unfold generate_as_ip_blocks, mbind, rand_bind.
  replace (num_as + 1 - 1) with num_as by lia.
  destruct (systems_loop_distinct (seqZ 1 num_as) [] k)
    as (systems & -> & Hkeys & Hsystems).
  { apply system_names_distinct. }
  destruct (blocks_loop_appends (seqZ 0 num_blocks) []
              (3 * length (seqZ 1 num_as) + k)%nat)
    as (blocks & -> & Hlen & Hblocks).
  rewrite !length_seqZ in *. simpl app.
  exists systems, blocks. split; [unfold mret, rand_ret; do 2 f_equal; lia|].
  split; [done|]. split; [rewrite Hkeys; apply system_names_distinct|].
  done.
Qed.

End generator.

(** X17. Whatever numbers the random generator yields,
    [generate_as_ip_blocks] raises nothing and draws three numbers per
    requester and per block; the requesters are named [AS1], [AS2], ... in
    order, all distinct; there are [num_blocks] blocks; every block made,
    for a requester or for the list, is a host address of one of the four
    base networks with a prefix length from 22 to 29, hence well formed. *)
Theorem generate_as_ip_blocks_well_formed (draws : nat → nat)
    (num_as num_blocks : Z) (k : nat) :
  ∃ autonomousSystems ipBlocks,
    generate_as_ip_blocks num_as num_blocks draws k
    = inr ((autonomousSystems, ipBlocks),
           (3 * (Z.to_nat num_as + Z.to_nat num_blocks) + k)%nat)
    ∧ autonomousSystems.*1 = (λ i : Z, "AS" +:+ pretty i) <$> seqZ 1 num_as
    ∧ NoDup autonomousSystems.*1
    ∧ length ipBlocks = Z.to_nat num_blocks
    ∧ Forall (λ e, generated e.2 ∧ valid e.2) autonomousSystems
    ∧ Forall (λ c, generated c ∧ valid c) ipBlocks.
Proof. apply generate_as_ip_blocks_returns. Qed.

(** X18. One pass of the loop of the script raises nothing, whatever the
    random generator yields and however the shuffle orders the blocks:
    on the requesters and blocks generated, [gale_shapley] returns a
    matching that is stable for the preference maps built from them,
    [count_aggregations] returns a count between 0 and the size of the
    matching, and the random baseline returns a count between 0 and the
    number of its pairs. *)
Theorem script_pass_never_raises (draws : nat → nat)
    (num_as num_blocks : Z) (k fuel : nat) :
  (Z.to_nat num_as * S (Z.to_nat num_blocks) ≤ fuel)%nat →
  ∃ autonomousSystems ipBlocks k' as_prefs ip_prefs M,
    generate_as_ip_blocks num_as num_blocks draws k
    = inr ((autonomousSystems, ipBlocks), k')
    ∧ as_preferences_from ipBlocks autonomousSystems [] = Ok as_prefs
    ∧ ip_preferences_from autonomousSystems ipBlocks [] = Ok ip_prefs
    ∧ allocate autonomousSystems ipBlocks fuel = Some (Ok M)
    ∧ matching as_prefs ip_prefs M
    ∧ stable as_prefs ip_prefs M
    ∧ (∀ items, items ≡ₚ map_to_list M →
         ∃ n : Z, count_aggregations items autonomousSystems = Ok n
           ∧ 0 ≤ n ≤ Z.of_nat (size M))
    ∧ (∀ shuffled, shuffled ≡ₚ ipBlocks →
         ∃ pairs (n : Z),
           random_match_and_count_aggregations autonomousSystems shuffled
           = Ok (pairs, n)
           ∧ 0 ≤ n ≤ Z.of_nat (length pairs)).
Proof.
  intros Hfuel.
  destruct (generate_as_ip_blocks_returns draws num_as num_blocks k)
    as (systems & blocks & Hgen & Hkeys & Hnd & Hlen & Hsystems & Hblocks).
  assert (Forall (λ e : string * cidr, valid e.2) systems) as HvA.
  { eapply Forall_impl; [apply Hsystems|]. by intros ? [_ ?]. }
  assert (Forall valid blocks) as HvB.
  { eapply Forall_impl; [apply Hblocks|]. by intros ? [_ ?]. }
  assert (length systems = Z.to_nat num_as) as HlenA.
  { by rewrite <- (length_fmap fst systems), Hkeys, length_fmap, length_seqZ. }
  destruct (allocate_any_blocks systems blocks fuel Hnd HvA HvB)
    as (as_prefs & ip_prefs & M & Has & Hip & _ & Halloc & HM & Hstable
        & _ & Hcount).
  { by rewrite HlenA, Hlen. }
  exists systems, blocks,
    (3 * (Z.to_nat num_as + Z.to_nat num_blocks) + k)%nat,
    as_prefs, ip_prefs, M.
  do 7 (split; [done|]).
  intros shuffled Hshuffled.
  destruct (random_match_counts systems blocks shuffled Hnd HvA HvB
              Hshuffled) as (n & Hrandom & _ & Hpairs & Hn).
  exists (zip systems.*1 shuffled), n. split; [done|].
  by rewrite Hpairs.
Qed.

(** * Worked examples *)

Lemma scenario_blocks_valid :
  valid home_block ∧ valid supernet_block ∧ valid sibling_block
  ∧ valid far_block.
Proof. unfold valid, ALL_ONES, max_prefixlen. simpl. lia. Defined.

Lemma can_aggregate_symmetric_witness :
  valid home_block ∧ valid sibling_block
  ∧ ∃ v : bool, can_aggregate home_block sibling_block = Ok v
              ∧ can_aggregate sibling_block home_block = Ok v.
Proof.
  split; [apply scenario_blocks_valid|]. split; [apply scenario_blocks_valid|].
  apply (can_aggregate_symmetric home_block sibling_block);
    apply scenario_blocks_valid.
Defined.

Lemma can_aggregate_reflexive_witness :
  valid home_block ∧ can_aggregate home_block home_block = Ok true.
Proof.
  split; [apply scenario_blocks_valid|].
  apply (can_aggregate_reflexive home_block), scenario_blocks_valid.
Defined.

Lemma total_score_witness :
  valid home_block ∧ valid supernet_block
  ∧ ∃ nx ny, ip_network home_block = Ok nx ∧ ip_network supernet_block = Ok ny
      ∧ total_score_for_as nx ny = scoreCompatibility_spec nx ny
      ∧ total_score_for_ip nx ny = scoreCompatibility_spec nx ny
      ∧ total_score_for_as nx ny = total_score_for_as ny nx
      ∧ total_score_for_ip nx ny = total_score_for_ip ny nx
      ∧ total_score_for_as nx ny = total_score_for_ip ny nx.
Proof.
  split; [apply scenario_blocks_valid|]. split; [apply scenario_blocks_valid|].
  apply (total_score_is_scoreCompatibility home_block supernet_block);
    apply scenario_blocks_valid.
Defined.

(** The scenario of the specification: the supernet comes first, then the
    adjacent sibling, then the unrelated block. *)
Example scenario_ranking :
  rank_ip_blocks_for_as home_block [far_block; sibling_block; supernet_block]
  = Ok [supernet_block; sibling_block; far_block].
Proof. vm_compute. reflexivity. Qed.

Example scenario_aggregatable :
  can_aggregate home_block supernet_block = Ok true
  ∧ can_aggregate home_block far_block = Ok false.
Proof. split; vm_compute; reflexivity. Qed.

(** The common prefix is counted on all 32 bits: it may exceed both prefix
    lengths. *)
Example common_prefix_exceeds_prefixlen :
  (nx ← ip_network (dotted 10 0 0 0 8);
   ny ← ip_network (dotted 10 0 0 0 16);
   Ok (get_common_prefix_length nx ny)) = Ok 32.
Proof. vm_compute. reflexivity. Qed.

Lemma ranking_witness :
  valid home_block
  ∧ Forall valid [far_block; sibling_block; supernet_block]
  ∧ Forall (λ e, valid e.2) scenario_systems
  ∧ (∃ ranked,
       rank_ip_blocks_for_as home_block
         [far_block; sibling_block; supernet_block] = Ok ranked
       ∧ stably_ranked (score_of home_block)
           [far_block; sibling_block; supernet_block] ranked)
  ∧ (∃ ranked_items,
       rank_as_for_ip_blocks home_block scenario_systems = Ok ranked_items.*1
       ∧ stably_ranked (λ e, score_of home_block e.2)
           scenario_systems ranked_items).
Proof.
  assert (Forall valid [far_block; sibling_block; supernet_block]) as H1.
  { repeat constructor; apply scenario_blocks_valid. }
  assert (Forall (λ e : string * cidr, valid e.2) scenario_systems) as H2.
  { repeat constructor; apply scenario_blocks_valid. }
  split; [apply scenario_blocks_valid|]. split; [exact H1|].
  split; [exact H2|].
  apply (ranking_is_stable_descending_sort home_block _ scenario_systems);
    [apply scenario_blocks_valid|exact H1|exact H2].
Defined.

Lemma two_for_one_well_formed : well_formed two_for_one_as two_for_one_ip.
Proof.
  unfold well_formed, two_for_one_as, two_for_one_ip. simpl.
  split; [apply (bool_decide_unpack _); by vm_compute|].
  split; [apply (bool_decide_unpack _); by vm_compute|].
  split; repeat constructor.
Defined.

Lemma three_two_well_formed : well_formed three_two_as three_two_ip.
Proof.
  unfold well_formed, three_two_as, three_two_ip. simpl.
  split; [apply (bool_decide_unpack _); by vm_compute|].
  split; [apply (bool_decide_unpack _); by vm_compute|].
  split; repeat constructor.
Defined.

Lemma three_two_fuel : (enough_fuel three_two_as three_two_ip ≤ 9)%nat.
Proof. vm_compute. lia. Defined.

(** The third requester stays unmatched. *)
Example three_two_result :
  gale_shapley three_two_as three_two_ip 9
  = Some (Ok (<["r2" := "b1"]> (<["r1" := "b2"]> ∅))).
Proof. vm_compute. reflexivity. Qed.

Lemma gale_shapley_stable_witness :
  well_formed three_two_as three_two_ip
  ∧ (enough_fuel three_two_as three_two_ip ≤ 9)%nat
  ∧ ∃ M, gale_shapley three_two_as three_two_ip 9 = Some (Ok M)
      ∧ stable three_two_as three_two_ip M.
Proof.
  split; [exact three_two_well_formed|]. split; [exact three_two_fuel|].
  exact (gale_shapley_stable three_two_as three_two_ip 9
           three_two_well_formed three_two_fuel).
Defined.

Lemma gale_shapley_one_to_one_witness :
  well_formed three_two_as three_two_ip
  ∧ (enough_fuel three_two_as three_two_ip ≤ 9)%nat
  ∧ ∃ M, gale_shapley three_two_as three_two_ip 9 = Some (Ok M)
      ∧ (∀ r1 r2 b, M !! r1 = Some b → M !! r2 = Some b → r1 = r2)
      ∧ (∀ r b1 b2, M !! r = Some b1 → M !! r = Some b2 → b1 = b2)
      ∧ (∀ r b, M !! r = Some b → r ∈ three_two_as.*1 ∧ b ∈ three_two_ip.*1).
Proof.
  split; [exact three_two_well_formed|]. split; [exact three_two_fuel|].
  exact (gale_shapley_one_to_one three_two_as three_two_ip 9
           three_two_well_formed three_two_fuel).
Defined.

Lemma gale_shapley_requester_optimal_witness :
  well_formed three_two_as three_two_ip
  ∧ (enough_fuel three_two_as three_two_ip ≤ 9)%nat
  ∧ ∃ M, gale_shapley three_two_as three_two_ip 9 = Some (Ok M)
      ∧ matching three_two_as three_two_ip M
      ∧ stable three_two_as three_two_ip M
      ∧ ∀ M', matching three_two_as three_two_ip M' →
          stable three_two_as three_two_ip M' →
          ∀ r,
            (∀ b', M' !! r = Some b' →
               ∃ b l, M !! r = Some b ∧ dict_get three_two_as r = Ok l
                 ∧ (b = b' ∨ prefers l b b'))
            ∧ (M !! r = None → M' !! r = None).
Proof.
  split; [exact three_two_well_formed|]. split; [exact three_two_fuel|].
  exact (gale_shapley_requester_optimal three_two_as three_two_ip 9
           three_two_well_formed three_two_fuel).
Defined.

Lemma gale_shapley_attempts_bound_witness :
  well_formed three_two_as three_two_ip
  ∧ (enough_fuel three_two_as three_two_ip ≤ 9)%nat
  ∧ ∃ st h, gale_shapley_run three_two_as three_two_ip 9 = Some (Ok (st, h))
      ∧ (length h ≤ length three_two_as * (length three_two_ip + 1))%nat
      ∧ (∀ r tried, (r, tried) ∈ h → length tried ≤ length three_two_ip)%nat
      ∧ (length (attempts h)
         ≤ length three_two_as * (length three_two_ip + 1)
           * length three_two_ip)%nat.
Proof.
  split; [exact three_two_well_formed|]. split; [exact three_two_fuel|].
  exact (gale_shapley_attempts_bound three_two_as three_two_ip 9
           three_two_well_formed three_two_fuel).
Defined.

Lemma gale_shapley_turns_scan_from_top_witness :
  well_formed three_two_as three_two_ip
  ∧ (enough_fuel three_two_as three_two_ip ≤ 9)%nat
  ∧ ∃ st h, gale_shapley_run three_two_as three_two_ip 9 = Some (Ok (st, h))
      ∧ turns_from three_two_as three_two_ip
          (initial_state three_two_as three_two_ip) h st
      ∧ turns_scan_from_top three_two_as h.
Proof.
  split; [exact three_two_well_formed|]. split; [exact three_two_fuel|].
  exact (gale_shapley_turns_scan_from_top three_two_as three_two_ip 9
           three_two_well_formed three_two_fuel).
Defined.

(** Two requesters and one block: the block goes to the requester it
    prefers, whichever of the two proposes first. *)
Example two_for_one_result :
  gale_shapley two_for_one_as two_for_one_ip 4
  = Some (Ok (<["r2" := "b1"]> ∅))
  ∧ gale_shapley (reverse two_for_one_as) two_for_one_ip 4
    = Some (Ok (<["r2" := "b1"]> ∅)).
Proof. split; vm_compute; reflexivity. Qed.

(** With two requesters and one block that prefers the second, the first
    requester is displaced and proposes to the block again. *)
Lemma two_for_one_history :
  ∃ st, gale_shapley_run two_for_one_as two_for_one_ip
          (enough_fuel two_for_one_as two_for_one_ip)
        = Some (Ok (st, [("r1", ["b1"]); ("r2", ["b1"]); ("r1", ["b1"])])).
Proof. eexists. vm_compute. reflexivity. Qed.

(** Three proposal attempts are made with [n = 2] requesters and [m = 1]
    block: [n * m] does not bound the number of attempts. *)
Lemma attempts_exceed_n_times_m :
  well_formed two_for_one_as two_for_one_ip
  ∧ ∃ st h, gale_shapley_run two_for_one_as two_for_one_ip
              (enough_fuel two_for_one_as two_for_one_ip) = Some (Ok (st, h))
      ∧ ¬ (length (attempts h)
           ≤ length two_for_one_as * length two_for_one_ip)%nat.
Proof.
  split; [exact two_for_one_well_formed|].
  destruct two_for_one_history as [st Hrun].
  eexists st, _. split; [exact Hrun|]. vm_compute. lia.
Qed.

(** The requester [r1] proposes to the block [b1] twice: when it comes
    back to the queue it starts again at the top of its list. *)
Lemma requester_proposes_twice :
  well_formed two_for_one_as two_for_one_ip
  ∧ ∃ st h, gale_shapley_run two_for_one_as two_for_one_ip
              (enough_fuel two_for_one_as two_for_one_ip) = Some (Ok (st, h))
      ∧ ¬ NoDup (attempts h).
Proof.
  split; [exact two_for_one_well_formed|].
  destruct two_for_one_history as [st Hrun].
  eexists st, _. split; [exact Hrun|].
  apply (bool_decide_unpack _). by vm_compute.
Qed.

(** ** Examples for the further properties *)

Lemma can_aggregate_iff_shared_prefix_witness :
  valid home_block ∧ valid sibling_block
  ∧ ∃ nA nB, ip_network home_block = Ok nA ∧ ip_network sibling_block = Ok nB
      ∧ can_aggregate home_block sibling_block
        = Ok (bool_decide (Z.min (prefixlen nA) (prefixlen nB) - 1
                           ≤ get_common_prefix_length nA nB)).
Proof.
  split; [apply scenario_blocks_valid|]. split; [apply scenario_blocks_valid|].
  apply (can_aggregate_iff_shared_prefix home_block sibling_block);
    apply scenario_blocks_valid.
Defined.

(** Blocks of different lengths that share 23 bits are reported as
    aggregatable although neither contains the other. *)
Example aggregatable_without_being_siblings :
  can_aggregate (dotted 10 0 0 0 24) (dotted 10 0 1 128 25) = Ok true.
Proof. vm_compute. reflexivity. Qed.

Lemma get_common_prefix_length_full_witness :
  valid home_block ∧ valid supernet_block
  ∧ ∃ nx ny, ip_network home_block = Ok nx ∧ ip_network supernet_block = Ok ny
      ∧ 0 ≤ get_common_prefix_length nx ny ≤ 32
      ∧ (get_common_prefix_length nx ny = 32
         ↔ network_address nx = network_address ny).
Proof.
  split; [apply scenario_blocks_valid|]. split; [apply scenario_blocks_valid|].
  apply (get_common_prefix_length_full home_block supernet_block);
    apply scenario_blocks_valid.
Defined.

Lemma total_score_range_witness :
  valid home_block ∧ valid far_block
  ∧ ∃ nx ny, ip_network home_block = Ok nx ∧ ip_network far_block = Ok ny
      ∧ 0 ≤ total_score_for_as nx ny ≤ 96
      ∧ 0 ≤ total_score_for_ip nx ny ≤ 96
      ∧ (total_score_for_as nx ny = 96 ↔ nx = ny)
      ∧ (total_score_for_ip nx ny = 96 ↔ nx = ny).
Proof.
  split; [apply scenario_blocks_valid|]. split; [apply scenario_blocks_valid|].
  apply (total_score_range home_block far_block); apply scenario_blocks_valid.
Defined.

Lemma gale_shapley_matches_shorter_side_witness :
  well_formed three_two_as three_two_ip
  ∧ (enough_fuel three_two_as three_two_ip ≤ 9)%nat
  ∧ ∃ M, gale_shapley three_two_as three_two_ip 9 = Some (Ok M)
      ∧ size M = (length three_two_as `min` length three_two_ip)%nat
      ∧ ((length three_two_as ≤ length three_two_ip)%nat →
         ∀ r, r ∈ three_two_as.*1 → is_Some (M !! r))
      ∧ ((length three_two_ip ≤ length three_two_as)%nat →
         ∀ b, b ∈ three_two_ip.*1 → ∃ r, M !! r = Some b).
Proof.
  split; [exact three_two_well_formed|]. split; [exact three_two_fuel|].
  exact (gale_shapley_matches_shorter_side three_two_as three_two_ip 9
           three_two_well_formed three_two_fuel).
Defined.

Lemma gale_shapley_block_pessimal_witness :
  well_formed three_two_as three_two_ip
  ∧ (enough_fuel three_two_as three_two_ip ≤ 9)%nat
  ∧ ∃ M, gale_shapley three_two_as three_two_ip 9 = Some (Ok M)
      ∧ ∀ M', matching three_two_as three_two_ip M' →
          stable three_two_as three_two_ip M' →
          ∀ r b, M !! r = Some b →
            ∃ r' lb, M' !! r' = Some b ∧ dict_get three_two_ip b = Ok lb
              ∧ (r' = r ∨ prefers lb r' r).
Proof.
  split; [exact three_two_well_formed|]. split; [exact three_two_fuel|].
  exact (gale_shapley_block_pessimal three_two_as three_two_ip 9
           three_two_well_formed three_two_fuel).
Defined.

Lemma three_two_reversed :
  reverse three_two_as ≡ₚ three_two_as ∧ reverse three_two_ip ≡ₚ three_two_ip.
Proof. split; apply reverse_Permutation. Defined.

Lemma gale_shapley_order_independent_witness :
  well_formed three_two_as three_two_ip
  ∧ reverse three_two_as ≡ₚ three_two_as
  ∧ reverse three_two_ip ≡ₚ three_two_ip
  ∧ (enough_fuel three_two_as three_two_ip ≤ 9)%nat
  ∧ ∃ M, gale_shapley three_two_as three_two_ip 9 = Some (Ok M)
      ∧ gale_shapley (reverse three_two_as) (reverse three_two_ip) 9
        = Some (Ok M).
Proof.
  split; [exact three_two_well_formed|].
  split; [exact (proj1 three_two_reversed)|].
  split; [exact (proj2 three_two_reversed)|].
  split; [exact three_two_fuel|].
  exact (gale_shapley_order_independent three_two_as (reverse three_two_as)
           three_two_ip (reverse three_two_ip) 9 three_two_well_formed
           (proj1 three_two_reversed) (proj2 three_two_reversed)
           three_two_fuel).
Defined.

Lemma ragged_fuel : (fuel_for_any_input ragged_as ragged_ip ≤ 4)%nat.
Proof. vm_compute. lia. Defined.

(** The second requester is not in the list of the block it proposes to
    while the block is held: [index] raises. *)
Example ragged_result :
  gale_shapley ragged_as ragged_ip 4 = Some (Raise ValueError).
Proof. vm_compute. reflexivity. Qed.

Lemma gale_shapley_always_ends_witness :
  (fuel_for_any_input ragged_as ragged_ip ≤ 4)%nat
  ∧ ∃ res, gale_shapley ragged_as ragged_ip 4 = Some res
      ∧ ∀ M, res = Ok M → pairs_from_lists ragged_as ragged_ip M.
Proof.
  split; [exact ragged_fuel|].
  exact (gale_shapley_always_ends ragged_as ragged_ip 4 ragged_fuel).
Defined.

Lemma scenario_systems_valid :
  Forall (λ e : string * cidr, valid e.2) scenario_systems.
Proof. repeat constructor; apply scenario_blocks_valid. Defined.

Lemma scenario_matching_valid :
  Forall (λ e : string * cidr, valid e.2) scenario_matching.
Proof. repeat constructor; apply scenario_blocks_valid. Defined.

Lemma scenario_blocks_all_valid : Forall valid scenario_blocks.
Proof. repeat constructor; apply scenario_blocks_valid. Defined.

Lemma scenario_matching_known :
  Forall (known_pair scenario_systems) scenario_matching.
Proof.
  repeat constructor.
  - exists home_block. split; [reflexivity|].
    split; apply scenario_blocks_valid.
  - exists far_block. split; [reflexivity|].
    split; apply scenario_blocks_valid.
Defined.

Lemma count_aggregations_counts_witness :
  Forall (known_pair scenario_systems) scenario_matching
  ∧ ∃ n : Z, count_aggregations scenario_matching scenario_systems = Ok n
      ∧ n = Z.of_nat (length (filter (aggregating scenario_systems)
                                scenario_matching))
      ∧ 0 ≤ n ≤ Z.of_nat (length scenario_matching)
      ∧ ∀ matchings', matchings' ≡ₚ scenario_matching →
          count_aggregations matchings' scenario_systems = Ok n.
Proof.
  split; [exact scenario_matching_known|].
  exact (count_aggregations_counts scenario_matching scenario_systems
           scenario_matching_known).
Defined.

Example scenario_count :
  count_aggregations scenario_matching scenario_systems = Ok 2.
Proof. vm_compute. reflexivity. Qed.

Lemma count_aggregations_KeyError_iff_witness :
  Forall (λ e : string * cidr, valid e.2) scenario_systems
  ∧ Forall (λ e : string * cidr, valid e.2) scenario_matching
  ∧ (count_aggregations scenario_matching scenario_systems = Raise KeyError
     ↔ ∃ e, e ∈ scenario_matching ∧ e.1 ∉ scenario_systems.*1)
  ∧ count_aggregations scenario_matching scenario_systems ≠ Raise ValueError.
Proof.
  split; [exact scenario_systems_valid|].
  split; [exact scenario_matching_valid|].
  exact (count_aggregations_KeyError_iff scenario_matching scenario_systems
           scenario_systems_valid scenario_matching_valid).
Defined.

Lemma scenario_distinct :
  NoDup scenario_systems.*1 ∧ NoDup scenario_blocks.
Proof. split; apply (bool_decide_unpack _); by vm_compute. Defined.

Lemma script_preferences_well_formed_witness :
  NoDup scenario_systems.*1
  ∧ Forall (λ e : string * cidr, valid e.2) scenario_systems
  ∧ NoDup scenario_blocks ∧ Forall valid scenario_blocks
  ∧ ∃ as_prefs ip_prefs,
      as_preferences_from scenario_blocks scenario_systems [] = Ok as_prefs
      ∧ ip_preferences_from scenario_systems scenario_blocks [] = Ok ip_prefs
      ∧ as_prefs.*1 = scenario_systems.*1 ∧ ip_prefs.*1 = scenario_blocks
      ∧ well_formed as_prefs ip_prefs.
Proof.
  split; [exact (proj1 scenario_distinct)|].
  split; [exact scenario_systems_valid|].
  split; [exact (proj2 scenario_distinct)|].
  split; [exact scenario_blocks_all_valid|].
  exact (script_preferences_well_formed scenario_systems scenario_blocks
           (proj1 scenario_distinct) scenario_systems_valid
           (proj2 scenario_distinct) scenario_blocks_all_valid).
Defined.

Lemma scenario_fuel :
  (length scenario_systems * S (length scenario_blocks) ≤ 12)%nat.
Proof. vm_compute. lia. Defined.

Lemma allocate_stable_and_counted_witness :
  NoDup scenario_systems.*1
  ∧ Forall (λ e : string * cidr, valid e.2) scenario_systems
  ∧ NoDup scenario_blocks ∧ Forall valid scenario_blocks
  ∧ (length scenario_systems * S (length scenario_blocks) ≤ 12)%nat
  ∧ ∃ as_prefs ip_prefs M,
      as_preferences_from scenario_blocks scenario_systems [] = Ok as_prefs
      ∧ ip_preferences_from scenario_systems scenario_blocks [] = Ok ip_prefs
      ∧ allocate scenario_systems scenario_blocks 12 = Some (Ok M)
      ∧ stable as_prefs ip_prefs M
      ∧ size M = (length scenario_systems `min` length scenario_blocks)%nat
      ∧ ∀ items, items ≡ₚ map_to_list M →
          ∃ n : Z, count_aggregations items scenario_systems = Ok n
            ∧ 0 ≤ n ≤ Z.of_nat (length scenario_systems
                                  `min` length scenario_blocks).
Proof.
  split; [exact (proj1 scenario_distinct)|].
  split; [exact scenario_systems_valid|].
  split; [exact (proj2 scenario_distinct)|].
  split; [exact scenario_blocks_all_valid|].
  split; [exact scenario_fuel|].
  exact (allocate_stable_and_counted scenario_systems scenario_blocks 12
           (proj1 scenario_distinct) scenario_systems_valid
           (proj2 scenario_distinct) scenario_blocks_all_valid scenario_fuel).
Defined.

(** The round of the script on the scenario: every system gets the block
    it ranks first. *)
Example scenario_allocation :
  allocate scenario_systems scenario_blocks 12
  = Some (Ok (<["AS1" := far_block]>
                (<["AS2" := supernet_block]>
                   (<["AS3" := sibling_block]> ∅)))).
Proof. vm_compute. reflexivity. Qed.

Lemma scenario_shuffled :
  [sibling_block; supernet_block; far_block] ≡ₚ scenario_blocks.
Proof.
  unfold scenario_blocks. symmetry.
  apply (Permutation_cons_append [sibling_block; supernet_block] far_block).
Defined.

Lemma random_match_pairs_and_counts_witness :
  NoDup scenario_systems.*1
  ∧ Forall (λ e : string * cidr, valid e.2) scenario_systems
  ∧ Forall valid scenario_blocks
  ∧ [sibling_block; supernet_block; far_block] ≡ₚ scenario_blocks
  ∧ ∃ n : Z,
      random_match_and_count_aggregations scenario_systems
        [sibling_block; supernet_block; far_block]
      = Ok (zip scenario_systems.*1
              [sibling_block; supernet_block; far_block], n)
      ∧ count_aggregations
          (zip scenario_systems.*1 [sibling_block; supernet_block; far_block])
          scenario_systems = Ok n
      ∧ length (zip scenario_systems.*1
                  [sibling_block; supernet_block; far_block])
        = (length scenario_systems `min` length scenario_blocks)%nat
      ∧ 0 ≤ n ≤ Z.of_nat (length scenario_systems
                            `min` length scenario_blocks).
Proof.
  split; [exact (proj1 scenario_distinct)|].
  split; [exact scenario_systems_valid|].
  split; [exact scenario_blocks_all_valid|].
  split; [exact scenario_shuffled|].
  exact (random_match_pairs_and_counts scenario_systems scenario_blocks
           [sibling_block; supernet_block; far_block]
           (proj1 scenario_distinct) scenario_systems_valid
           scenario_blocks_all_valid scenario_shuffled).
Defined.

(** ** Examples for repeated blocks and for the generator *)

Lemma repeated_blocks_valid : Forall valid repeated_blocks.
Proof. repeat constructor; apply scenario_blocks_valid. Defined.

Lemma repeated_fuel :
  (length scenario_systems * S (length repeated_blocks) ≤ 12)%nat.
Proof. vm_compute. lia. Defined.

Lemma allocate_with_repeated_blocks_witness :
  NoDup scenario_systems.*1
  ∧ Forall (λ e : string * cidr, valid e.2) scenario_systems
  ∧ Forall valid repeated_blocks
  ∧ (length scenario_systems * S (length repeated_blocks) ≤ 12)%nat
  ∧ ∃ as_prefs ip_prefs M,
      as_preferences_from repeated_blocks scenario_systems [] = Ok as_prefs
      ∧ ip_preferences_from scenario_systems repeated_blocks [] = Ok ip_prefs
      ∧ ip_prefs.*1 = first_occurrences [] repeated_blocks
      ∧ allocate scenario_systems repeated_blocks 12 = Some (Ok M)
      ∧ matching as_prefs ip_prefs M
      ∧ stable as_prefs ip_prefs M
      ∧ size M = (length scenario_systems
                  `min` length (first_occurrences [] repeated_blocks))%nat
      ∧ ∀ items, items ≡ₚ map_to_list M →
          ∃ n : Z, count_aggregations items scenario_systems = Ok n
            ∧ 0 ≤ n ≤ Z.of_nat (size M).
Proof.
  split; [exact (proj1 scenario_distinct)|].
  split; [exact scenario_systems_valid|].
  split; [exact repeated_blocks_valid|].
  split; [exact repeated_fuel|].
  exact (allocate_with_repeated_blocks scenario_systems repeated_blocks 12
           (proj1 scenario_distinct) scenario_systems_valid
           repeated_blocks_valid repeated_fuel).
Defined.

(** The block listed twice is handed out once, to the system it ranks
    first; the third system stays without a block. *)
Example repeated_blocks_allocation :
  allocate scenario_systems repeated_blocks 12
  = Some (Ok (<["AS1" := far_block]> (<["AS2" := supernet_block]> ∅))).
Proof. vm_compute. reflexivity. Qed.

(** The generator can make the same block twice: here every draw is 0. *)
Example generator_repeats_blocks :
  generate_as_ip_blocks 1 2 (λ _, 0%nat) 0%nat
  = inr (([("AS1", dotted 10 0 0 1 22)],
          [dotted 10 0 0 1 22; dotted 10 0 0 1 22]), 9%nat).
Proof. lazy. reflexivity. Qed.

Lemma two_by_two_fuel : (Z.to_nat 2 * S (Z.to_nat 2) ≤ 6)%nat.
Proof. vm_compute. lia. Defined.

Lemma script_pass_never_raises_witness :
  (Z.to_nat 2 * S (Z.to_nat 2) ≤ 6)%nat
  ∧ ∃ autonomousSystems ipBlocks k' as_prefs ip_prefs M,
      generate_as_ip_blocks 2 2 (λ _, 0%nat) 0%nat
      = inr ((autonomousSystems, ipBlocks), k')
      ∧ as_preferences_from ipBlocks autonomousSystems [] = Ok as_prefs
      ∧ ip_preferences_from autonomousSystems ipBlocks [] = Ok ip_prefs
      ∧ allocate autonomousSystems ipBlocks 6%nat = Some (Ok M)
      ∧ matching as_prefs ip_prefs M
      ∧ stable as_prefs ip_prefs M
      ∧ (∀ items, items ≡ₚ map_to_list M →
           ∃ n : Z, count_aggregations items autonomousSystems = Ok n
             ∧ 0 ≤ n ≤ Z.of_nat (size M))
      ∧ (∀ shuffled, shuffled ≡ₚ ipBlocks →
           ∃ pairs (n : Z),
             random_match_and_count_aggregations autonomousSystems shuffled
             = Ok (pairs, n)
             ∧ 0 ≤ n ≤ Z.of_nat (length pairs)).
Proof.
  split; [exact two_by_two_fuel|].
  exact (script_pass_never_raises (λ _, 0%nat) 2 2 0%nat 6%nat two_by_two_fuel).
Defined.

(** The [try] block on two adjacent /24 blocks: both supernets are
    computed and are the same /23. *)
Lemma can_aggregate_raises_iff_witness :
  ∃ nA nB supernet1 supernet2,
    ip_network home_block = Ok nA ∧ ip_network sibling_block = Ok nB
    ∧ supernet_of nA nB || supernet_of nB nA = false
    ∧ supernet nA 23 = Ok supernet1 ∧ supernet nB 23 = Ok supernet2
    ∧ can_aggregate home_block sibling_block
      = Ok (network_eqb supernet1 supernet2)
    ∧ network_eqb supernet1 supernet2 = true.
Proof.
  destruct (proj2 (proj2 (can_aggregate_raises_iff home_block sibling_block))
              (Network (cidr_addr home_block) 24)
              (Network (cidr_addr sibling_block) 24)
              eq_refl eq_refl)
    as (supernet1 & supernet2 & H1 & H2 & Hresult).
  exists (Network (cidr_addr home_block) 24),
    (Network (cidr_addr sibling_block) 24), supernet1, supernet2.
  do 2 (split; [reflexivity|]). split; [reflexivity|].
  do 3 (split; [assumption|]).
  vm_compute in H1, H2. injection H1 as <-. injection H2 as <-.
  reflexivity.
Defined.
